(** * file-disk: the overlay chunk store, read planner and read executor

    A shallow embedding of [diskchunk.js] (the chunk classes) and of the
    [Disk] class of [index.js], with the properties of the overlay that the
    specification states about them.

    JavaScript numbers used as byte positions are modelled as [Z]; a Node
    [Buffer] is modelled by its contents, a list of bytes.  Chunk buffers are
    never written to after their creation, so sharing between a chunk and
    its slices (the [copy=false] constructor argument) is not observable and
    buffers are plain values. *)

From Stdlib Require Import ZArith List Lia Bool Sorting.Sorted.
From Stdlib Require Import Init.Byte.
Import ListNotations.
Open Scope Z_scope.

(** ** Node buffers *)

Definition Buffer := list byte.

Module Buf.

Definition length (b : Buffer) : Z := Z.of_nat (List.length b).

(** Index normalisation of [Buffer.prototype.slice]: a negative index counts
    from the end, and the result is clamped to [0, length]. *)
Definition clamp (len i : Z) : Z :=
  if i <? 0 then Z.max (len + i) 0 else Z.min i len.

(** [buf.slice(start, end)] *)
Definition slice (b : Buffer) (start end_ : Z) : Buffer :=
  let s := clamp (length b) start in
  let e := clamp (length b) end_ in
  firstn (Z.to_nat (e - s)) (skipn (Z.to_nat s) b).

(** [Buffer.alloc(size)]: zero filled; a negative size throws. *)
Definition alloc (size : Z) : option Buffer :=
  if size <? 0 then None else Some (repeat x00 (Z.to_nat size)).

(** [source.copy(target, targetStart, sourceStart, sourceEnd)]: the new
    contents of [target].  A negative index throws a RangeError, as does a
    [sourceStart] beyond the source; nothing is copied when [targetStart] is
    at or after the end of the target or the source range is empty;
    otherwise the copy is cut to what the target can hold after
    [targetStart] and to what the source holds. *)
Definition copy (source target : Buffer) (targetStart sourceStart sourceEnd : Z)
  : option Buffer :=
  if (targetStart <? 0) || (sourceStart <? 0) || (sourceEnd <? 0) then None
  else if (length target <=? targetStart) || (sourceEnd <=? sourceStart)
  then Some target
  else if length source <? sourceStart then None
  else
    let n := Z.min (Z.min (sourceEnd - sourceStart) (length target - targetStart))
                   (length source - sourceStart) in
    let bytes := firstn (Z.to_nat n) (skipn (Z.to_nat sourceStart) source) in
    Some (firstn (Z.to_nat targetStart) target ++ bytes
          ++ skipn (Z.to_nat (targetStart + n)) target).

End Buf.

(** ** Closed integer intervals *)

Definition Interval := (Z * Z)%type.

(** Modelled from the spec: the [interval-intersection] package, which is a
    dependency and not part of the sources.  The specification uses it as the
    intersection of two closed intervals, [null] when they do not overlap. *)
Definition iisect (a b : Interval) : option Interval :=
  let lo := Z.max (fst a) (fst b) in
  let hi := Z.min (snd a) (snd b) in
  if lo <=? hi then Some (lo, hi) else None.

(** ** Disk chunks ([diskchunk.js]) *)

(** The two concrete subclasses of [DiskChunk], each given by the arguments
    of its constructor.  The fields [start] and [end] are set once by
    [super(...)] from these arguments and never assigned again. *)
Inductive DiskChunk : Type :=
| BufferDiskChunk (buffer : Buffer) (offset : Z)
| DiscardDiskChunk (offset : Z) (length : Z).

(** [this.start] *)
Definition start (c : DiskChunk) : Z :=
  match c with
  | BufferDiskChunk _ offset => offset
  | DiscardDiskChunk offset _ => offset
  end.

(** [this.end]: [offset + buffer.length - 1], respectively
    [offset + length - 1]. *)
Definition end_ (c : DiskChunk) : Z :=
  match c with
  | BufferDiskChunk buffer offset => offset + Buf.length buffer - 1
  | DiscardDiskChunk offset length => offset + length - 1
  end.

(** [chunk instanceof DiscardDiskChunk] *)
Definition isDiscard (c : DiskChunk) : bool :=
  match c with
  | BufferDiskChunk _ _ => false
  | DiscardDiskChunk _ _ => true
  end.

Definition interval (c : DiskChunk) : Interval := (start c, end_ c).

Definition intersection (this other : DiskChunk) : option Interval :=
  iisect (interval this) (interval other).

Definition intersects (this other : DiskChunk) : bool :=
  match intersection this other with
  | Some _ => true
  | None => false
  end.

Definition includedIn (this other : DiskChunk) : bool :=
  (start this >=? start other) && (end_ this <=? end_ other).

(** [data()]: the buffer of a [BufferDiskChunk]; for a [DiscardDiskChunk] a
    fresh zero-filled buffer, [None] when [Buffer.alloc] throws. *)
Definition data (c : DiskChunk) : option Buffer :=
  match c with
  | BufferDiskChunk buffer _ => Some buffer
  | DiscardDiskChunk _ _ => Buf.alloc (end_ c - start c + 1)
  end.

(** [slice(start, end)], both positions relative to the disk. *)
Definition slice (c : DiskChunk) (start' end' : Z) : DiskChunk :=
  match c with
  | BufferDiskChunk buffer _ =>
      let startInBuffer := start' - start c in
      BufferDiskChunk
        (Buf.slice buffer startInBuffer (startInBuffer + end' - start' + 1))
        start'
  | DiscardDiskChunk _ _ => DiscardDiskChunk start' (end' - start' + 1)
  end.

(** [cut(other)]: [None] when [intersection] is [null], where reading
    [intersection[0]] throws a TypeError. *)
Definition cut (this other : DiskChunk) : option (list DiskChunk) :=
  match intersection this other with
  | None => None
  | Some (i0, i1) =>
      let result := [] in
      let result :=
        if i0 >? start this
        then result ++ [slice this (start this) (i0 - 1)]
        else result in
      let result :=
        if end_ this >? i1
        then result ++ [slice this (i1 + 1) (end_ this)]
        else result in
      Some result
  end.

(** *** Derived notions used in the statements *)

(** Number of bytes of the interval of a chunk. *)
Definition chunk_length (c : DiskChunk) : Z := end_ c - start c + 1.

Definition interval_length (i : Interval) : Z := snd i - fst i + 1.

(** A chunk covers the disk position [p]. *)
Definition covers (c : DiskChunk) (p : Z) : Prop := start c <= p <= end_ c.

(** The byte a chunk holds for the disk position [p]: the byte of its buffer,
    zero for a discarded position, nothing outside of its interval. *)
Definition byte_at (c : DiskChunk) (p : Z) : option byte :=
  if (start c <=? p) && (p <=? end_ c) then
    match c with
    | BufferDiskChunk buffer offset => nth_error buffer (Z.to_nat (p - offset))
    | DiscardDiskChunk _ _ => Some x00
    end
  else None.

(** The data model's chunk invariant [start <= end]. *)
Definition wf_chunk (c : DiskChunk) : Prop := start c <= end_ c.

(** ** The disk ([index.js]) *)

(** [array.splice(start, deleteCount, ...items)]: the array afterwards. *)
Definition splice {A : Type} (l : list A) (start' deleteCount : Z)
  (items : list A) : list A :=
  let len := Z.of_nat (List.length l) in
  let s := if start' <? 0 then Z.max (len + start') 0 else Z.min start' len in
  let dc := Z.min (Z.max deleteCount 0) (len - s) in
  firstn (Z.to_nat s) l ++ items ++ skipn (Z.to_nat (s + dc)) l.

Record Disk : Type := mkDisk {
  readOnly : bool;
  recordWrites : bool;
  recordReads : bool;
  discardIsZero : bool;
  knownChunks : list DiskChunk;  (* sorted list of non overlapping DiskChunks *)
  capacity : option Z            (* [null] until the first successful query *)
}.

(** [new Disk(readOnly, recordWrites, recordReads, discardIsZero)] *)
Definition newDisk (readOnly recordWrites recordReads discardIsZero : bool)
  : Disk :=
  mkDisk readOnly recordWrites recordReads discardIsZero [] None.

Definition set_knownChunks (d : Disk) (l : list DiskChunk) : Disk :=
  mkDisk (readOnly d) (recordWrites d) (recordReads d) (discardIsZero d) l
         (capacity d).

Definition set_capacity (d : Disk) (c : Z) : Disk :=
  mkDisk (readOnly d) (recordWrites d) (recordReads d) (discardIsZero d)
         (knownChunks d) (Some c).

(** The [for] loop of [_insertDiskChunk], one iteration per unit of fuel,
    over the current array, the index [i] and [insertAt].  The result is the
    array and [insertAt] when the loop is left; [None] when the body throws
    ([knownChunks[i]] undefined, or [cut] on a [null] intersection) or the
    fuel is used up. *)
Fixpoint insertLoop (fuel : nat) (chunk : DiskChunk)
  (known : list DiskChunk) (i insertAt : Z) : option (list DiskChunk * Z) :=
  match fuel with
  | O => None
  | S fuel' =>
      if i <? Z.of_nat (List.length known) then
        match nth_error known (Z.to_nat i) with
        | None => None
        | Some other =>
            if start other >? end_ chunk then Some (known, insertAt)
            else
              let insertAt := if start other <? start chunk then i + 1 else i in
              if negb (intersects chunk other) then
                insertLoop fuel' chunk known (i + 1) insertAt
              else if includedIn other chunk then
                (* Delete other *)
                let known := splice known i 1 [] in
                let i := i - 1 in
                insertLoop fuel' chunk known (i + 1) insertAt
              else
                (* Cut other *)
                match cut other chunk with
                | None => None
                | Some newChunks =>
                    let known := splice known i 1 newChunks in
                    let i := i + (Z.of_nat (List.length newChunks) - 1) in
                    insertLoop fuel' chunk known (i + 1) insertAt
                end
        end
      else Some (known, insertAt)
  end.

(** [_insertDiskChunk(chunk, insert)] on the array of known chunks.  Every
    iteration of the loop brings [i] one step closer to the length of the
    array, so the length of the array at entry bounds their number. *)
Definition insertChunk (chunk : DiskChunk) (insert : bool)
  (known : list DiskChunk) : option (list DiskChunk) :=
  match insertLoop (S (List.length known)) chunk known 0 0 with
  | None => None
  | Some (known, insertAt) =>
      Some (if insert then splice known insertAt 0 [chunk] else known)
  end.

Definition _insertDiskChunk (d : Disk) (chunk : DiskChunk) (insert : bool)
  : option Disk :=
  option_map (set_knownChunks d) (insertChunk chunk insert (knownChunks d)).

(** [discard(offset, length, callback)]: the disk afterwards; the callback
    is always called with [null]. *)
Definition discard (d : Disk) (offset length : Z) : option Disk :=
  _insertDiskChunk d (DiscardDiskChunk offset length) true.

(** [getDiscardedChunks()] *)
Definition getDiscardedChunks (d : Disk) : list DiskChunk :=
  filter isDiscard (knownChunks d).

(** *** Read planning *)

(** An entry of a read plan: a two-element array [[first, last]] to be read
    from the backend, or a chunk whose data is copied. *)
Inductive PlanEntry : Type :=
| RawInterval (first last : Z)
| ChunkEntry (chunk : DiskChunk).

(** [chunks.map(...).filter(chunk => chunk !== null)] of [_createReadPlan] *)
Fixpoint intersectionsOf (interval' : Interval) (chunks : list DiskChunk)
  : list DiskChunk :=
  match chunks with
  | [] => []
  | chunk :: rest =>
      match iisect interval' (interval chunk) with
      | Some (i0, i1) => slice chunk i0 i1 :: intersectionsOf interval' rest
      | None => intersectionsOf interval' rest
      end
  end.

(** The [for (chunk of intersections)] loop: the plan so far, the moving
    [offset] and the loop variable [chunk] ([None] for [undefined]). *)
Fixpoint planLoop (intersections : list DiskChunk) (offset : Z)
  (readPlan : list PlanEntry) (last : option DiskChunk)
  : list PlanEntry * option DiskChunk :=
  match intersections with
  | [] => (readPlan, last)
  | chunk :: rest =>
      let readPlan :=
        if offset <? start chunk
        then readPlan ++ [RawInterval offset (start chunk - 1)]
        else readPlan in
      planLoop rest (end_ chunk + 1) (readPlan ++ [ChunkEntry chunk])
               (Some chunk)
  end.

Definition _createReadPlan (d : Disk) (offset length : Z) : list PlanEntry :=
  let end' := offset + length - 1 in
  let interval' := (offset, end') in
  let chunks := knownChunks d in
  let chunks :=
    if negb (discardIsZero d)
    then filter (fun chunk => negb (isDiscard chunk)) chunks
    else chunks in
  let intersections := intersectionsOf interval' chunks in
  match intersections with
  | [] => [RawInterval offset end']
  | _ =>
      match planLoop intersections offset [] None with
      | (readPlan, Some chunk) =>
          if end' >? end_ chunk
          then readPlan ++ [RawInterval (end_ chunk + 1) end']
          else readPlan
      | (readPlan, None) => readPlan
      end
  end.

(** The earlier revision of [_createReadPlan], which keeps the whole of every
    intersecting chunk in the plan instead of its slice. *)
Module Legacy.

Definition _createReadPlan (d : Disk) (offset length : Z) : list PlanEntry :=
  let end' := offset + length - 1 in
  let interval' := (offset, end') in
  let chunks := knownChunks d in
  let chunks :=
    if negb (discardIsZero d)
    then filter (fun chunk => negb (isDiscard chunk)) chunks
    else chunks in
  let intersections :=
    filter (fun w => match iisect interval' (interval w) with
                     | Some _ => true
                     | None => false
                     end) chunks in
  match intersections with
  | [] => [RawInterval offset end']
  | _ =>
      match planLoop intersections offset [] None with
      | (readPlan, Some w) =>
          if end' >? end_ w
          then readPlan ++ [RawInterval (end_ w + 1) end']
          else readPlan
      | (readPlan, None) => readPlan
      end
  end.

End Legacy.

Definition entry_start (e : PlanEntry) : Z :=
  match e with
  | RawInterval first _ => first
  | ChunkEntry chunk => start chunk
  end.

Definition entry_end (e : PlanEntry) : Z :=
  match e with
  | RawInterval _ last => last
  | ChunkEntry chunk => end_ chunk
  end.

Definition entry_length (e : PlanEntry) : Z := entry_end e - entry_start e + 1.

Definition plan_length (plan : list PlanEntry) : Z :=
  fold_right (fun e n => entry_length e + n) 0 plan.

(** The entries of [plan] tile the positions [from .. to]: each is not
    empty, the first starts at [from], each next one starts right after the
    end of the previous one, and the last one ends at [to]. *)
Fixpoint tiles (from : Z) (plan : list PlanEntry) (to : Z) : Prop :=
  match plan with
  | [] => from = to + 1
  | e :: rest =>
      entry_start e = from /\ entry_start e <= entry_end e /\
      tiles (entry_end e + 1) rest to
  end.

(** The chunks of the store that read planning looks at. *)
Definition visible (d : Disk) (c : DiskChunk) : Prop :=
  In c (knownChunks d) /\ (discardIsZero d = false -> isDiscard c = false).

(** *** Backend hooks and the operations that use them *)

(** A hook invocation, as logged in the order the disk makes them. *)
Inductive HookCall : Type :=
| CallGetCapacity
| CallRead (bufferOffset length fileOffset : Z)
| CallWrite (bufferOffset length fileOffset : Z).

(** An error value that reaches a callback: the value a hook passed to its
    own callback, the [OperationalError] that bluebird makes of such a
    value, or an exception thrown by the JavaScript runtime. *)
Inductive JsError (E : Type) : Type :=
| HookError (e : E)
| OperationalError (e : E)
| RangeError
| TypeError.

Arguments HookError {E} e.
Arguments OperationalError {E} e.
Arguments RangeError {E}.
Arguments TypeError {E}.

(** The kinds of JavaScript values that bluebird tells apart in an error: a
    primitive (a string, a number), an [Error] object whose prototype is
    [Error.prototype] itself (the errors of [fs] are such), and any other
    object. *)
Inductive ErrorKind : Type :=
| PrimitiveValue
| PlainError
| OtherObject.

(** The hooks a subclass of [Disk] implements, over a backend state [B] and
    the (truthy) error values [E] a hook can report:
    [_getCapacity(callback(err, capacity))],
    [_read(buffer, bufferOffset, length, fileOffset, callback(err, bytesRead))]
    which also leaves the buffer in a new state, and
    [_write(buffer, bufferOffset, length, fileOffset, callback(err, bytesWritten))];
    and for every error value what kind of JavaScript value it is. *)
Class Hooks (B E : Type) : Type := {
  _getCapacity : B -> (E + Z) * B;
  _read : Buffer -> Z -> Z -> Z -> B -> (E + Z) * Buffer * B;
  _write : Buffer -> Z -> Z -> Z -> B -> (E + Z) * B;
  errorKind : E -> ErrorKind
}.

Section DiskOperations.

Context {B E : Type} {hooks : Hooks B E}.

(** The backend together with the log of hook invocations. *)
Record World : Type := mkWorld {
  backend : B;
  calls : list HookCall
}.

(** [getCapacity(callback)]: the arguments of the callback, the disk and
    the world afterwards. *)
Definition getCapacity (d : Disk) (w : World) : (JsError E + Z) * Disk * World :=
  match capacity d with
  | Some c => (inr c, d, w)
  | None =>
      let '(res, b) := _getCapacity (backend w) in
      let w := mkWorld b (calls w ++ [CallGetCapacity]) in
      match res with
      | inl err => (inl (HookError err), d, w)
      | inr c => (inr c, set_capacity d c, w)
      end
  end.

(** [n] calls of [getCapacity] one after the other: the callback arguments
    in order, the disk and the world afterwards. *)
Fixpoint getCapacityTimes (n : nat) (d : Disk) (w : World)
  : list (JsError E + Z) * Disk * World :=
  match n with
  | O => ([], d, w)
  | S n' =>
      let '(r, d, w) := getCapacity d w in
      let '(rs, d, w) := getCapacityTimes n' d w in
      (r :: rs, d, w)
  end.

(** [write(buffer, bufferOffset, length, fileOffset, callback)]: the
    arguments of the callback (an error or the number of bytes written), the
    disk and the world afterwards; [None] when [_insertDiskChunk] throws. *)
Definition write (d : Disk) (buffer : Buffer) (bufferOffset length fileOffset : Z)
  (w : World) : option ((JsError E + Z) * Disk * World) :=
  let inserted :=
    if recordWrites d then
      let chunk :=
        BufferDiskChunk (Buf.slice buffer bufferOffset (bufferOffset + length))
                        fileOffset in
      _insertDiskChunk d chunk true
    else
      let chunk := DiscardDiskChunk fileOffset length in
      _insertDiskChunk d chunk false in
  match inserted with
  | None => None
  | Some d =>
      if readOnly d then Some (inr length, d, w)
      else
        let '(res, b) := _write buffer bufferOffset length fileOffset (backend w) in
        let w := mkWorld b (calls w ++ [CallWrite bufferOffset length fileOffset]) in
        match res with
        | inl err => Some (inl (HookError err), d, w)
        | inr n => Some (inr n, d, w)
        end
  end.

(** The state [_readAccordingToPlan] works on: the destination buffer, the
    local [offset], the disk, and the world. *)
Record ExecState : Type := mkExec {
  ex_buffer : Buffer;
  ex_offset : Z;
  ex_disk : Disk;
  ex_world : World
}.

(** Modelled from bluebird's [Promise.promisify], a dependency that is not
    part of the sources: the value the promise of [readAsync] is rejected
    with when [_read] calls back with the error [err].  An object that is
    not a plain [Error] is passed on as it is (bluebird marks it as
    operational); a plain [Error] is replaced by a new [OperationalError]
    that copies its name, message, stack and own properties; a primitive is
    first made into [new Error(String(err))] and so ends as a new
    [OperationalError] too. *)
Definition promisified (err : E) : JsError E :=
  match errorKind err with
  | OtherObject => HookError err
  | PrimitiveValue | PlainError => OperationalError err
  end.

(** What the function given to [Promise.each] does for one entry: it
    returns (or its promise is fulfilled), or it throws (or its promise is
    rejected) with an error. *)
Inductive Step : Type :=
| Fulfilled (s : ExecState)
| Rejected (err : JsError E) (s : ExecState).

Definition execEntry (s : ExecState) (entry : PlanEntry) : Step :=
  let buffer := ex_buffer s in
  let offset := ex_offset s in
  match entry with
  | ChunkEntry chunk =>
      match data chunk with
      | None => Rejected RangeError s
      | Some data' =>
          let length := Z.min (Buf.length data') (Buf.length buffer - offset) in
          match Buf.copy data' buffer offset 0 length with
          | None => Rejected RangeError s
          | Some buffer =>
              Fulfilled (mkExec buffer (offset + length) (ex_disk s) (ex_world s))
          end
      end
  | RawInterval first last =>
      let length := last - first + 1 in
      let '(res, buffer, b) :=
        _read buffer offset length first (backend (ex_world s)) in
      let w := mkWorld b (calls (ex_world s) ++ [CallRead offset length first]) in
      match res with
      | inl err => Rejected (promisified err) (mkExec buffer offset (ex_disk s) w)
      | inr _ =>
          if recordReads (ex_disk s) then
            let chunk :=
              BufferDiskChunk (Buf.slice buffer offset (offset + length)) first in
            match _insertDiskChunk (ex_disk s) chunk true with
            | None => Rejected TypeError (mkExec buffer offset (ex_disk s) w)
            | Some d => Fulfilled (mkExec buffer (offset + length) d w)
            end
          else Fulfilled (mkExec buffer (offset + length) (ex_disk s) w)
      end
  end.

(** [Promise.each(plan, ...)]: the entries one after the other, each after
    the promise of the previous one is fulfilled; the first rejection ends
    the iteration. *)
Fixpoint execPlan (s : ExecState) (plan : list PlanEntry) : Step :=
  match plan with
  | [] => Fulfilled s
  | entry :: rest =>
      match execEntry s entry with
      | Fulfilled s' => execPlan s' rest
      | Rejected err s' => Rejected err s'
      end
  end.

(** The arguments of the callback of [read]: [(null, bytesRead, buffer)] or
    [(err)]. *)
Inductive ReadCallback : Type :=
| ReadOk (bytesRead : Z) (buffer : Buffer)
| ReadErr (err : JsError E).

(** [_readAccordingToPlan(buffer, plan, callback)]: the arguments of the
    callback and the state everything is left in. *)
Definition _readAccordingToPlan (d : Disk) (buffer : Buffer)
  (plan : list PlanEntry) (w : World) : ReadCallback * ExecState :=
  match execPlan (mkExec buffer 0 d w) plan with
  | Fulfilled s => (ReadOk (ex_offset s) (ex_buffer s), s)
  | Rejected err s => (ReadErr err, s)
  end.

(** [read(buffer, bufferOffset, length, fileOffset, callback)] *)
Definition read (d : Disk) (buffer : Buffer) (bufferOffset length fileOffset : Z)
  (w : World) : ReadCallback * ExecState :=
  let plan := _createReadPlan d fileOffset length in
  _readAccordingToPlan d buffer plan w.

End DiskOperations.

Arguments World B : clear implicits.
Arguments ExecState B : clear implicits.
Arguments Step B E : clear implicits.
Arguments ReadCallback E : clear implicits.

(** *** The invariant of the chunk store *)

(** Ascending by [start]. *)
Definition sorted_by_start (l : list DiskChunk) : Prop :=
  StronglySorted (fun a b => start a <= start b) l.

(** No two chunks of the list overlap. *)
Definition non_overlapping (l : list DiskChunk) : Prop :=
  ForallOrdPairs (fun a b => intersects a b = false) l.

(** The store invariant of the specification, over well-formed chunks. *)
Definition store_ok (l : list DiskChunk) : Prop :=
  Forall wf_chunk l /\ sorted_by_start l /\ non_overlapping l.

(** Every chunk ends before any later chunk starts. *)
Definition before (a b : DiskChunk) : Prop := end_ a < start b.

Definition chain (l : list DiskChunk) : Prop :=
  Forall wf_chunk l /\ StronglySorted before l.

(** *** An in-memory backend for the examples *)

(** A backend that holds the byte [image p] at every position [p] and whose
    reads fail with the error [tt] when they reach beyond position [bad].
    Its capacity query fails as long as [size] is not known, and then
    answers 64.  Its error [tt] stands for a plain [Error], as the errors
    of a file are. *)
Record MemBackend : Type := mkMem {
  image : Z -> byte;
  bad : Z;
  size : option Z
}.

Definition mem_bytes (m : MemBackend) (first length : Z) : list byte :=
  map (fun k => image m (first + Z.of_nat k)) (seq 0 (Z.to_nat length)).

#[export] Instance MemHooks : Hooks MemBackend unit := {|
  _getCapacity m :=
    match size m with
    | Some n => (inr n, m)
    | None => (inl tt, mkMem (image m) (bad m) (Some 64))
    end;
  _read buffer bufferOffset length fileOffset m :=
    if bad m <? fileOffset + length then (inl tt, buffer, m)
    else
      match Buf.copy (mem_bytes m fileOffset length) buffer bufferOffset 0 length with
      | Some buffer' => (inr length, buffer', m)
      | None => (inl tt, buffer, m)
      end;
  _write buffer bufferOffset length fileOffset m := (inr length, m);
  errorKind _ := PlainError
|}.

(** Total number of bytes of the intervals of a list of chunks. *)
Definition chunks_length (l : list DiskChunk) : Z :=
  fold_right (fun c n => chunk_length c + n) 0 l.

(** The chunks of a plan, in order. *)
Definition plan_chunks (plan : list PlanEntry) : list DiskChunk :=
  flat_map (fun e => match e with
                     | ChunkEntry c => [c]
                     | RawInterval _ _ => []
                     end) plan.

(** A chunk has a position in [first .. last]. *)
Definition meets (first last : Z) (c : DiskChunk) : bool :=
  Z.max first (start c) <=? Z.min last (end_ c).

(** The slice of a chunk over its part inside [first .. last]. *)
Definition clip (first last : Z) (c : DiskChunk) : DiskChunk :=
  slice c (Z.max first (start c)) (Z.min last (end_ c)).

(** *** The contents of the overlay *)

(** The position [p] lies in the interval of [c]. *)
Definition coversb (c : DiskChunk) (p : Z) : bool :=
  (start c <=? p) && (p <=? end_ c).

(** What a list of chunks records for the position [p]: for the first chunk
    whose interval contains [p], whether it is a discard, and its byte. *)
Definition cell (known : list DiskChunk) (p : Z) : option (bool * byte) :=
  match find (fun c => coversb c p) known with
  | Some c => option_map (pair (isDiscard c)) (byte_at c p)
  | None => None
  end.

(** The chunks [_createReadPlan] plans with: all of them, or all but the
    discards when discards do not read as zero. *)
Definition readableChunks (d : Disk) : list DiskChunk :=
  if negb (discardIsZero d)
  then filter (fun chunk => negb (isDiscard chunk)) (knownChunks d)
  else knownChunks d.

(** The byte of position [p] as seen through the disk, over a backend that
    holds [image]: the recorded byte when a readable chunk has one, the
    byte of the backend otherwise. *)
Definition overlay (d : Disk) (image : Z -> byte) (p : Z) : byte :=
  match cell (readableChunks d) p with
  | Some (_, b) => b
  | None => image p
  end.

(** The bytes of [image] at the positions [first .. first+length-1]. *)
Definition image_bytes (image : Z -> byte) (first length : Z) : list byte :=
  map (fun k => image (first + Z.of_nat k)) (seq 0 (Z.to_nat length)).

(** The position [p] lies in a raw interval of the plan. *)
Definition in_raw (plan : list PlanEntry) (p : Z) : bool :=
  existsb (fun e => match e with
                    | RawInterval first last => (first <=? p) && (p <=? last)
                    | ChunkEntry _ => false
                    end) plan.

(** The calls of the read hook a plan for a request at [offset] asks for:
    one per raw interval, in the order of the plan, each into the buffer at
    the distance of the interval from [offset]. *)
Definition plan_calls (offset : Z) (plan : list PlanEntry) : list HookCall :=
  flat_map (fun e => match e with
                     | RawInterval first last =>
                         [CallRead (first - offset) (last - first + 1) first]
                     | ChunkEntry _ => []
                     end) plan.

(** An entry gives the bytes [want]: a chunk entry holds them, and on a
    raw interval they are the bytes of the backend [image]. *)
Definition entry_gives (want image : Z -> byte) (e : PlanEntry) : Prop :=
  match e with
  | ChunkEntry c =>
      wf_chunk c /\ forall p, covers c p -> byte_at c p = Some (want p)
  | RawInterval first last =>
      forall p, first <= p <= last -> want p = image p
  end.

Section BackendContract.

Context {B E : Type} {hooks : Hooks B E}.

(** The read hook serves the bytes of [image] for the positions
    [lo .. hi]: in every backend state that satisfies [inv], a read of at
    least one byte inside [lo .. hi] into a buffer with room for it
    succeeds, writes the bytes of [image] at [bufferOffset] and nothing
    else, and leaves a state that satisfies [inv]. *)
Definition serves (inv : B -> Prop) (image : Z -> byte) (lo hi : Z) : Prop :=
  forall (buffer : Buffer) (bufferOffset length fileOffset : Z) (b : B),
    inv b ->
    0 <= bufferOffset -> 1 <= length ->
    bufferOffset + length <= Buf.length buffer ->
    lo <= fileOffset -> fileOffset + length - 1 <= hi ->
    exists n b',
      _read buffer bufferOffset length fileOffset b
      = (inr n,
         firstn (Z.to_nat bufferOffset) buffer
         ++ image_bytes image fileOffset length
         ++ skipn (Z.to_nat (bufferOffset + length)) buffer,
         b') /\
      inv b'.

End BackendContract.

(** *** Streams *)

Definition MIN_HIGH_WATER_MARK : Z := 16.
Definition DEFAULT_HIGH_WATER_MARK : Z := 16384.

Module DiskStream.

(** The fields of a [DiskStream]; [highWaterMark] is the one of its
    [_readableState].  The disk it reads from is shared with its creator
    and is passed along with the stream. *)
Record t : Type := mk {
  capacity : Z;
  highWaterMark : Z;
  position : Z
}.

(** [new DiskStream(disk, capacity, highWaterMark, start)] *)
Definition new (capacity highWaterMark start : Z) : t :=
  mk capacity (Z.max highWaterMark MIN_HIGH_WATER_MARK) start.

Section Reading.

Context {B E : Type} {hooks : Hooks B E}.

(** What one call of [_read] hands to the stream machinery. *)
Inductive Pushed : Type :=
| Push (buf : Buffer)
| PushNull
| EmitError (err : JsError E).

(** [Buffer.allocUnsafe(length)] gives a buffer of unspecified contents:
    [allocUnsafe] chooses them. *)
Variable allocUnsafe : Z -> Buffer.

(** [_read()]: what is pushed or emitted, the stream, the disk and the
    world afterwards. *)
Definition _read (self : t) (d : Disk) (w : World B)
  : Pushed * t * Disk * World B :=
  let length := Z.min (highWaterMark self) (capacity self - position self) in
  if length <=? 0 then (PushNull, self, d, w)
  else
    let buffer := allocUnsafe length in
    match read d buffer 0 length (position self) w with
    | (ReadErr err, s) => (EmitError err, self, ex_disk s, ex_world s)
    | (ReadOk bytesRead buf, s) =>
        (Push buf,
         mk (capacity self) (highWaterMark self) (position self + length),
         ex_disk s, ex_world s)
    end.

(** How a stream ends for its consumer. *)
Inductive Ending : Type :=
| Ended
| Errored (err : JsError E)
| Pending.

(** A consumer that makes the stream call [_read] up to [fuel] times, one
    call after the previous one has pushed, until the end of the stream or
    an error: the buffers pushed in order, how it ended, and the stream,
    the disk and the world afterwards. *)
Fixpoint pump (fuel : nat) (self : t) (d : Disk) (w : World B)
  : list Buffer * Ending * t * Disk * World B :=
  match fuel with
  | O => ([], Pending, self, d, w)
  | S fuel' =>
      match _read self d w with
      | (PushNull, self, d, w) => ([], Ended, self, d, w)
      | (EmitError err, self, d, w) => ([], Errored err, self, d, w)
      | (Push buf, self, d, w) =>
          let '(bufs, ending, self, d, w) := pump fuel' self d w in
          (buf :: bufs, ending, self, d, w)
      end
  end.

End Reading.

End DiskStream.

Section Streams.

Context {B E : Type} {hooks : Hooks B E}.

(** [getStream([position, [length, [highWaterMark]]], callback)]: an
    argument is [Some n] when it is the integer [n] and [None] when it is
    left out or is not an integer.  The result is the error or the stream
    given to the callback, the disk and the world afterwards. *)
Definition getStream (d : Disk) (position length highWaterMark : option Z)
  (w : World B) : (JsError E + DiskStream.t) * Disk * World B :=
  let position := match position with Some p => p | None => 0 end in
  let highWaterMark :=
    match highWaterMark with
    | Some h => h
    | None => DEFAULT_HIGH_WATER_MARK
    end in
  let '(res, d, w) := getCapacity d w in
  match res with
  | inl err => (inl err, d, w)
  | inr end' =>
      let end' :=
        match length with
        | Some l => Z.min (position + l) end'
        | None => end'
        end in
      (inr (DiskStream.new end' highWaterMark position), d, w)
  end.

(** [DiskWrapper.getStream(highWaterMark, callback)], which calls
    [this.disk.getStream(highWaterMark, callback)]. *)
Definition DiskWrapper_getStream (d : Disk) (highWaterMark : option Z)
  (w : World B) : (JsError E + DiskStream.t) * Disk * World B :=
  getStream d highWaterMark None None w.

End Streams.

(** *** Sequences of updates *)

(** A call of [write] or of [discard]. *)
Inductive Update : Type :=
| DoWrite (buffer : Buffer) (bufferOffset length fileOffset : Z)
| DoDiscard (offset length : Z).

(** The update concerns at least one byte, and a write takes its bytes
    from inside its buffer. *)
Definition update_ok (u : Update) : Prop :=
  match u with
  | DoWrite buffer bufferOffset length _ =>
      1 <= length /\ 0 <= bufferOffset /\
      bufferOffset + length <= Buf.length buffer
  | DoDiscard _ length => 1 <= length
  end.

(** A hook call is a call of the read hook. *)
Definition is_read_call (c : HookCall) : Prop :=
  match c with
  | CallRead _ _ _ => True
  | _ => False
  end.

Section Updates.

Context {B E : Type} {hooks : Hooks B E}.

(** The updates made one after the other, whatever the callbacks of the
    writes are given. *)
Fixpoint apply_updates (us : list Update) (d : Disk) (w : World B)
  : option (Disk * World B) :=
  match us with
  | [] => Some (d, w)
  | DoWrite buffer bufferOffset length fileOffset :: us =>
      match write d buffer bufferOffset length fileOffset w with
      | Some (_, d, w) => apply_updates us d w
      | None => None
      end
  | DoDiscard offset length :: us =>
      match discard d offset length with
      | Some d => apply_updates us d w
      | None => None
      end
  end.

End Updates.

(** * Properties *)

(** ** Buffers *)

Lemma Buf_length_nonneg (b : Buffer) : 0 <= Buf.length b.
Proof. unfold Buf.length. lia. Qed.

Lemma Buf_slice_length (b : Buffer) (s e : Z) :
  0 <= s -> s <= e -> e <= Buf.length b ->
  Buf.length (Buf.slice b s e) = e - s.
Proof.
  intros Hs Hse He. unfold Buf.slice, Buf.clamp, Buf.length in *.
  destruct (Z.ltb_spec s 0); [lia|].
  destruct (Z.ltb_spec e 0); [lia|].
  rewrite length_firstn, length_skipn. lia.
Qed.

Lemma Buf_slice_nth (b : Buffer) (s e : Z) (k : nat) :
  0 <= s -> s <= e -> e <= Buf.length b -> Z.of_nat k < e - s ->
  nth_error (Buf.slice b s e) k = nth_error b (Z.to_nat s + k).
Proof.
  intros Hs Hse He Hk. unfold Buf.slice, Buf.clamp, Buf.length in *.
  destruct (Z.ltb_spec s 0); [lia|].
  destruct (Z.ltb_spec e 0); [lia|].
  rewrite !Z.min_l by lia.
  rewrite nth_error_firstn.
  destruct (Nat.ltb_spec k (Z.to_nat (e - s))); [|lia].
  now rewrite nth_error_skipn.
Qed.

Lemma Buf_slice_all (b : Buffer) : Buf.slice b 0 (Buf.length b) = b.
Proof.
  unfold Buf.slice, Buf.clamp, Buf.length. simpl.
  destruct (Z.ltb_spec (Z.of_nat (length b)) 0); [lia|].
  rewrite Z.min_id, Z.min_l by lia. simpl.
  rewrite Z.sub_0_r, Nat2Z.id. apply firstn_all.
Qed.

(** ** Intervals and chunks *)

Lemma iisect_Some (a b : Interval) (i : Interval) :
  iisect a b = Some i <->
  i = (Z.max (fst a) (fst b), Z.min (snd a) (snd b)) /\
  Z.max (fst a) (fst b) <= Z.min (snd a) (snd b).
Proof.
  unfold iisect.
  destruct (Z.leb_spec (Z.max (fst a) (fst b)) (Z.min (snd a) (snd b))); split.
  - intros [= <-]. auto.
  - intros [-> _]. reflexivity.
  - discriminate.
  - lia.
Qed.

Lemma iisect_None (a b : Interval) :
  iisect a b = None <-> Z.min (snd a) (snd b) < Z.max (fst a) (fst b).
Proof.
  unfold iisect.
  destruct (Z.leb_spec (Z.max (fst a) (fst b)) (Z.min (snd a) (snd b))); split;
    try discriminate; try lia; auto.
Qed.

Lemma intersects_true (a b : DiskChunk) :
  intersects a b = true <->
  Z.max (start a) (start b) <= Z.min (end_ a) (end_ b).
Proof.
  unfold intersects, intersection, iisect, interval. simpl.
  destruct (Z.leb_spec (Z.max (start a) (start b)) (Z.min (end_ a) (end_ b)));
    split; try discriminate; try lia; auto.
Qed.

Lemma intersects_false (a b : DiskChunk) :
  intersects a b = false <->
  Z.min (end_ a) (end_ b) < Z.max (start a) (start b).
Proof.
  unfold intersects, intersection, iisect, interval. simpl.
  destruct (Z.leb_spec (Z.max (start a) (start b)) (Z.min (end_ a) (end_ b)));
    split; try discriminate; try lia; auto.
Qed.

Lemma intersects_sym (a b : DiskChunk) : intersects a b = intersects b a.
Proof.
  destruct (intersects b a) eqn:H.
  - apply intersects_true. apply intersects_true in H. lia.
  - apply intersects_false. apply intersects_false in H. lia.
Qed.

Lemma intersects_covers (a b : DiskChunk) :
  intersects a b = true <-> exists p, covers a p /\ covers b p.
Proof.
  rewrite intersects_true. unfold covers. split.
  - intros H. exists (Z.max (start a) (start b)). lia.
  - intros [p H]. lia.
Qed.

Lemma includedIn_true (a b : DiskChunk) :
  includedIn a b = true <-> start b <= start a /\ end_ a <= end_ b.
Proof.
  unfold includedIn. rewrite andb_true_iff, Z.geb_le, Z.leb_le. tauto.
Qed.

Lemma start_slice (c : DiskChunk) (s e : Z) : start (slice c s e) = s.
Proof. destruct c; reflexivity. Qed.

Lemma isDiscard_slice (c : DiskChunk) (s e : Z) :
  isDiscard (slice c s e) = isDiscard c.
Proof. destruct c; reflexivity. Qed.

Lemma end_slice (c : DiskChunk) (s e : Z) :
  start c <= s -> s <= e + 1 -> e <= end_ c -> end_ (slice c s e) = e.
Proof.
  intros Hs Hse He. destruct c as [buf off | off len]; simpl in *; [|lia].
  rewrite Buf_slice_length; lia.
Qed.

Lemma byte_at_slice (c : DiskChunk) (s e p : Z) :
  start c <= s -> e <= end_ c -> s <= p <= e ->
  byte_at (slice c s e) p = byte_at c p.
Proof.
  intros Hs He Hp. unfold byte_at.
  rewrite start_slice, end_slice by lia.
  destruct (Z.leb_spec s p); [|lia]. destruct (Z.leb_spec p e); [|lia].
  destruct (Z.leb_spec (start c) p); [|lia].
  destruct (Z.leb_spec p (end_ c)); [|lia]. simpl.
  destruct c as [buf off | off len]; simpl in *; [|reflexivity].
  rewrite Buf_slice_nth by lia. f_equal. lia.
Qed.

Lemma slice_whole (c : DiskChunk) :
  wf_chunk c -> slice c (start c) (end_ c) = c.
Proof.
  unfold wf_chunk. destruct c as [buf off | off len]; simpl; intros H.
  - replace (off - off) with 0 by lia.
    replace (0 + (off + Buf.length buf - 1) - off + 1) with (Buf.length buf) by lia.
    now rewrite Buf_slice_all.
  - f_equal. lia.
Qed.

(** ** Cutting a chunk *)

Lemma cut_intersecting (a b : DiskChunk) :
  intersects a b = true ->
  cut a b =
    Some ((if start a <? start b then [slice a (start a) (start b - 1)] else [])
          ++ (if end_ b <? end_ a then [slice a (end_ b + 1) (end_ a)] else [])).
Proof.
  intros H. apply intersects_true in H.
  unfold cut, intersection.
  destruct (iisect (interval a) (interval b)) as [[i0 i1]|] eqn:Hi.
  - apply iisect_Some in Hi. destruct Hi as [[= -> ->] _]. simpl.
    f_equal.
    destruct (Z.gtb_spec (Z.max (start a) (start b)) (start a));
      destruct (Z.ltb_spec (start a) (start b)); try lia;
      destruct (Z.gtb_spec (end_ a) (Z.min (end_ a) (end_ b)));
      destruct (Z.ltb_spec (end_ b) (end_ a)); try lia; simpl;
      repeat f_equal; lia.
  - apply iisect_None in Hi. simpl in Hi. lia.
Qed.

(** C6.  For chunks [a] and [b] whose closed intervals intersect, [a.cut(b)]
    returns at most two chunks, none when [b] contains [a]; they are the
    slices of [a] before and after [b], so they cover exactly the positions
    of [a] outside [b], with the kind and the bytes of [a] there; and the
    length of [a] is the sum of the lengths of the parts and of the
    intersection. *)
Theorem cut_keeps_outside (a b : DiskChunk) :
  intersects a b = true ->
  exists parts i,
    cut a b = Some parts /\ intersection a b = Some i /\
    (List.length parts <= 2)%nat /\
    (includedIn a b = true -> parts = []) /\
    parts =
      (if start a <? start b then [slice a (start a) (start b - 1)] else [])
      ++ (if end_ b <? end_ a then [slice a (end_ b + 1) (end_ a)] else []) /\
    Forall wf_chunk parts /\
    StronglySorted before parts /\
    (forall p, (exists c, In c parts /\ covers c p) <->
               covers a p /\ ~ covers b p) /\
    (forall c p, In c parts -> covers c p ->
                 isDiscard c = isDiscard a /\ byte_at c p = byte_at a p) /\
    chunk_length a = chunks_length parts + interval_length i.
Proof.
  intros H. pose proof (cut_intersecting a b H) as Hcut.
  apply intersects_true in H.
  eexists. exists (Z.max (start a) (start b), Z.min (end_ a) (end_ b)).
  split; [exact Hcut|].
  split; [apply iisect_Some; simpl; auto|].
  assert (Hl : start a < start b ->
               start (slice a (start a) (start b - 1)) = start a /\
               end_ (slice a (start a) (start b - 1)) = start b - 1).
  { intros. rewrite start_slice, end_slice by lia. auto. }
  assert (Hr : end_ b < end_ a ->
               start (slice a (end_ b + 1) (end_ a)) = end_ b + 1 /\
               end_ (slice a (end_ b + 1) (end_ a)) = end_ a).
  { intros. rewrite start_slice, end_slice by lia. auto. }
  destruct (Z.ltb_spec (start a) (start b)) as [Ha|Ha];
    destruct (Z.ltb_spec (end_ b) (end_ a)) as [Hb|Hb]; simpl;
    try (destruct (Hl Ha) as [Hl1 Hl2]); try (destruct (Hr Hb) as [Hr1 Hr2]);
    (split; [lia|]);
    (split; [rewrite includedIn_true; intros; try reflexivity; lia|]);
    (split; [reflexivity|]);
    (split; [repeat constructor; unfold wf_chunk; lia|]);
    (split; [repeat constructor; unfold before; lia|]);
    (split; [|split]).
  all: unfold covers, chunk_length, interval_length; simpl.
  all: try (intros p; split;
            [intros [c [Hc Hp]]; simpl in Hc; intuition (subst; lia)|]).
  all: try (intros c p Hc Hp; simpl in Hc;
            repeat (destruct Hc as [<-|Hc]); try contradiction;
            (rewrite isDiscard_slice; split;
             [reflexivity | apply byte_at_slice; lia])).
  all: try lia.
  - intros [Hp Hn].
    destruct (Z.lt_ge_cases p (start b)).
    + exists (slice a (start a) (start b - 1)). split; [auto|lia].
    + exists (slice a (end_ b + 1) (end_ a)). split; [auto|lia].
  - intros [Hp Hn]. exists (slice a (start a) (start b - 1)). split; [auto|lia].
  - intros [Hp Hn]. exists (slice a (end_ b + 1) (end_ a)). split; [auto|lia].
Qed.

Lemma cut_keeps_outside_witness :
  let a := BufferDiskChunk [x01; x02; x03; x04; x05; x06] 10 in
  let b := DiscardDiskChunk 12 2 in
  intersects a b = true /\
  exists parts i,
    cut a b = Some parts /\ intersection a b = Some i /\
    chunk_length a = chunks_length parts + interval_length i.
Proof.
  split; [reflexivity|].
  destruct (cut_keeps_outside
              (BufferDiskChunk [x01; x02; x03; x04; x05; x06] 10)
              (DiscardDiskChunk 12 2) eq_refl)
    as [parts [i [Hcut [Hi [_ [_ [_ [_ [_ [_ [_ Hlen]]]]]]]]]]].
  exists parts, i. auto.
Defined.

(** ** The store invariant *)

Lemma before_iff (a b : DiskChunk) :
  wf_chunk a -> wf_chunk b ->
  (start a <= start b /\ intersects a b = false) <-> before a b.
Proof.
  unfold wf_chunk, before. rewrite intersects_false. lia.
Qed.

Lemma store_ok_chain (l : list DiskChunk) : store_ok l <-> chain l.
Proof.
  unfold store_ok, chain, sorted_by_start, non_overlapping.
  induction l as [|a l IH].
  - split; intros; repeat split; constructor.
  - split.
    + intros (Hwf & Hs & Hn).
      inversion Hwf as [|? ? Ha Hl]; subst.
      inversion Hs as [|? ? Hs' Hsa]; subst.
      inversion Hn as [|? ? Hna Hn']; subst.
      destruct (proj1 IH (conj Hl (conj Hs' Hn'))) as [_ Hc].
      split; [assumption|]. constructor; [assumption|].
      rewrite Forall_forall in *. intros b Hb.
      apply before_iff; auto.
    + intros (Hwf & Hc).
      inversion Hwf as [|? ? Ha Hl]; subst.
      inversion Hc as [|? ? Hc' Hca]; subst.
      destruct (proj2 IH (conj Hl Hc')) as (_ & Hs & Hn).
      split; [assumption|].
      split; constructor; try assumption;
        rewrite Forall_forall in *; intros b Hb;
        apply (before_iff a b); auto.
Qed.

Lemma chain_app (l1 l2 : list DiskChunk) :
  chain (l1 ++ l2) <->
  chain l1 /\ chain l2 /\ (forall a b, In a l1 -> In b l2 -> before a b).
Proof.
  unfold chain. induction l1 as [|x l1 IH]; simpl.
  - split.
    + intros [? ?]. repeat split; auto; try constructor. intros ? ? [].
    + intros (_ & ? & _). assumption.
  - split.
    + intros [Hwf Hs].
      inversion Hwf as [|? ? Hx Hl]; subst.
      inversion Hs as [|? ? Hs' Hsx]; subst.
      destruct (proj1 IH (conj Hl Hs')) as ((? & ?) & (? & ?) & Hb).
      rewrite Forall_app in Hsx. destruct Hsx as [Hx1 Hx2].
      repeat split; auto; try (constructor; auto).
      intros a b [<-|Ha] Hb'; [|auto].
      rewrite Forall_forall in Hx2. auto.
    + intros ((Hwf1 & Hs1) & (Hwf2 & Hs2) & Hb).
      inversion Hwf1 as [|? ? Hx Hl]; subst.
      inversion Hs1 as [|? ? Hs' Hsx]; subst.
      destruct (proj2 IH) as [? ?].
      { repeat split; auto. }
      split; constructor; auto.
      rewrite Forall_app. split; [assumption|].
      rewrite Forall_forall. intros b Hb'. apply Hb; auto.
Qed.

Lemma chain_cons (x : DiskChunk) (l : list DiskChunk) :
  chain (x :: l) <->
  wf_chunk x /\ chain l /\ (forall b, In b l -> before x b).
Proof.
  change (x :: l) with ([x] ++ l). rewrite chain_app. split.
  - intros ((Hx & _) & ? & Hb). inversion Hx; subst.
    split; [assumption|]. split; [assumption|].
    intros b ?. apply Hb; simpl; auto.
  - intros (Hx & ? & Hb). split; [|split; auto].
    + split; repeat constructor. assumption.
    + intros a b [<-|[]] ?. auto.
Qed.

Lemma chain_nil : chain [].
Proof. split; constructor. Qed.

Lemma chain_wf (l : list DiskChunk) (x : DiskChunk) :
  chain l -> In x l -> wf_chunk x.
Proof. intros [H _] Hx. rewrite Forall_forall in H. auto. Qed.

(** Replacing a chunk of the chain by a chain of chunks inside its interval. *)
Lemma chain_replace (A S X : list DiskChunk) (o : DiskChunk) :
  chain (A ++ o :: S) -> chain X ->
  (forall x, In x X -> start o <= start x /\ end_ x <= end_ o) ->
  chain (A ++ X ++ S).
Proof.
  intros H HX Hin.
  apply chain_app in H. destruct H as (HA & HoS & HAo).
  apply chain_cons in HoS. destruct HoS as (Ho & HS & HoS).
  apply chain_app. split; [assumption|]. split.
  - apply chain_app. split; [assumption|]. split; [assumption|].
    intros a b Ha Hb. specialize (Hin a Ha). specialize (HoS b Hb).
    unfold before in *. lia.
  - intros a b Ha Hb. apply in_app_or in Hb. destruct Hb as [Hb|Hb].
    + specialize (Hin b Hb). specialize (HAo a o Ha (or_introl eq_refl)).
      unfold before, wf_chunk in *. lia.
    + apply HAo; simpl; auto.
Qed.

(** ** Array splicing *)

Lemma splice_replace {A : Type} (pre suf items : list A) (x : A) :
  splice (pre ++ x :: suf) (Z.of_nat (length pre)) 1 items = pre ++ items ++ suf.
Proof.
  unfold splice. rewrite length_app. simpl.
  destruct (Z.ltb_spec (Z.of_nat (length pre)) 0); [lia|].
  rewrite Z.min_l by lia. rewrite (Z.max_l 1 0) by lia.
  rewrite (Z.min_l 1) by lia.
  rewrite Nat2Z.id.
  replace (Z.to_nat (Z.of_nat (length pre) + 1)) with (length pre + 1)%nat by lia.
  rewrite firstn_app, Nat.sub_diag, firstn_all. simpl. rewrite app_nil_r.
  rewrite skipn_app, skipn_all2 by lia. simpl.
  replace (length pre + 1 - length pre)%nat with 1%nat by lia. reflexivity.
Qed.

Lemma splice_insert {A : Type} (pre suf items : list A) :
  splice (pre ++ suf) (Z.of_nat (length pre)) 0 items = pre ++ items ++ suf.
Proof.
  unfold splice. rewrite length_app.
  destruct (Z.ltb_spec (Z.of_nat (length pre)) 0); [lia|].
  rewrite Z.min_l by lia. rewrite Z.max_id. rewrite (Z.min_l 0) by lia.
  rewrite Z.add_0_r, Nat2Z.id.
  rewrite firstn_app, Nat.sub_diag, firstn_all. simpl. rewrite app_nil_r.
  rewrite skipn_app, skipn_all, Nat.sub_diag. reflexivity.
Qed.

(** ** Insertion into the store *)

Lemma nth_error_middle {A : Type} (pre suf : list A) (x : A) :
  nth_error (pre ++ x :: suf) (Z.to_nat (Z.of_nat (length pre))) = Some x.
Proof.
  rewrite Nat2Z.id, nth_error_app2, Nat.sub_diag by lia. reflexivity.
Qed.

(** The loop invariant: the array is [L ++ R ++ suf], where [suf] is what
    is left to scan, [L] holds the chunks that end before [chunk], [R] the
    remainder of a cut chunk that starts after it, [i] is the length of
    [L ++ R] and [insertAt] the length of [L]. *)
Lemma insertLoop_spec (chunk : DiskChunk) :
  wf_chunk chunk ->
  forall (suf L R : list DiskChunk) (fuel : nat),
    chain ((L ++ R) ++ suf) ->
    Forall (fun x => end_ x < start chunk) L ->
    Forall (fun x => end_ chunk < start x) R ->
    (length suf < fuel)%nat ->
    exists L' R',
      insertLoop fuel chunk ((L ++ R) ++ suf)
                 (Z.of_nat (length (L ++ R))) (Z.of_nat (length L))
      = Some (L' ++ R', Z.of_nat (length L')) /\
      chain (L' ++ R') /\
      Forall (fun x => end_ x < start chunk) L' /\
      Forall (fun x => end_ chunk < start x) R'.
Proof.
  intros Hwf. induction suf as [|other suf IH]; intros L R fuel Hc HL HR Hf.
  - destruct fuel as [|fuel]; [simpl in Hf; lia|]. simpl.
    rewrite app_nil_r in *.
    rewrite Z.ltb_irrefl. exists L, R. auto.
  - destruct fuel as [|fuel]; [simpl in Hf; lia|]. simpl in Hf.
    cbn [insertLoop].
    replace (Z.of_nat (length (L ++ R)) <?
             Z.of_nat (length ((L ++ R) ++ other :: suf))) with true
      by (symmetry; apply Z.ltb_lt; rewrite (length_app (L ++ R)); simpl; lia).
    rewrite nth_error_middle.
    pose proof Hc as Hc0.
    apply chain_app in Hc. destruct Hc as (HLR & Hos & HLRo).
    apply chain_cons in Hos. destruct Hos as (Ho & Hs & Hob).
    destruct (Z.gtb_spec (start other) (end_ chunk)) as [Hgt|Hle].
    { (* break *)
      exists L, (R ++ other :: suf). rewrite app_assoc. split; [reflexivity|].
      split; [assumption|]. split; [assumption|].
      rewrite Forall_app. split; [assumption|].
      constructor; [assumption|]. rewrite Forall_forall. intros x Hx.
      specialize (Hob x Hx). unfold before, wf_chunk in *. lia. }
    assert (R = []) as ->.
    { destruct R as [|r R]; [reflexivity|]. exfalso.
      inversion HR as [|? ? Hr _]; subst.
      assert (Hin : In r (L ++ r :: R)) by (apply in_or_app; simpl; auto).
      pose proof (HLRo r other Hin (or_introl eq_refl)) as Hb.
      pose proof (chain_wf _ _ HLR Hin) as Hwr.
      unfold before, wf_chunk in *. lia. }
    rewrite app_nil_r in *.
    destruct (intersects chunk other) eqn:Hi; cbn [negb].
    2: { (* no overlap: other ends before chunk *)
      apply intersects_false in Hi.
      assert (Hend : end_ other < start chunk)
        by (unfold wf_chunk in *; lia).
      destruct (Z.ltb_spec (start other) (start chunk));
        [|unfold wf_chunk in *; lia].
      destruct (IH (L ++ [other]) [] fuel) as (L' & R' & Hrun & Hrest).
      - rewrite app_nil_r, <- app_assoc. exact Hc0.
      - rewrite Forall_app. split; [assumption|]. repeat constructor. assumption.
      - constructor.
      - lia.
      - exists L', R'. split; [|exact Hrest].
        rewrite app_nil_r, <- app_assoc in Hrun. simpl in Hrun.
        rewrite length_app in Hrun. simpl in Hrun.
        rewrite Nat2Z.inj_add in Hrun. exact Hrun. }
    apply intersects_true in Hi.
    destruct (includedIn other chunk) eqn:Hinc.
    { (* delete other *)
      apply includedIn_true in Hinc.
      destruct (Z.ltb_spec (start other) (start chunk)); [lia|].
      rewrite splice_replace. simpl.
      replace (Z.of_nat (length L) - 1 + 1) with (Z.of_nat (length L)) by lia.
      destruct (IH L [] fuel) as (L' & R' & Hrun & Hrest).
      - rewrite app_nil_r.
        apply (chain_replace L suf [] other Hc0 chain_nil). intros x [].
      - assumption.
      - constructor.
      - lia.
      - exists L', R'. split; [|exact Hrest].
        rewrite app_nil_r in Hrun. exact Hrun. }
    (* cut other *)
    assert (Hnot : start other < start chunk \/ end_ chunk < end_ other).
    { destruct (Z.lt_ge_cases (start other) (start chunk)); [auto|].
      destruct (Z.lt_ge_cases (end_ chunk) (end_ other)); [auto|].
      assert (includedIn other chunk = true) by (apply includedIn_true; lia).
      congruence. }
    rewrite cut_intersecting by (apply intersects_true; lia).
    set (Lp := if start other <? start chunk
               then [slice other (start other) (start chunk - 1)] else []).
    set (Rp := if end_ chunk <? end_ other
               then [slice other (end_ chunk + 1) (end_ other)] else []).
    rewrite splice_replace.
    assert (HLp : Forall (fun x => end_ x < start chunk) Lp /\
                  (forall x, In x Lp ->
                     wf_chunk x /\ start other <= start x /\ end_ x <= end_ other
                     /\ end_ x < start chunk) /\
                  Z.of_nat (length Lp) =
                    if start other <? start chunk then 1 else 0).
    { subst Lp. destruct (Z.ltb_spec (start other) (start chunk)).
      - assert (start (slice other (start other) (start chunk - 1)) = start other
                /\ end_ (slice other (start other) (start chunk - 1))
                   = start chunk - 1)
          as [E1 E2] by (rewrite start_slice, end_slice by lia; auto).
        split; [repeat constructor; lia|]. split; [|reflexivity].
        intros x [<-|[]]. unfold wf_chunk. lia.
      - split; [constructor|]. split; [intros x []|reflexivity]. }
    assert (HRp : Forall (fun x => end_ chunk < start x) Rp /\
                  (forall x, In x Rp ->
                     wf_chunk x /\ start other <= start x /\ end_ x <= end_ other
                     /\ end_ chunk < start x)).
    { subst Rp. destruct (Z.ltb_spec (end_ chunk) (end_ other)).
      - assert (start (slice other (end_ chunk + 1) (end_ other)) = end_ chunk + 1
                /\ end_ (slice other (end_ chunk + 1) (end_ other)) = end_ other)
          as [E1 E2] by (rewrite start_slice, end_slice by lia; auto).
        split; [repeat constructor; lia|].
        intros x [<-|[]]. unfold wf_chunk. lia.
      - split; [constructor|]. intros x []. }
    destruct HLp as (HLp1 & HLp2 & HLp3). destruct HRp as (HRp1 & HRp2).
    destruct (IH (L ++ Lp) Rp fuel) as (L' & R' & Hrun & Hrest).
    + rewrite <- !app_assoc. rewrite (app_assoc Lp).
      apply (chain_replace L suf (Lp ++ Rp) other Hc0).
      * apply chain_app. split; [|split].
        -- split; [rewrite Forall_forall; intros x Hx; apply HLp2; auto|].
           subst Lp. destruct (start other <? start chunk);
             repeat constructor.
        -- split; [rewrite Forall_forall; intros x Hx; apply HRp2; auto|].
           subst Rp. destruct (end_ chunk <? end_ other);
             repeat constructor.
        -- intros a b Ha Hb. specialize (HLp2 a Ha). specialize (HRp2 b Hb).
           unfold before, wf_chunk in *. lia.
      * intros x Hx. apply in_app_or in Hx. destruct Hx as [Hx|Hx].
        -- specialize (HLp2 x Hx). tauto.
        -- specialize (HRp2 x Hx). tauto.
    + rewrite Forall_app. auto.
    + assumption.
    + lia.
    + exists L', R'. split; [|exact Hrest].
      rewrite <- Hrun. rewrite <- !app_assoc. f_equal.
      * rewrite !length_app. lia.
      * rewrite length_app. rewrite Nat2Z.inj_add, HLp3.
        destruct (start other <? start chunk); lia.
Qed.

Lemma insertChunk_spec (chunk : DiskChunk) (insert : bool)
  (known : list DiskChunk) :
  wf_chunk chunk -> chain known ->
  exists L R,
    insertChunk chunk insert known
    = Some (L ++ (if insert then [chunk] else []) ++ R) /\
    chain (L ++ R) /\
    Forall (fun x => end_ x < start chunk) L /\
    Forall (fun x => end_ chunk < start x) R.
Proof.
  intros Hwf Hc.
  destruct (insertLoop_spec chunk Hwf known [] [] (S (length known)))
    as (L & R & Hrun & Hchain & HL & HR); simpl; auto.
  cbn [app List.length Z.of_nat] in Hrun. unfold insertChunk. rewrite Hrun.
  exists L, R. split; [|auto].
  destruct insert; [|reflexivity]. now rewrite splice_insert.
Qed.

Lemma chain_insert (chunk : DiskChunk) (L R : list DiskChunk) :
  wf_chunk chunk -> chain (L ++ R) ->
  Forall (fun x => end_ x < start chunk) L ->
  Forall (fun x => end_ chunk < start x) R ->
  chain (L ++ [chunk] ++ R).
Proof.
  intros Hwf Hc HL HR. rewrite Forall_forall in HL, HR.
  apply chain_app in Hc. destruct Hc as (HcL & HcR & HLR).
  apply chain_app. split; [assumption|]. split.
  - apply chain_cons. split; [assumption|]. split; [assumption|].
    intros b Hb. apply HR. assumption.
  - intros a b Ha [<-|Hb]; [apply HL; assumption | auto].
Qed.

Lemma insertChunk_chain (chunk : DiskChunk) (insert : bool)
  (known : list DiskChunk) :
  wf_chunk chunk -> chain known ->
  exists known', insertChunk chunk insert known = Some known' /\ chain known'.
Proof.
  intros Hwf Hc.
  destruct (insertChunk_spec chunk insert known Hwf Hc)
    as (L & R & Hrun & Hchain & HL & HR).
  eexists. split; [exact Hrun|].
  destruct insert; [apply chain_insert; assumption | exact Hchain].
Qed.

(** C2.  On a store of well-formed chunks that is sorted by [start] and
    has no two overlapping chunks, [_insertDiskChunk(c, insert)] with
    [c.start <= c.end] returns, for either value of [insert], and the store
    is again sorted by [start] without overlapping chunks. *)
Theorem insertDiskChunk_restores_invariant (d : Disk) (c : DiskChunk)
  (insert : bool) :
  Forall wf_chunk (knownChunks d) ->
  sorted_by_start (knownChunks d) ->
  non_overlapping (knownChunks d) ->
  start c <= end_ c ->
  exists d',
    _insertDiskChunk d c insert = Some d' /\
    sorted_by_start (knownChunks d') /\
    non_overlapping (knownChunks d') /\
    Forall wf_chunk (knownChunks d').
Proof.
  intros Hwf Hs Hn Hc.
  assert (Hok : chain (knownChunks d)) by (apply store_ok_chain; repeat split; auto).
  destruct (insertChunk_chain c insert (knownChunks d) Hc Hok)
    as (known' & Hrun & Hchain).
  unfold _insertDiskChunk. rewrite Hrun. simpl.
  eexists. split; [reflexivity|]. simpl.
  apply store_ok_chain in Hchain. destruct Hchain as (? & ? & ?). auto.
Qed.

Lemma insertDiskChunk_restores_invariant_witness :
  let d := mkDisk true true false true
             [DiscardDiskChunk 0 4; BufferDiskChunk [x01; x02; x03] 6] None in
  exists d',
    _insertDiskChunk d (DiscardDiskChunk 2 5) false = Some d' /\
    sorted_by_start (knownChunks d') /\ non_overlapping (knownChunks d').
Proof.
  intro d.
  destruct (insertDiskChunk_restores_invariant d (DiscardDiskChunk 2 5) false)
    as (d' & Hrun & Hs & Hn & _).
  - repeat constructor; unfold wf_chunk; simpl; lia.
  - repeat constructor; simpl; lia.
  - repeat constructor.
  - simpl; lia.
  - exists d'. auto.
Defined.

(** ** Writes and discards *)

Section WriteProperties.

Context {B E : Type} {hooks : Hooks B E}.

(** What [write] leaves in the store: the result of the insertion. *)
Lemma write_store (d : Disk) (buffer : Buffer) (bufferOffset length fileOffset : Z)
  (w : World B) (known' : list DiskChunk) :
  insertChunk
    (if recordWrites d
     then BufferDiskChunk (Buf.slice buffer bufferOffset (bufferOffset + length))
                          fileOffset
     else DiscardDiskChunk fileOffset length)
    (recordWrites d) (knownChunks d) = Some known' ->
  exists cb w',
    write d buffer bufferOffset length fileOffset w
    = Some (cb, set_knownChunks d known', w') /\
    (readOnly d = true -> cb = inr length /\ w' = w).
Proof.
  intros Hins. unfold write, _insertDiskChunk.
  destruct (recordWrites d); rewrite Hins; simpl;
    (destruct (readOnly d);
     [ eexists; eexists; split; [reflexivity|auto]
     | destruct (_write buffer bufferOffset length fileOffset (backend w))
         as [[err|n] b];
       eexists; eexists; (split; [reflexivity|discriminate]) ]).
Qed.

(** C3.  On a fresh disk that records writes, [discard(5, 10)] followed by
    the write of the two bytes "YY" at position 6 leaves exactly the
    chunks Discard [5,5], Data [6,7] = "YY" and Discard [8,14] in the
    store.  And in general, on a store that satisfies its invariant, a
    write of [length >= 1] bytes (taken from inside the source buffer when
    writes are recorded) returns and leaves no discarded chunk over any of
    the written positions, whether writes are recorded or not; the store
    invariant holds afterwards. *)
Theorem write_removes_discards :
  (forall (readOnly' recordReads' discardIsZero' : bool) (w : World B),
      exists d1 cb d2 w',
        discard (newDisk readOnly' true recordReads' discardIsZero') 5 10
        = Some d1 /\
        write d1 [x59; x59] 0 2 6 w = Some (cb, d2, w') /\
        knownChunks d2 =
          [DiscardDiskChunk 5 1; BufferDiskChunk [x59; x59] 6;
           DiscardDiskChunk 8 7]) /\
  (forall (d : Disk) (buffer : Buffer) (bufferOffset length fileOffset : Z)
          (w : World B),
      store_ok (knownChunks d) ->
      1 <= length ->
      (recordWrites d = true ->
       0 <= bufferOffset /\ bufferOffset + length <= Buf.length buffer) ->
      exists cb d' w',
        write d buffer bufferOffset length fileOffset w = Some (cb, d', w') /\
        store_ok (knownChunks d') /\
        forall c p,
          In c (getDiscardedChunks d') ->
          fileOffset <= p < fileOffset + length -> ~ covers c p).
Proof.
  split.
  - intros ro rr dz w.
    destruct (write_store
                (mkDisk ro true rr dz [DiscardDiskChunk 5 10] None)
                [x59; x59] 0 2 6 w
                [DiscardDiskChunk 5 1; BufferDiskChunk [x59; x59] 6;
                 DiscardDiskChunk 8 7] eq_refl)
      as (cb & w' & Hw & _).
    eexists. exists cb. eexists. exists w'.
    split; [reflexivity|]. split; [exact Hw|reflexivity].
  - intros d buffer bufferOffset length fileOffset w Hok Hlen Hbuf.
    apply store_ok_chain in Hok.
    set (chunk := if recordWrites d
                  then BufferDiskChunk
                         (Buf.slice buffer bufferOffset (bufferOffset + length))
                         fileOffset
                  else DiscardDiskChunk fileOffset length).
    assert (Hse : start chunk = fileOffset /\
                  end_ chunk = fileOffset + length - 1 /\
                  (recordWrites d = true -> isDiscard chunk = false)).
    { subst chunk. destruct (recordWrites d); simpl.
      - destruct (Hbuf eq_refl). rewrite Buf_slice_length by lia.
        repeat split; lia.
      - repeat split; try lia; discriminate. }
    destruct Hse as (Hs & He & Hk).
    assert (Hwf : wf_chunk chunk) by (unfold wf_chunk; lia).
    destruct (insertChunk_spec chunk (recordWrites d) (knownChunks d) Hwf Hok)
      as (L & R & Hins & Hchain & HL & HR).
    destruct (write_store d buffer bufferOffset length fileOffset w _ Hins)
      as (cb & w' & Hw & _).
    exists cb. eexists. exists w'. split; [exact Hw|]. simpl. split.
    + apply store_ok_chain.
      destruct (recordWrites d); [apply chain_insert; assumption|exact Hchain].
    + intros c p Hc Hp. unfold getDiscardedChunks in Hc. simpl in Hc.
      apply filter_In in Hc. destruct Hc as [Hc Hd].
      rewrite Forall_forall in HL, HR. unfold covers.
      apply in_app_or in Hc. destruct Hc as [Hc|Hc].
      { specialize (HL c Hc). lia. }
      apply in_app_or in Hc. destruct Hc as [Hc|Hc].
      { destruct (recordWrites d); [|destruct Hc].
        destruct Hc as [<-|[]]. rewrite (Hk eq_refl) in Hd. discriminate. }
      specialize (HR c Hc). lia.
Qed.

End WriteProperties.

Lemma write_removes_discards_witness :
  let d := mkDisk true false false true [DiscardDiskChunk 5 10] None in
  let w := mkWorld (mkMem (fun _ => x00) 100 None) [] in
  exists cb d' w',
    write d [x59; x59] 0 2 6 w = Some (cb, d', w') /\
    forall c p,
      In c (getDiscardedChunks d') -> 6 <= p < 6 + 2 -> ~ covers c p.
Proof.
  intros d w.
  destruct (proj2 (@write_removes_discards MemBackend unit MemHooks)
              d [x59; x59] 0 2 6 w)
    as (cb & d' & w' & Hw & _ & Hd).
  - apply store_ok_chain. split; repeat constructor. unfold wf_chunk; simpl; lia.
  - lia.
  - discriminate.
  - exists cb, d', w'. auto.
Defined.

(** ** Read planning *)

Lemma intersectionsOf_clip (first last : Z) (chunks : list DiskChunk) :
  intersectionsOf (first, last) chunks
  = map (clip first last) (filter (meets first last) chunks).
Proof.
  induction chunks as [|c chunks IH]; [reflexivity|].
  simpl. unfold iisect, meets, interval. simpl.
  destruct (Z.max first (start c) <=? Z.min last (end_ c)); simpl;
    rewrite IH; reflexivity.
Qed.

Lemma clip_interval (first last : Z) (c : DiskChunk) :
  meets first last c = true ->
  start (clip first last c) = Z.max first (start c) /\
  end_ (clip first last c) = Z.min last (end_ c).
Proof.
  unfold meets, clip. rewrite Z.leb_le. intros H.
  rewrite start_slice, end_slice by lia. auto.
Qed.

Lemma chain_clip (first last : Z) (chunks : list DiskChunk) :
  chain chunks ->
  chain (map (clip first last) (filter (meets first last) chunks)).
Proof.
  induction chunks as [|c chunks IH]; intros H; [apply chain_nil|].
  apply chain_cons in H. destruct H as (Hc & Hrest & Hb).
  simpl. destruct (meets first last c) eqn:Hm; [|auto].
  simpl. apply chain_cons.
  destruct (clip_interval first last c Hm) as [Hs He].
  pose proof Hm as Hm'. unfold meets in Hm'. rewrite Z.leb_le in Hm'.
  split; [unfold wf_chunk; lia|]. split; [auto|].
  intros b Hb'. apply in_map_iff in Hb'. destruct Hb' as (x & <- & Hx).
  apply filter_In in Hx. destruct Hx as [Hx Hmx].
  destruct (clip_interval first last x Hmx) as [Hsx Hex].
  specialize (Hb x Hx). unfold before in *. lia.
Qed.

Lemma chain_filter (f : DiskChunk -> bool) (chunks : list DiskChunk) :
  chain chunks -> chain (filter f chunks).
Proof.
  induction chunks as [|c chunks IH]; intros H; [apply chain_nil|].
  apply chain_cons in H. destruct H as (Hc & Hrest & Hb).
  simpl. destruct (f c); [|auto].
  apply chain_cons. split; [assumption|]. split; [auto|].
  intros b Hb'. apply filter_In in Hb'. apply Hb. tauto.
Qed.

Lemma tiles_app (a b c : Z) (p q : list PlanEntry) :
  tiles a p (b - 1) -> tiles b q c -> tiles a (p ++ q) c.
Proof.
  revert a. induction p as [|e p IH]; simpl; intros a Hp Hq.
  - replace a with b by lia. assumption.
  - destruct Hp as (? & ? & ?). auto.
Qed.

Lemma tiles_length (a b : Z) (p : list PlanEntry) :
  tiles a p b -> plan_length p = b - a + 1.
Proof.
  revert a. induction p as [|e p IH]; simpl; intros a H.
  - lia.
  - destruct H as (Hs & Hle & Hrest). rewrite (IH _ Hrest).
    unfold entry_length. lia.
Qed.

Lemma plan_chunks_app (p q : list PlanEntry) :
  plan_chunks (p ++ q) = plan_chunks p ++ plan_chunks q.
Proof. apply flat_map_app. Qed.

Lemma last_cons {A : Type} (l : list A) (x y : A) :
  last (y :: l) x = last l y.
Proof.
  revert x y. induction l as [|a l IH]; intros x y; [reflexivity|].
  change (last (y :: a :: l) x) with (last (a :: l) x).
  rewrite (IH x a), (IH y a). reflexivity.
Qed.

(** The loop over a non-empty chain of chunks that start at or after the
    moving offset extends a tiling up to the end of the last chunk. *)
Lemma planLoop_tiles (rest : list DiskChunk) :
  forall (x : DiskChunk) (cursor from : Z) (plan : list PlanEntry)
         (last' : option DiskChunk),
    chain (x :: rest) -> cursor <= start x ->
    tiles from plan (cursor - 1) ->
    exists plan',
      planLoop (x :: rest) cursor plan last' = (plan', Some (last rest x)) /\
      tiles from plan' (end_ (last rest x)) /\
      plan_chunks plan' = plan_chunks plan ++ x :: rest.
Proof.
  induction rest as [|y rest IH]; intros x cursor from plan last' Hc Hx Ht;
    apply chain_cons in Hc; destruct Hc as (Hwx & Hrest & Hb);
    cbn [planLoop];
    set (plan1 := if cursor <? start x
                  then plan ++ [RawInterval cursor (start x - 1)] else plan);
    assert (Ht1 : tiles from plan1 (start x - 1) /\
                  plan_chunks plan1 = plan_chunks plan)
      by (subst plan1; destruct (Z.ltb_spec cursor (start x));
          [ split;
            [ apply (tiles_app from cursor); [assumption | simpl; lia]
            | rewrite plan_chunks_app; simpl; apply app_nil_r ]
          | split; [replace (start x) with cursor by lia; assumption
                   | reflexivity] ]);
    destruct Ht1 as [Ht1 Hp1];
    assert (Ht2 : tiles from (plan1 ++ [ChunkEntry x]) (end_ x + 1 - 1))
      by (apply (tiles_app from (start x)); [assumption|];
          unfold wf_chunk in Hwx; simpl; lia).
  - eexists. split; [reflexivity|]. split.
    + simpl. replace (end_ x) with (end_ x + 1 - 1) by lia. exact Ht2.
    + rewrite plan_chunks_app, Hp1. reflexivity.
  - destruct (IH y (end_ x + 1) from (plan1 ++ [ChunkEntry x]) (Some x))
      as (plan' & Hrun & Ht' & Hp'); auto.
    + specialize (Hb y (or_introl eq_refl)). unfold before in Hb. lia.
    + exists plan'. rewrite last_cons.
      split; [cbn [planLoop] in Hrun; exact Hrun|].
      split; [exact Ht'|].
      rewrite Hp', plan_chunks_app, Hp1, <- app_assoc. reflexivity.
Qed.

Lemma last_In {A : Type} (l : list A) (x : A) : In (last l x) (x :: l).
Proof.
  revert x. induction l as [|y l IH]; intros x; [simpl; auto|].
  rewrite last_cons. right. apply IH.
Qed.

Lemma in_plan_chunks (plan : list PlanEntry) (c : DiskChunk) :
  In (ChunkEntry c) plan <-> In c (plan_chunks plan).
Proof.
  unfold plan_chunks. rewrite in_flat_map. split.
  - intros H. exists (ChunkEntry c). simpl. auto.
  - intros ([a b|c'] & Hin & Hc); simpl in Hc; [contradiction|].
    destruct Hc as [<-|[]]. assumption.
Qed.

(** The plan in terms of the chunks read planning looks at. *)
Lemma createReadPlan_spec (d : Disk) (offset length : Z) :
  1 <= length -> chain (knownChunks d) ->
  let chunks := if negb (discardIsZero d)
                then filter (fun c => negb (isDiscard c)) (knownChunks d)
                else knownChunks d in
  let plan := _createReadPlan d offset length in
  tiles offset plan (offset + length - 1) /\
  plan_chunks plan
  = map (clip offset (offset + length - 1))
        (filter (meets offset (offset + length - 1)) chunks).
Proof.
  intros Hlen Hc chunks plan. subst plan. unfold _createReadPlan.
  fold chunks. rewrite intersectionsOf_clip.
  assert (Hch : chain chunks)
    by (subst chunks; destruct (negb (discardIsZero d));
        [apply chain_filter|]; assumption).
  pose proof (chain_clip offset (offset + length - 1) chunks Hch) as HX.
  assert (Hin : forall x,
             In x (map (clip offset (offset + length - 1))
                       (filter (meets offset (offset + length - 1)) chunks)) ->
             offset <= start x /\ end_ x <= offset + length - 1).
  { intros x Hx. apply in_map_iff in Hx. destruct Hx as (c & <- & Hx).
    apply filter_In in Hx. destruct Hx as [_ Hm].
    destruct (clip_interval _ _ _ Hm). lia. }
  destruct (map (clip offset (offset + length - 1))
                (filter (meets offset (offset + length - 1)) chunks))
    as [|x rest].
  - simpl. split; [lia|reflexivity].
  - destruct (planLoop_tiles rest x offset offset [] None HX)
      as (plan' & Hrun & Ht & Hp).
    + apply Hin. simpl. auto.
    + simpl. lia.
    + rewrite Hrun. simpl in Hp.
      destruct (Hin (last rest x) (last_In rest x)) as [_ Hle].
      destruct (Z.gtb_spec (offset + length - 1) (end_ (last rest x))).
      * split.
        -- apply (tiles_app offset (end_ (last rest x) + 1)).
           ++ replace (end_ (last rest x) + 1 - 1) with (end_ (last rest x))
                by lia. assumption.
           ++ simpl. lia.
        -- rewrite plan_chunks_app, Hp. apply app_nil_r.
      * split; [|assumption].
        replace (offset + length - 1) with (end_ (last rest x)) by lia.
        assumption.
Qed.

Lemma tiles_sorted (a b : Z) (p : list PlanEntry) :
  tiles a p b ->
  Forall (fun e => a <= entry_start e /\ entry_end e <= b) p /\
  StronglySorted (fun e1 e2 => entry_end e1 < entry_start e2) p.
Proof.
  revert a. induction p as [|e p IH]; simpl; intros a H.
  - split; constructor.
  - destruct H as (Hs & Hle & Hrest).
    destruct (IH _ Hrest) as [Hall Hsorted].
    assert (Hb : Forall (fun e' => entry_end e < entry_start e' /\
                                   entry_end e' <= b) p).
    { eapply Forall_impl; [|exact Hall]. simpl. intros e' ?. lia. }
    split.
    + constructor.
      * split; [lia|].
        destruct p as [|e' p]; simpl in Hrest; [lia|].
        inversion Hb; subst. lia.
      * eapply Forall_impl; [|exact Hb]. simpl. intros e' ?. lia.
    + constructor; [assumption|].
      eapply Forall_impl; [|exact Hb]. simpl. intros e' ?. lia.
Qed.

Lemma visible_chunks (d : Disk) (c : DiskChunk) :
  In c (if negb (discardIsZero d)
        then filter (fun c => negb (isDiscard c)) (knownChunks d)
        else knownChunks d)
  <-> visible d c.
Proof.
  unfold visible. destruct (discardIsZero d); simpl.
  - split; [intros H; split; [assumption|discriminate] | tauto].
  - rewrite filter_In, negb_true_iff. tauto.
Qed.

(** C1.  For a request of [length >= 1] bytes at [offset] on a store that
    satisfies its invariant, the entries of the plan of [_createReadPlan]
    tile [offset .. offset+length-1]: none is empty, the first starts at
    [offset], each next one starts right after the previous one ends and the
    last ends at [offset+length-1], so they are in ascending order without
    overlap and their lengths sum to [length].  Every chunk entry is a
    stored chunk (one that is not a discard when discards do not read as
    zero) cut to exactly its intersection with the request, with the bytes
    the stored chunk holds there; and every such stored chunk that
    intersects the request has its entry. *)
Theorem createReadPlan_covers_request (d : Disk) (offset length : Z) :
  1 <= length ->
  store_ok (knownChunks d) ->
  let last' := offset + length - 1 in
  let plan := _createReadPlan d offset length in
  tiles offset plan last' /\
  plan_length plan = length /\
  StronglySorted (fun e1 e2 => entry_end e1 < entry_start e2) plan /\
  (forall e, In (ChunkEntry e) plan ->
     exists c,
       visible d c /\
       iisect (offset, last') (interval c) = Some (interval e) /\
       isDiscard e = isDiscard c /\
       forall p, covers e p -> byte_at e p = byte_at c p) /\
  (forall c i, visible d c ->
     iisect (offset, last') (interval c) = Some i ->
     exists e, In (ChunkEntry e) plan /\ interval e = i).
Proof.
  intros Hlen Hok last' plan. apply store_ok_chain in Hok.
  destruct (createReadPlan_spec d offset length Hlen Hok) as [Ht Hp].
  fold plan in Ht, Hp. fold last' in Ht, Hp.
  split; [assumption|].
  split; [rewrite (tiles_length _ _ _ Ht); subst last'; lia|].
  split; [apply (tiles_sorted _ _ _ Ht)|].
  split.
  - intros e He. apply in_plan_chunks in He. rewrite Hp in He.
    apply in_map_iff in He. destruct He as (c & <- & Hc).
    apply filter_In in Hc. destruct Hc as [Hc Hm].
    apply visible_chunks in Hc.
    destruct (clip_interval _ _ _ Hm) as [Hs He].
    pose proof Hm as Hm'. unfold meets in Hm'. rewrite Z.leb_le in Hm'.
    exists c. split; [assumption|]. split; [|split].
    + apply iisect_Some. unfold interval. simpl. rewrite Hs, He. auto.
    + apply isDiscard_slice.
    + intros p Hcov. unfold covers in Hcov. apply byte_at_slice; lia.
  - intros c i Hv Hi. apply iisect_Some in Hi. simpl in Hi.
    destruct Hi as [-> Hle].
    assert (Hm : meets offset last' c = true) by (apply Z.leb_le; assumption).
    exists (clip offset last' c). split.
    + apply in_plan_chunks. rewrite Hp. apply in_map, filter_In.
      split; [apply visible_chunks|]; assumption.
    + destruct (clip_interval _ _ _ Hm) as [Hs He].
      unfold interval. rewrite Hs, He. reflexivity.
Qed.

Lemma createReadPlan_covers_request_witness :
  let d := mkDisk true true false true
             [DiscardDiskChunk 2 3; BufferDiskChunk [x01; x02; x03; x04] 10]
             None in
  tiles 4 (_createReadPlan d 4 8) 11 /\ plan_length (_createReadPlan d 4 8) = 8.
Proof.
  intro d.
  destruct (createReadPlan_covers_request d 4 8) as (Ht & Hl & _).
  - lia.
  - apply store_ok_chain. split; repeat constructor;
      unfold wf_chunk, before; simpl; lia.
  - split; assumption.
Defined.

(** The earlier revision of the planner kept whole chunks: a request inside
    a stored chunk got a plan longer than the request. *)
Example legacy_plan_exceeds_request :
  let d := mkDisk true true false true
             [BufferDiskChunk [x01; x02; x03; x04] 10] None in
  Legacy._createReadPlan d 11 2
  = [ChunkEntry (BufferDiskChunk [x01; x02; x03; x04] 10)] /\
  _createReadPlan d 11 2 = [ChunkEntry (BufferDiskChunk [x02; x03] 11)].
Proof. split; reflexivity. Qed.

(** ** Copying into the destination buffer *)

Lemma Buf_copy_prefix (source target : Buffer) (ts n : Z) :
  0 <= ts -> 0 <= n -> n <= Buf.length source ->
  ts + n <= Buf.length target ->
  Buf.copy source target ts 0 n
  = Some (firstn (Z.to_nat ts) target ++ firstn (Z.to_nat n) source
          ++ skipn (Z.to_nat (ts + n)) target).
Proof.
  intros Hts Hn Hs Ht. unfold Buf.copy.
  destruct (Z.ltb_spec ts 0); [lia|].
  destruct (Z.ltb_spec n 0); [lia|]. simpl.
  destruct (Z.leb_spec n 0).
  - rewrite orb_true_r. replace n with 0 by lia. simpl.
    rewrite Z.add_0_r, firstn_skipn. reflexivity.
  - destruct (Z.leb_spec (Buf.length target) ts); [lia|]. simpl.
    destruct (Z.ltb_spec (Buf.length source) 0); [lia|].
    rewrite !Z.sub_0_r. rewrite !Z.min_l by lia. reflexivity.
Qed.

Lemma Buf_copy_Some (source target target' : Buffer) (ts n : Z) :
  Buf.copy source target ts 0 n = Some target' -> 0 <= ts /\ 0 <= n.
Proof.
  unfold Buf.copy.
  destruct (Z.ltb_spec ts 0); [discriminate|].
  destruct (Z.ltb_spec n 0); [discriminate|]. lia.
Qed.

Lemma overwrite_length (source target : Buffer) (ts n : nat) :
  (n <= length source)%nat -> (ts + n <= length target)%nat ->
  length (firstn ts target ++ firstn n source ++ skipn (ts + n) target)
  = length target.
Proof.
  intros. rewrite !length_app, !length_firstn, length_skipn. lia.
Qed.

Lemma overwrite_nth (source target : Buffer) (ts n k : nat) :
  (n <= length source)%nat -> (ts + n <= length target)%nat ->
  nth_error (firstn ts target ++ firstn n source ++ skipn (ts + n) target) k
  = if (k <? ts)%nat then nth_error target k
    else if (k <? ts + n)%nat then nth_error source (k - ts)
    else nth_error target k.
Proof.
  intros Hn Ht.
  assert (Hl1 : length (firstn ts target) = ts)
    by (rewrite length_firstn; lia).
  assert (Hl2 : length (firstn n source) = n)
    by (rewrite length_firstn; lia).
  rewrite nth_error_app, Hl1.
  destruct (Nat.ltb_spec k ts) as [H1|H1].
  - rewrite nth_error_firstn. destruct (Nat.ltb_spec k ts); [reflexivity|lia].
  - rewrite nth_error_app, Hl2.
    destruct (Nat.ltb_spec (k - ts) n) as [H2|H2];
      destruct (Nat.ltb_spec k (ts + n)); try lia.
    + rewrite nth_error_firstn.
      destruct (Nat.ltb_spec (k - ts) n); [reflexivity|lia].
    + rewrite nth_error_skipn. f_equal. lia.
Qed.

(** ** Totality of the insertion *)

Lemma splice_length_replace {A : Type} (l items : list A) (i : Z) :
  0 <= i < Z.of_nat (length l) ->
  Z.of_nat (length (splice l i 1 items))
  = Z.of_nat (length l) - 1 + Z.of_nat (length items).
Proof.
  intros Hi. unfold splice.
  destruct (Z.ltb_spec i 0); [lia|].
  rewrite !length_app, length_firstn, length_skipn. lia.
Qed.

Lemma insertLoop_total (chunk : DiskChunk) (fuel : nat) :
  forall (known : list DiskChunk) (i insertAt : Z),
    0 <= i <= Z.of_nat (length known) ->
    Z.of_nat (length known) - i < Z.of_nat fuel ->
    exists r, insertLoop fuel chunk known i insertAt = Some r.
Proof.
  induction fuel as [|fuel IH]; intros known i insertAt Hi Hf.
  - lia.
  - cbn [insertLoop].
    destruct (Z.ltb_spec i (Z.of_nat (length known))) as [Hlt|Hge];
      [|eexists; reflexivity].
    destruct (nth_error known (Z.to_nat i)) as [other|] eqn:Hnth.
    2: { apply nth_error_None in Hnth. lia. }
    destruct (start other >? end_ chunk); [eexists; reflexivity|].
    destruct (intersects chunk other) eqn:Hint; cbn [negb].
    2: { apply IH; lia. }
    destruct (includedIn other chunk).
    { apply IH; rewrite splice_length_replace by lia; simpl; lia. }
    rewrite cut_intersecting by (rewrite intersects_sym; assumption).
    apply IH; rewrite splice_length_replace by lia; lia.
Qed.

(** [_insertDiskChunk] returns for every chunk and every array. *)
Lemma insertChunk_total (chunk : DiskChunk) (insert : bool)
  (known : list DiskChunk) :
  exists known', insertChunk chunk insert known = Some known'.
Proof.
  unfold insertChunk.
  destruct (insertLoop_total chunk (S (length known)) known 0 0)
    as [[known' insertAt] Hrun]; [lia|lia|].
  rewrite Hrun. eexists. reflexivity.
Qed.

(** ** Plans for a request inside one stored chunk *)

Lemma filter_none {A : Type} (f : A -> bool) (l : list A) :
  (forall x, In x l -> f x = false) -> filter f l = [].
Proof.
  induction l as [|a l IH]; intros H; [reflexivity|].
  simpl. rewrite (H a) by (simpl; auto). apply IH. intros x Hx.
  apply H. simpl. auto.
Qed.

Lemma filter_meets_inside (g : DiskChunk -> bool) (known : list DiskChunk)
  (c : DiskChunk) (first last : Z) :
  chain known -> In c known ->
  start c <= first -> first <= last -> last <= end_ c ->
  filter (meets first last) (filter g known) = if g c then [c] else [].
Proof.
  intros Hc Hin Hs Hfl He.
  apply in_split in Hin. destruct Hin as (L & R & ->).
  apply chain_app in Hc. destruct Hc as (HL & HcR & HLc).
  apply chain_cons in HcR. destruct HcR as (Hwc & HR & HcR).
  rewrite filter_app. simpl. rewrite filter_app.
  assert (HmL : filter (meets first last) (filter g L) = []).
  { apply filter_none. intros x Hx. apply filter_In in Hx.
    destruct Hx as [Hx _].
    specialize (HLc x c Hx (or_introl eq_refl)). unfold before in HLc.
    apply Z.leb_gt. lia. }
  assert (HmR : filter (meets first last) (filter g R) = []).
  { apply filter_none. intros x Hx. apply filter_In in Hx.
    destruct Hx as [Hx _].
    specialize (HcR x Hx). unfold before in HcR.
    apply Z.leb_gt. lia. }
  rewrite HmL. simpl. destruct (g c); simpl; [|assumption].
  replace (meets first last c) with true
    by (symmetry; apply Z.leb_le; lia).
  rewrite HmR. reflexivity.
Qed.

Lemma filter_all {A : Type} (l : list A) : filter (fun _ => true) l = l.
Proof. induction l as [|a l IH]; simpl; congruence. Qed.

Lemma plan_inside_chunk (d : Disk) (c : DiskChunk) (offset length : Z) :
  chain (knownChunks d) -> In c (knownChunks d) ->
  1 <= length -> start c <= offset -> offset + length - 1 <= end_ c ->
  _createReadPlan d offset length
  = if discardIsZero d || negb (isDiscard c)
    then [ChunkEntry (slice c offset (offset + length - 1))]
    else [RawInterval offset (offset + length - 1)].
Proof.
  intros Hc Hin Hlen Hs He. unfold _createReadPlan.
  rewrite intersectionsOf_clip.
  assert (Hf : filter (meets offset (offset + length - 1))
                 (if negb (discardIsZero d)
                  then filter (fun chunk => negb (isDiscard chunk)) (knownChunks d)
                  else knownChunks d)
               = if discardIsZero d || negb (isDiscard c) then [c] else []).
  { destruct (discardIsZero d); simpl.
    - rewrite <- (filter_all (knownChunks d)) at 1.
      apply (filter_meets_inside (fun _ => true)); auto; lia.
    - apply (filter_meets_inside (fun chunk => negb (isDiscard chunk)));
        auto; lia. }
  rewrite Hf. destruct (discardIsZero d || negb (isDiscard c)); [|reflexivity].
  simpl. unfold clip.
  rewrite Z.max_l, Z.min_l by lia.
  rewrite start_slice, end_slice by lia.
  rewrite Z.ltb_irrefl.
  destruct (Z.gtb_spec (offset + length - 1) (offset + length - 1)); [lia|].
  reflexivity.
Qed.

Lemma data_slice (c : DiskChunk) (first last : Z) :
  start c <= first -> first <= last -> last <= end_ c ->
  exists dat,
    data (slice c first last) = Some dat /\
    Buf.length dat = last - first + 1 /\
    (isDiscard c = true -> dat = repeat x00 (Z.to_nat (last - first + 1))) /\
    match c with
    | BufferDiskChunk buffer o =>
        dat = Buf.slice buffer (first - o) (last - o + 1)
    | DiscardDiskChunk _ _ => True
    end.
Proof.
  intros Hs Hfl He. destruct c as [buffer o | o len]; simpl in *.
  - eexists. split; [reflexivity|].
    replace (first - o + last - first + 1) with (last - o + 1) by lia.
    split; [rewrite Buf_slice_length; lia|]. split; [discriminate|reflexivity].
  - unfold Buf.alloc.
    replace (first + (last - first + 1) - 1 - first + 1)
      with (last - first + 1) by lia.
    destruct (Z.ltb_spec (last - first + 1) 0); [lia|].
    eexists. split; [reflexivity|].
    split; [unfold Buf.length; rewrite repeat_length; lia|]. auto.
Qed.

Section ReadProperties.

Context {B E : Type} {hooks : Hooks B E}.

Lemma execEntry_chunk (s : ExecState B) (chunk : DiskChunk) (dat : Buffer) :
  data chunk = Some dat ->
  0 <= ex_offset s ->
  ex_offset s + Buf.length dat <= Buf.length (ex_buffer s) ->
  execEntry s (ChunkEntry chunk)
  = Fulfilled
      (mkExec
         (firstn (Z.to_nat (ex_offset s)) (ex_buffer s) ++ dat
          ++ skipn (Z.to_nat (ex_offset s + Buf.length dat)) (ex_buffer s))
         (ex_offset s + Buf.length dat) (ex_disk s) (ex_world s)).
Proof.
  intros Hd Ho Hl. unfold execEntry. rewrite Hd.
  pose proof (Buf_length_nonneg dat).
  rewrite Z.min_l by lia.
  rewrite Buf_copy_prefix by lia.
  unfold Buf.length at 1. rewrite Nat2Z.id, firstn_all. reflexivity.
Qed.

(** A read of a range inside one visible stored chunk copies the data of
    its slice and calls no hook. *)
Lemma read_inside_chunk (d : Disk) (c : DiskChunk) (dest : Buffer)
  (bufferOffset length offset : Z) (w : World B) :
  chain (knownChunks d) -> In c (knownChunks d) ->
  discardIsZero d || negb (isDiscard c) = true ->
  1 <= length -> start c <= offset -> offset + length - 1 <= end_ c ->
  length <= Buf.length dest ->
  exists dat,
    data (slice c offset (offset + length - 1)) = Some dat /\
    Buf.length dat = length /\
    read d dest bufferOffset length offset w
    = (ReadOk length (dat ++ skipn (Z.to_nat length) dest),
       mkExec (dat ++ skipn (Z.to_nat length) dest) length d w).
Proof.
  intros Hc Hin Hvis Hlen Hs He Hdest.
  destruct (data_slice c offset (offset + length - 1)) as (dat & Hd & Hl & _);
    try lia.
  exists dat. split; [assumption|]. split; [lia|].
  unfold read, _readAccordingToPlan.
  rewrite (plan_inside_chunk d c) by assumption. rewrite Hvis.
  cbn [execPlan].
  rewrite (execEntry_chunk _ _ dat Hd) by (simpl; lia).
  simpl. replace (Buf.length dat) with length by lia. reflexivity.
Qed.

(** C4.  On a disk that records writes and whose store satisfies its
    invariant, a write of [N >= 1] bytes taken from inside a source buffer
    at position [O] returns, and a read of [N] bytes at [O] into a
    destination of at least [N] bytes then reports [N] bytes read and
    leaves exactly the written bytes at the start of the destination, the
    rest of it untouched; the read calls no hook, so what the backend holds
    does not matter. *)
Theorem write_then_read_roundtrip (d : Disk) (buffer dest : Buffer)
  (bufferOffset N O readOffset : Z) (w : World B) :
  recordWrites d = true ->
  store_ok (knownChunks d) ->
  1 <= N -> 0 <= bufferOffset -> bufferOffset + N <= Buf.length buffer ->
  N <= Buf.length dest ->
  let written := Buf.slice buffer bufferOffset (bufferOffset + N) in
  exists cb d1 w1,
    write d buffer bufferOffset N O w = Some (cb, d1, w1) /\
    Buf.length written = N /\
    read d1 dest readOffset N O w1
    = (ReadOk N (written ++ skipn (Z.to_nat N) dest),
       mkExec (written ++ skipn (Z.to_nat N) dest) N d1 w1).
Proof.
  intros Hrec Hok HN Hbo Hbuf Hdest written.
  apply store_ok_chain in Hok.
  assert (Hlw : Buf.length written = N)
    by (subst written; rewrite Buf_slice_length; lia).
  set (c := BufferDiskChunk written O).
  assert (Hwf : wf_chunk c) by (unfold wf_chunk; simpl; lia).
  destruct (insertChunk_spec c true (knownChunks d) Hwf Hok)
    as (L & R & Hins & Hchain & HL & HR).
  destruct (write_store d buffer bufferOffset N O w (L ++ [c] ++ R))
    as (cb & w1 & Hw & _).
  { rewrite Hrec. exact Hins. }
  exists cb, (set_knownChunks d (L ++ [c] ++ R)), w1.
  split; [exact Hw|]. split; [exact Hlw|].
  assert (Hc1 : chain (knownChunks (set_knownChunks d (L ++ [c] ++ R))))
    by (apply chain_insert; assumption).
  assert (Hin1 : In c (knownChunks (set_knownChunks d (L ++ [c] ++ R))))
    by (apply in_or_app; simpl; auto).
  destruct (read_inside_chunk (set_knownChunks d (L ++ [c] ++ R)) c dest
              readOffset N O w1 Hc1 Hin1 (orb_true_r _) HN
              ltac:(simpl; lia) ltac:(simpl; lia) Hdest)
    as (dat & Hd & _ & Hread).
  replace (O + N - 1) with (end_ c) in Hd by (simpl; lia).
  change O with (start c) in Hd at 1.
  rewrite slice_whole in Hd by assumption. simpl in Hd.
  injection Hd as <-. exact Hread.
Qed.

End ReadProperties.

Lemma write_then_read_roundtrip_witness :
  let d := mkDisk true true false true [DiscardDiskChunk 0 20] None in
  let w := mkWorld (mkMem (fun _ => x41) 100 None) [] in
  exists cb d1 w1,
    write d [x01; x02; x03; x04] 1 2 7 w = Some (cb, d1, w1) /\
    fst (read d1 [x00; x00; x00] 0 2 7 w1) = ReadOk 2 [x02; x03; x00].
Proof.
  intros d w.
  destruct (@write_then_read_roundtrip MemBackend unit MemHooks d
              [x01; x02; x03; x04] [x00; x00; x00] 1 2 7 0 w)
    as (cb & d1 & w1 & Hw & _ & Hr).
  - reflexivity.
  - apply store_ok_chain. split; repeat constructor. unfold wf_chunk; simpl; lia.
  - lia.
  - lia.
  - unfold Buf.length; simpl; lia.
  - unfold Buf.length; simpl; lia.
  - exists cb, d1, w1. split; [exact Hw|]. rewrite Hr. reflexivity.
Defined.

(** ** Reading discarded ranges *)

Lemma discard_records (d : Disk) (offset length : Z) :
  store_ok (knownChunks d) -> 1 <= length ->
  exists d',
    discard d offset length = Some d' /\
    store_ok (knownChunks d') /\
    In (DiscardDiskChunk offset length) (knownChunks d') /\
    discardIsZero d' = discardIsZero d.
Proof.
  intros Hok Hlen. apply store_ok_chain in Hok.
  assert (Hwf : wf_chunk (DiscardDiskChunk offset length))
    by (unfold wf_chunk; simpl; lia).
  destruct (insertChunk_spec _ true (knownChunks d) Hwf Hok)
    as (L & R & Hins & Hchain & HL & HR).
  unfold discard, _insertDiskChunk. rewrite Hins. simpl.
  eexists. split; [reflexivity|]. simpl. split; [|split; [|reflexivity]].
  - apply store_ok_chain. apply chain_insert; assumption.
  - apply in_or_app. simpl. auto.
Qed.

Section ExecutorProperties.

Context {B E : Type} {hooks : Hooks B E}.

(** A plan of one raw interval is one call of the read hook. *)
Lemma readAccordingToPlan_raw (d : Disk) (dest : Buffer) (first length : Z)
  (w : World B) (res : E + Z) (buf' : Buffer) (b' : B) :
  _read dest 0 length first (backend w) = (res, buf', b') ->
  let r := _readAccordingToPlan d dest [RawInterval first (first + length - 1)] w in
  fst r = match res with
          | inl err => ReadErr (promisified err)
          | inr _ => ReadOk length buf'
          end /\
  ex_buffer (snd r) = buf' /\
  ex_world (snd r) = mkWorld b' (calls w ++ [CallRead 0 length first]).
Proof.
  intros Hread. unfold _readAccordingToPlan. cbn [execPlan].
  unfold execEntry. cbn [ex_buffer ex_offset ex_world ex_disk].
  replace (first + length - 1 - first + 1) with length by lia.
  rewrite Hread. destruct res as [err|n]; [simpl; auto|].
  destruct (recordReads d); [|simpl; auto].
  unfold _insertDiskChunk.
  destruct (insertChunk_total
              (BufferDiskChunk (Buf.slice buf' 0 (0 + length)) first) true
              (knownChunks d)) as [known' Hins].
  rewrite Hins. simpl. auto.
Qed.

(** C5.  On a store that satisfies its invariant, take a range of
    [length >= 1] bytes inside a discarded chunk of the store and a
    destination of at least [length] bytes.  When discards read as zero,
    the read reports [length] bytes read, all zero, and calls no hook.
    When they do not, the plan leaves the discard out: it is the single
    backend read of the whole range, and the read gives the caller what the
    read hook answers for that range, its buffer, or its error as
    [Promise.promisify] rejects with it. *)
Theorem read_of_discarded_range (d : Disk) (c : DiskChunk) (dest : Buffer)
  (bufferOffset length offset : Z) (w : World B) :
  store_ok (knownChunks d) ->
  In c (knownChunks d) -> isDiscard c = true ->
  1 <= length -> start c <= offset -> offset + length - 1 <= end_ c ->
  length <= Buf.length dest ->
  (discardIsZero d = true ->
   let zeros := repeat x00 (Z.to_nat length) in
   read d dest bufferOffset length offset w
   = (ReadOk length (zeros ++ skipn (Z.to_nat length) dest),
      mkExec (zeros ++ skipn (Z.to_nat length) dest) length d w)) /\
  (discardIsZero d = false ->
   _createReadPlan d offset length
   = [RawInterval offset (offset + length - 1)] /\
   forall res buf' b',
     _read dest 0 length offset (backend w) = (res, buf', b') ->
     let r := read d dest bufferOffset length offset w in
     fst r = match res with
             | inl err => ReadErr (promisified err)
             | inr _ => ReadOk length buf'
             end /\
     ex_buffer (snd r) = buf' /\
     ex_world (snd r) = mkWorld b' (calls w ++ [CallRead 0 length offset])).
Proof.
  intros Hok Hin Hdis Hlen Hs He Hdest. apply store_ok_chain in Hok.
  split; intros Hdz.
  - destruct (read_inside_chunk d c dest bufferOffset length offset w)
      as (dat & Hd & Hl & Hread); auto.
    { rewrite Hdz. reflexivity. }
    destruct (data_slice c offset (offset + length - 1))
      as (dat' & Hd' & _ & Hz & _); try lia.
    rewrite Hd in Hd'. injection Hd' as <-.
    rewrite (Hz Hdis) in Hread.
    replace (offset + length - 1 - offset + 1) with length in Hread by lia.
    exact Hread.
  - assert (Hplan : _createReadPlan d offset length
                    = [RawInterval offset (offset + length - 1)]).
    { rewrite (plan_inside_chunk d c) by assumption.
      rewrite Hdz, Hdis. reflexivity. }
    split; [exact Hplan|].
    intros res buf' b' Hread. unfold read. rewrite Hplan.
    apply readAccordingToPlan_raw. exact Hread.
Qed.

(** ** Failing backend reads *)

Lemma execPlan_app (s : ExecState B) (p q : list PlanEntry) :
  execPlan s (p ++ q)
  = match execPlan s p with
    | Fulfilled s' => execPlan s' q
    | Rejected err s' => Rejected err s'
    end.
Proof.
  revert s. induction p as [|e p IH]; intros s; [reflexivity|].
  simpl. destruct (execEntry s e); [apply IH|reflexivity].
Qed.

Lemma execPlan_read_fails (s0 s : ExecState B) (pre post : list PlanEntry)
  (first last : Z) (err : E) (buf' : Buffer) (b' : B) :
  execPlan s0 pre = Fulfilled s ->
  _read (ex_buffer s) (ex_offset s) (last - first + 1) first
        (backend (ex_world s)) = (inl err, buf', b') ->
  execPlan s0 (pre ++ RawInterval first last :: post)
  = Rejected (promisified err)
      (mkExec buf' (ex_offset s) (ex_disk s)
         (mkWorld b' (calls (ex_world s)
                      ++ [CallRead (ex_offset s) (last - first + 1) first]))).
Proof.
  intros Hpre Hread. rewrite execPlan_app, Hpre.
  cbn [execPlan]. unfold execEntry. rewrite Hread. reflexivity.
Qed.

(** C7.  When the entries of a plan before a backend read run through and
    the read hook then fails with [err], [_readAccordingToPlan] calls back
    with an error only and never with a success: no entry after the failed
    one runs, whatever it is, so the log of hook calls ends with the failed
    read and the store is the one the earlier entries left.  The same holds
    for [read] when this is the plan of the request.  The error given to
    the callback is the one [Promise.promisify] rejects with: [err] itself
    when it is an object other than a plain [Error], and otherwise a new
    [OperationalError] made from [err]. *)
Theorem backend_failure_aborts_read (d : Disk) (buffer : Buffer)
  (w : World B) (pre post : list PlanEntry) (first last : Z)
  (s : ExecState B) (err : E) (buf' : Buffer) (b' : B) :
  execPlan (mkExec buffer 0 d w) pre = Fulfilled s ->
  _read (ex_buffer s) (ex_offset s) (last - first + 1) first
        (backend (ex_world s)) = (inl err, buf', b') ->
  let failed :=
    mkExec buf' (ex_offset s) (ex_disk s)
      (mkWorld b' (calls (ex_world s)
                   ++ [CallRead (ex_offset s) (last - first + 1) first])) in
  let reason :=
    match errorKind err with
    | OtherObject => HookError err
    | PrimitiveValue | PlainError => OperationalError err
    end in
  _readAccordingToPlan d buffer (pre ++ RawInterval first last :: post) w
  = (ReadErr reason, failed) /\
  (forall bufferOffset length fileOffset,
      _createReadPlan d fileOffset length
      = pre ++ RawInterval first last :: post ->
      read d buffer bufferOffset length fileOffset w
      = (ReadErr reason, failed)).
Proof.
  intros Hpre Hread failed reason.
  assert (Hrun : _readAccordingToPlan d buffer
                   (pre ++ RawInterval first last :: post) w
                 = (ReadErr reason, failed)).
  { unfold _readAccordingToPlan.
    rewrite (execPlan_read_fails _ s pre post first last err buf' b' Hpre Hread).
    reflexivity. }
  split; [exact Hrun|].
  intros bufferOffset length fileOffset Hplan. unfold read.
  rewrite Hplan. exact Hrun.
Qed.

(** ** Copies of chunk entries stay inside the destination *)

(** C10.  Whatever the state of the executor (any destination buffer, any
    offset, also after a plan that covers more than the buffer holds), a
    chunk entry either is rejected and changes nothing, or copies
    [n = min(data.length, buffer.length - offset)] bytes with [n >= 0]:
    the offset moves by [n] and stays within the buffer, the buffer keeps
    its length, the positions [offset .. offset+n-1] receive the first [n]
    bytes of the data and every other position keeps its byte. *)
Theorem chunk_entry_copy_is_clamped (s : ExecState B) (chunk : DiskChunk) :
  match execEntry s (ChunkEntry chunk) with
  | Fulfilled s' =>
      exists dat,
        data chunk = Some dat /\
        let n := Z.min (Buf.length dat)
                       (Buf.length (ex_buffer s) - ex_offset s) in
        0 <= ex_offset s /\ 0 <= n /\
        ex_offset s' = ex_offset s + n /\
        ex_offset s' <= Buf.length (ex_buffer s) /\
        Buf.length (ex_buffer s') = Buf.length (ex_buffer s) /\
        (forall k, 0 <= k < n ->
           nth_error (ex_buffer s') (Z.to_nat (ex_offset s + k))
           = nth_error dat (Z.to_nat k)) /\
        (forall k, 0 <= k -> k < ex_offset s \/ ex_offset s + n <= k ->
           nth_error (ex_buffer s') (Z.to_nat k)
           = nth_error (ex_buffer s) (Z.to_nat k)) /\
        ex_disk s' = ex_disk s /\ ex_world s' = ex_world s
  | Rejected _ s' => s' = s
  end.
Proof.
  unfold execEntry. destruct (data chunk) as [dat|]; [|reflexivity].
  set (n := Z.min (Buf.length dat) (Buf.length (ex_buffer s) - ex_offset s)).
  destruct (Buf.copy dat (ex_buffer s) (ex_offset s) 0 n) as [buffer'|] eqn:Hcopy;
    [|reflexivity].
  destruct (Buf_copy_Some _ _ _ _ _ Hcopy) as [Ho Hn].
  rewrite Buf_copy_prefix in Hcopy by lia. injection Hcopy as <-.
  exists dat. split; [reflexivity|]. cbn [ex_buffer ex_offset ex_disk ex_world].
  fold n.
  assert (Hns : (Z.to_nat n <= length dat)%nat)
    by (unfold Buf.length in *; lia).
  assert (Hnt : (Z.to_nat (ex_offset s) + Z.to_nat n <= length (ex_buffer s))%nat)
    by (unfold Buf.length in *; lia).
  replace (Z.to_nat (ex_offset s + n))
    with (Z.to_nat (ex_offset s) + Z.to_nat n)%nat by lia.
  repeat split; try lia; try reflexivity.
  - unfold Buf.length at 1. rewrite overwrite_length by assumption. reflexivity.
  - intros k Hk. rewrite overwrite_nth by assumption.
    destruct (Nat.ltb_spec (Z.to_nat (ex_offset s + k)) (Z.to_nat (ex_offset s)));
      [lia|].
    destruct (Nat.ltb_spec (Z.to_nat (ex_offset s + k))
                (Z.to_nat (ex_offset s) + Z.to_nat n)); [|lia].
    f_equal. lia.
  - intros k Hk Hout. rewrite overwrite_nth by assumption.
    destruct (Nat.ltb_spec (Z.to_nat k) (Z.to_nat (ex_offset s)));
      [reflexivity|].
    destruct (Nat.ltb_spec (Z.to_nat k) (Z.to_nat (ex_offset s) + Z.to_nat n));
      [lia|reflexivity].
Qed.

(** ** The cached capacity *)

(** C8.  [getCapacity] on a disk with a cached capacity answers it and
    leaves the world alone: no hook is called.  On a disk without one, a
    successful query is answered and cached, so that this call followed by
    any number of later calls, all answered with the cached value, makes
    one call of the hook in total; a failed query is answered with the
    error of the hook and leaves the disk, and so its empty cache, as it
    was. *)
Theorem getCapacity_is_memoized (d : Disk) (w : World B) :
  (forall c, capacity d = Some c ->
     getCapacity d w = (inr c, d, w) /\
     forall n, getCapacityTimes n d w = (repeat (inr c) n, d, w)) /\
  (forall c b', capacity d = None ->
     _getCapacity (backend w) = (inr c, b') ->
     let w' := mkWorld b' (calls w ++ [CallGetCapacity]) in
     getCapacity d w = (inr c, set_capacity d c, w') /\
     capacity (set_capacity d c) = Some c /\
     forall n,
       getCapacityTimes (S n) d w
       = (repeat (inr c) (S n), set_capacity d c, w')) /\
  (forall err b', capacity d = None ->
     _getCapacity (backend w) = (inl err, b') ->
     getCapacity d w
     = (inl (HookError err), d, mkWorld b' (calls w ++ [CallGetCapacity]))).
Proof.
  assert (Hcached : forall d' w' c, capacity d' = Some c ->
            forall n, getCapacityTimes n d' w' = (repeat (inr c) n, d', w')).
  { intros d' w' c Hc n. induction n as [|n IH]; [reflexivity|].
    cbn [getCapacityTimes]. unfold getCapacity at 1. rewrite Hc, IH.
    reflexivity. }
  split; [|split].
  - intros c Hc. split; [|apply Hcached; assumption].
    unfold getCapacity. rewrite Hc. reflexivity.
  - intros c b' Hc Hq w'.
    assert (Hfirst : getCapacity d w = (inr c, set_capacity d c, w'))
      by (unfold getCapacity; rewrite Hc, Hq; reflexivity).
    split; [exact Hfirst|]. split; [reflexivity|].
    intros n. cbn [getCapacityTimes]. rewrite Hfirst.
    rewrite (Hcached (set_capacity d c) w' c eq_refl). reflexivity.
  - intros err b' Hc Hq. unfold getCapacity. rewrite Hc, Hq. reflexivity.
Qed.

End ExecutorProperties.

(** ** The theorems at concrete disks *)

Lemma read_of_discarded_range_witness :
  let m := mkMem (fun _ => x41) 100 None in
  let zero := mkDisk true true false true [DiscardDiskChunk 5 10] None in
  let kept := mkDisk true true false false [DiscardDiskChunk 5 10] None in
  fst (read zero [x41; x41; x41; x41] 0 3 7 (mkWorld m []))
  = ReadOk 3 [x00; x00; x00; x41] /\
  fst (read kept [x00; x00; x00; x00] 0 3 7 (mkWorld m []))
  = ReadOk 3 [x41; x41; x41; x00].
Proof.
  intros m zero kept.
  assert (Hok : store_ok [DiscardDiskChunk 5 10])
    by (apply store_ok_chain; split; repeat constructor;
        unfold wf_chunk; simpl; lia).
  split.
  - destruct (@read_of_discarded_range MemBackend unit MemHooks zero
                (DiscardDiskChunk 5 10) [x41; x41; x41; x41] 0 3 7
                (mkWorld m []) Hok (or_introl eq_refl) eq_refl
                ltac:(lia) ltac:(simpl; lia) ltac:(simpl; lia)
                ltac:(unfold Buf.length; simpl; lia))
      as [Hzero _].
    rewrite (Hzero eq_refl). reflexivity.
  - destruct (@read_of_discarded_range MemBackend unit MemHooks kept
                (DiscardDiskChunk 5 10) [x00; x00; x00; x00] 0 3 7
                (mkWorld m []) Hok (or_introl eq_refl) eq_refl
                ltac:(lia) ltac:(simpl; lia) ltac:(simpl; lia)
                ltac:(unfold Buf.length; simpl; lia))
      as [_ Hbackend].
    destruct (Hbackend eq_refl) as [_ Hread].
    destruct (Hread (inr 3) [x41; x41; x41; x00] m eq_refl) as [Hfst _].
    rewrite Hfst. reflexivity.
Defined.

Lemma backend_failure_aborts_read_witness :
  let d := mkDisk true true false true
             [BufferDiskChunk [x01; x02; x03; x04] 10;
              BufferDiskChunk [x05; x06] 40] None in
  let w := mkWorld (mkMem (fun _ => x41) 20 None) [] in
  let r := read d (repeat x00 42) 0 42 8 w in
  fst r = ReadErr (OperationalError tt) /\
  calls (ex_world (snd r)) = [CallRead 0 2 8; CallRead 6 26 14].
Proof.
  intros d w r. subst r.
  rewrite (proj2 (@backend_failure_aborts_read MemBackend unit MemHooks
                    d (repeat x00 42) w
                    [RawInterval 8 9;
                     ChunkEntry (BufferDiskChunk [x01; x02; x03; x04] 10)]
                    [ChunkEntry (BufferDiskChunk [x05; x06] 40);
                     RawInterval 42 49]
                    14 39 _ tt _ _ eq_refl eq_refl) 0 42 8 eq_refl).
  split; reflexivity.
Defined.

(** C7 as the specification states it fails: the error of the read hook
    does not reach the callback of [read] as it is: the read of the interval [14 .. 39] of this request fails with the
    plain error [tt] of the backend, and the callback is given a new
    [OperationalError] made from it. *)
Lemma backend_failure_error_is_wrapped :
  let m := mkMem (fun _ => x41) 20 None in
  let d := mkDisk true true false true
             [BufferDiskChunk [x01; x02; x03; x04] 10;
              BufferDiskChunk [x05; x06] 40] None in
  let r := read d (repeat x00 42) 0 42 8 (mkWorld m []) in
  In (RawInterval 14 39) (_createReadPlan d 8 42) /\
  (forall buffer : Buffer, fst (fst (_read buffer 6 26 14 m)) = inl tt) /\
  fst r = ReadErr (OperationalError tt) /\
  fst r <> ReadErr (HookError tt).
Proof.
  intros m d r.
  split; [simpl; auto|]. split; [reflexivity|].
  split; [reflexivity|]. discriminate.
Qed.

Lemma chunk_entry_copy_is_clamped_witness :
  let s := mkExec [x00; x00; x00; x00] 2 (newDisk true true false true)
                  (mkWorld (mkMem (fun _ => x41) 100 None) []) in
  let chunk := BufferDiskChunk [x01; x02; x03; x04; x05; x06] 10 in
  exists s',
    execEntry s (ChunkEntry chunk) = Fulfilled s' /\
    ex_offset s' = 4 /\ Buf.length (ex_buffer s') = 4.
Proof.
  intros s chunk.
  pose proof (@chunk_entry_copy_is_clamped MemBackend unit MemHooks s chunk) as H.
  destruct (execEntry s (ChunkEntry chunk)) as [s'|err s'] eqn:Hrun.
  - destruct H as (dat & Hd & _ & _ & Ho & _ & Hlen & _).
    exists s'. split; [reflexivity|]. injection Hd as <-.
    split; [rewrite Ho | rewrite Hlen]; reflexivity.
  - vm_compute in Hrun. discriminate.
Defined.

Lemma getCapacity_is_memoized_witness :
  let d := newDisk true true false true in
  let m := mkMem (fun _ => x41) 100 (Some 64) in
  let failing := mkMem (fun _ => x41) 100 None in
  getCapacityTimes 3 d (mkWorld m [])
  = ([inr 64; inr 64; inr 64], set_capacity d 64, mkWorld m [CallGetCapacity])
  /\
  getCapacity d (mkWorld failing [])
  = (inl (HookError tt), d, mkWorld m [CallGetCapacity]).
Proof.
  intros d m failing. split.
  - destruct (@getCapacity_is_memoized MemBackend unit MemHooks d (mkWorld m []))
      as (_ & Hfirst & _).
    destruct (Hfirst 64 m eq_refl eq_refl) as (_ & _ & Hall).
    exact (Hall 2%nat).
  - destruct (@getCapacity_is_memoized MemBackend unit MemHooks d
                (mkWorld failing [])) as (_ & _ & Hfail).
    exact (Hfail tt m eq_refl eq_refl).
Defined.

(** * Further properties of the overlay *)

(** ** What a store records for a position *)

Lemma coversb_covers (c : DiskChunk) (p : Z) :
  coversb c p = true <-> covers c p.
Proof.
  unfold coversb, covers. rewrite andb_true_iff, !Z.leb_le. tauto.
Qed.

Lemma coversb_false (c : DiskChunk) (p : Z) :
  coversb c p = false <-> p < start c \/ end_ c < p.
Proof.
  unfold coversb. rewrite andb_false_iff, !Z.leb_gt. tauto.
Qed.

Lemma byte_at_covered (c : DiskChunk) (p : Z) :
  coversb c p = true -> exists b, byte_at c p = Some b.
Proof.
  intros H. unfold byte_at. fold (coversb c p). rewrite H.
  apply coversb_covers in H. unfold covers in H.
  destruct c as [buffer o | o len]; simpl in *; [|eauto].
  destruct (nth_error buffer (Z.to_nat (p - o))) as [b|] eqn:Hn; [eauto|].
  apply nth_error_None in Hn. unfold Buf.length in H. lia.
Qed.

Lemma cell_cons (x : DiskChunk) (l : list DiskChunk) (p : Z) :
  cell (x :: l) p
  = if coversb x p then option_map (pair (isDiscard x)) (byte_at x p)
    else cell l p.
Proof. unfold cell. simpl. destruct (coversb x p); reflexivity. Qed.

Lemma cell_skip (x : DiskChunk) (l : list DiskChunk) (p : Z) :
  coversb x p = false -> cell (x :: l) p = cell l p.
Proof. intros H. rewrite cell_cons, H. reflexivity. Qed.

Lemma cell_app (l1 l2 : list DiskChunk) (p : Z) :
  cell (l1 ++ l2) p
  = match cell l1 p with
    | Some v => Some v
    | None => cell l2 p
    end.
Proof.
  induction l1 as [|x l1 IH]; [reflexivity|].
  simpl. rewrite !cell_cons. destruct (coversb x p) eqn:Hx; [|exact IH].
  destruct (byte_at_covered x p Hx) as [b ->]. reflexivity.
Qed.

Lemma cell_none (l : list DiskChunk) (p : Z) :
  (forall x, In x l -> coversb x p = false) -> cell l p = None.
Proof.
  induction l as [|x l IH]; intros H; [reflexivity|].
  rewrite cell_skip by (apply H; simpl; auto).
  apply IH. intros y Hy. apply H. simpl. auto.
Qed.

Lemma cell_Some_in (l : list DiskChunk) (p : Z) (k : bool) (b : byte) :
  cell l p = Some (k, b) ->
  exists c, In c l /\ coversb c p = true /\ isDiscard c = k /\
            byte_at c p = Some b.
Proof.
  induction l as [|x l IH]; [discriminate|].
  rewrite cell_cons. destruct (coversb x p) eqn:Hx.
  - destruct (byte_at x p) as [b'|] eqn:Hb; [|discriminate].
    simpl. intros [= <- <-]. exists x. simpl. auto.
  - intros H. destruct (IH H) as (c & Hc & ?). exists c. simpl. auto.
Qed.

(** In a chain only one chunk contains a given position. *)
Lemma cell_chain_in (l : list DiskChunk) (c : DiskChunk) (p : Z) :
  chain l -> In c l -> coversb c p = true ->
  cell l p = option_map (pair (isDiscard c)) (byte_at c p).
Proof.
  intros Hc Hin Hp. apply in_split in Hin. destruct Hin as (l1 & l2 & ->).
  apply chain_app in Hc. destruct Hc as (_ & _ & Hb).
  rewrite cell_app, cell_none, cell_cons, Hp; [reflexivity|].
  intros x Hx. specialize (Hb x c Hx (or_introl eq_refl)).
  apply coversb_covers in Hp. apply coversb_false.
  unfold before, covers in *. lia.
Qed.

(** Outside of [chunk], the parts [cut] keeps of an overlapping chunk
    record what the chunk recorded. *)
Lemma cell_cut (other chunk : DiskChunk) (rest : list DiskChunk) (p : Z) :
  intersects other chunk = true -> coversb chunk p = false ->
  cell (((if start other <? start chunk
          then [slice other (start other) (start chunk - 1)] else [])
         ++ (if end_ chunk <? end_ other
             then [slice other (end_ chunk + 1) (end_ other)] else []))
        ++ rest) p
  = cell (other :: rest) p.
Proof.
  intros Hi Hp. apply intersects_true in Hi. apply coversb_false in Hp.
  assert (Hl : start other < start chunk ->
               start (slice other (start other) (start chunk - 1)) = start other /\
               end_ (slice other (start other) (start chunk - 1)) = start chunk - 1)
    by (intros; rewrite start_slice, end_slice by lia; auto).
  assert (Hr : end_ chunk < end_ other ->
               start (slice other (end_ chunk + 1) (end_ other)) = end_ chunk + 1 /\
               end_ (slice other (end_ chunk + 1) (end_ other)) = end_ other)
    by (intros; rewrite start_slice, end_slice by lia; auto).
  rewrite <- app_assoc.
  rewrite (cell_cons other).
  destruct (Z.ltb_spec (start other) (start chunk)) as [Ha|Ha];
    destruct (Z.ltb_spec (end_ chunk) (end_ other)) as [Hb|Hb];
    try (destruct (Hl Ha) as [Hl1 Hl2]); try (destruct (Hr Hb) as [Hr1 Hr2]);
    cbn [app]; rewrite ?cell_cons; unfold coversb;
    rewrite ?Hl1, ?Hl2, ?Hr1, ?Hr2, ?isDiscard_slice;
    repeat match goal with
           | |- context [?a <=? ?b] => destruct (Z.leb_spec a b)
           end; cbn [andb]; try lia; try reflexivity;
    try (rewrite byte_at_slice by lia; reflexivity).
Qed.

Lemma cell_included (other chunk : DiskChunk) (rest : list DiskChunk) (p : Z) :
  includedIn other chunk = true -> coversb chunk p = false ->
  cell (other :: rest) p = cell rest p.
Proof.
  intros Hinc Hp. apply includedIn_true in Hinc. apply coversb_false in Hp.
  apply cell_skip. apply coversb_false. lia.
Qed.

(** The loop of [_insertDiskChunk] leaves what the array records outside of
    the inserted chunk as it is, whatever the array. *)
Lemma insertLoop_outside (chunk : DiskChunk) (p : Z) :
  coversb chunk p = false ->
  forall (fuel : nat) (known : list DiskChunk) (i insertAt : Z)
         (known' : list DiskChunk) (insertAt' : Z),
    0 <= i ->
    insertLoop fuel chunk known i insertAt = Some (known', insertAt') ->
    cell known' p = cell known p.
Proof.
  intros Hp. induction fuel as [|fuel IH];
    intros known i insertAt known' insertAt' Hi Hrun; [discriminate|].
  cbn [insertLoop] in Hrun.
  destruct (i <? Z.of_nat (length known)); [|injection Hrun as <- _; reflexivity].
  destruct (nth_error known (Z.to_nat i)) as [other|] eqn:Hnth; [|discriminate].
  apply nth_error_split in Hnth. destruct Hnth as (l1 & l2 & -> & Hlen).
  assert (Hi' : i = Z.of_nat (length l1)) by lia.
  destruct (start other >? end_ chunk); [injection Hrun as <- _; reflexivity|].
  destruct (intersects chunk other) eqn:Hint; cbn [negb] in Hrun.
  2: { eapply IH; [|exact Hrun]; lia. }
  destruct (includedIn other chunk) eqn:Hinc.
  { rewrite Hi', splice_replace in Hrun.
    assert (Hk : 0 <= Z.of_nat (length l1) - 1 + 1) by lia.
    rewrite (IH _ _ _ _ _ Hk Hrun). cbn [app].
    rewrite !(cell_app l1), (cell_included other chunk) by assumption.
    reflexivity. }
  rewrite intersects_sym in Hint.
  rewrite (cut_intersecting other chunk Hint) in Hrun.
  rewrite Hi' in Hrun at 1. rewrite splice_replace in Hrun.
  assert (Hk : 0 <= i + (Z.of_nat (length
                 ((if start other <? start chunk
                   then [slice other (start other) (start chunk - 1)] else [])
                  ++ (if end_ chunk <? end_ other
                      then [slice other (end_ chunk + 1) (end_ other)] else [])))
                 - 1) + 1) by lia.
  rewrite (IH _ _ _ _ _ Hk Hrun).
  rewrite !(cell_app l1), (cell_cut other chunk l2 p Hint Hp). reflexivity.
Qed.

Lemma splice_insert_any {A : Type} (l items : list A) (at' : Z) :
  exists n, splice l at' 0 items = firstn n l ++ items ++ skipn n l.
Proof.
  unfold splice.
  set (s := if at' <? 0 then Z.max (Z.of_nat (length l) + at') 0
            else Z.min at' (Z.of_nat (length l))).
  assert (0 <= s <= Z.of_nat (length l))
    by (subst s; destruct (Z.ltb_spec at' 0); lia).
  exists (Z.to_nat s). rewrite Z.max_id, (Z.min_l 0), Z.add_0_r by lia.
  reflexivity.
Qed.

Lemma cell_insert_outside (l : list DiskChunk) (c : DiskChunk) (n : nat)
  (p : Z) :
  coversb c p = false ->
  cell (firstn n l ++ [c] ++ skipn n l) p = cell l p.
Proof.
  intros Hp. rewrite <- (firstn_skipn n l) at 3.
  rewrite !(cell_app (firstn n l)). cbn [app].
  rewrite cell_skip by assumption. reflexivity.
Qed.

(** X1.  [_insertDiskChunk] returns for every chunk and every store, also
    for stores that break the invariant: the loop ends and [cut] is only
    reached with an intersecting chunk, so nothing throws.  The flags and
    the cached capacity are kept, and what the store records for the
    positions outside of the interval of the chunk is unchanged. *)
Theorem insertDiskChunk_always_returns (d : Disk) (c : DiskChunk)
  (insert : bool) :
  exists d',
    _insertDiskChunk d c insert = Some d' /\
    readOnly d' = readOnly d /\ recordWrites d' = recordWrites d /\
    recordReads d' = recordReads d /\ discardIsZero d' = discardIsZero d /\
    capacity d' = capacity d /\
    (forall p, coversb c p = false ->
               cell (knownChunks d') p = cell (knownChunks d) p).
Proof.
  unfold _insertDiskChunk, insertChunk.
  destruct (insertLoop_total c (S (length (knownChunks d))) (knownChunks d) 0 0)
    as [[known' insertAt] Hrun]; [lia|lia|].
  rewrite Hrun. eexists. split; [reflexivity|]. simpl.
  repeat split. intros p Hp.
  rewrite <- (insertLoop_outside c p Hp _ _ _ _ _ _ (Z.le_refl 0) Hrun).
  destruct insert; [|reflexivity].
  destruct (splice_insert_any known' [c] insertAt) as [n ->].
  apply cell_insert_outside. assumption.
Qed.

Lemma insertChunk_cells (c : DiskChunk) (insert : bool)
  (known : list DiskChunk) :
  chain known -> wf_chunk c ->
  exists known',
    insertChunk c insert known = Some known' /\
    chain known' /\
    forall p,
      cell known' p
      = if coversb c p
        then (if insert then cell [c] p else None)
        else cell known p.
Proof.
  intros Hok Hwf.
  destruct (insertLoop_spec c Hwf known [] [] (S (length known)))
    as (L & R & Hrun & Hchain & HL & HR); simpl; auto.
  cbn [app List.length Z.of_nat] in Hrun.
  unfold insertChunk. rewrite Hrun.
  eexists. split; [reflexivity|].
  assert (Hout : forall p, coversb c p = false -> cell (L ++ R) p = cell known p)
    by (intros p Hp;
        apply (insertLoop_outside c p Hp _ _ _ _ _ _ (Z.le_refl 0) Hrun)).
  assert (Hin : forall p, coversb c p = true ->
                          cell L p = None /\ cell R p = None).
  { intros p Hp. apply coversb_covers in Hp. unfold covers in Hp.
    rewrite Forall_forall in HL, HR.
    split; apply cell_none; intros x Hx; apply coversb_false;
      [specialize (HL x Hx) | specialize (HR x Hx)]; lia. }
  split.
  - destruct insert; [|assumption].
    rewrite splice_insert. apply chain_insert; assumption.
  - intros p. destruct (coversb c p) eqn:Hp.
    + destruct (Hin p Hp) as [HLp HRp]. destruct insert.
      * rewrite splice_insert, cell_app, HLp. cbn [app].
        rewrite !cell_cons, Hp. reflexivity.
      * rewrite cell_app, HLp, HRp. reflexivity.
    + rewrite <- (Hout p Hp). destruct insert; [|reflexivity].
      rewrite splice_insert, !(cell_app L). cbn [app].
      rewrite cell_skip by assumption. reflexivity.
Qed.

(** X2.  On a store that satisfies its invariant, [_insertDiskChunk] of a
    chunk with [start <= end] replaces what the store records on the
    interval of the chunk and nothing else: afterwards a position inside
    the interval has the kind and byte of the chunk when the chunk is
    inserted and nothing when it is not, and every other position has what
    it had. *)
Theorem insertDiskChunk_replaces_range (d : Disk) (c : DiskChunk)
  (insert : bool) :
  store_ok (knownChunks d) -> wf_chunk c ->
  exists d',
    _insertDiskChunk d c insert = Some d' /\
    store_ok (knownChunks d') /\
    forall p,
      cell (knownChunks d') p
      = if coversb c p
        then (if insert then cell [c] p else None)
        else cell (knownChunks d) p.
Proof.
  intros Hok Hwf. apply store_ok_chain in Hok.
  destruct (insertChunk_cells c insert (knownChunks d) Hok Hwf)
    as (known' & Hrun & Hchain & Hcell).
  unfold _insertDiskChunk. rewrite Hrun.
  eexists. split; [reflexivity|]. simpl.
  split; [apply store_ok_chain|]; assumption.
Qed.

Lemma insertDiskChunk_replaces_range_witness :
  let d := mkDisk true true false true
             [BufferDiskChunk [x01; x02; x03; x04; x05; x06] 10] None in
  exists d',
    _insertDiskChunk d (DiscardDiskChunk 12 2) true = Some d' /\
    cell (knownChunks d') 11 = Some (false, x02) /\
    cell (knownChunks d') 12 = Some (true, x00) /\
    cell (knownChunks d') 14 = Some (false, x05).
Proof.
  intro d.
  destruct (insertDiskChunk_replaces_range d (DiscardDiskChunk 12 2) true)
    as (d' & Hrun & _ & Hcell).
  - apply store_ok_chain. split; repeat constructor. unfold wf_chunk; simpl; lia.
  - unfold wf_chunk; simpl; lia.
  - exists d'. split; [exact Hrun|]. rewrite !Hcell. repeat split.
Defined.

(** ** What a read returns *)

Lemma image_bytes_length (image : Z -> byte) (first n : Z) :
  0 <= n -> Buf.length (image_bytes image first n) = n.
Proof.
  intros. unfold Buf.length, image_bytes. rewrite length_map, length_seq. lia.
Qed.

Lemma image_bytes_nth (image : Z -> byte) (first n : Z) (j : nat) :
  Z.of_nat j < n ->
  nth_error (image_bytes image first n) j = Some (image (first + Z.of_nat j)).
Proof.
  intros Hj. unfold image_bytes.
  rewrite nth_error_map, nth_error_seq.
  destruct (Nat.ltb_spec j (Z.to_nat n)); [reflexivity|lia].
Qed.

Lemma overwrite_spec (buf src : Buffer) (off : Z) :
  0 <= off -> off + Buf.length src <= Buf.length buf ->
  let buf' := firstn (Z.to_nat off) buf ++ src
              ++ skipn (Z.to_nat (off + Buf.length src)) buf in
  Buf.length buf' = Buf.length buf /\
  forall k, 0 <= k ->
    nth_error buf' (Z.to_nat k)
    = if (off <=? k) && (k <? off + Buf.length src)
      then nth_error src (Z.to_nat (k - off))
      else nth_error buf (Z.to_nat k).
Proof.
  intros Hoff Hfit buf'. subst buf'. unfold Buf.length in *.
  replace (Z.to_nat (off + Z.of_nat (length src)))
    with (Z.to_nat off + length src)%nat by lia.
  replace (firstn (Z.to_nat off) buf ++ src
           ++ skipn (Z.to_nat off + length src) buf)
    with (firstn (Z.to_nat off) buf ++ firstn (length src) src
          ++ skipn (Z.to_nat off + length src) buf)
    by (rewrite firstn_all; reflexivity).
  split.
  - rewrite overwrite_length by lia. reflexivity.
  - intros k Hk. rewrite overwrite_nth by lia.
    destruct (Nat.ltb_spec (Z.to_nat k) (Z.to_nat off));
      destruct (Z.leb_spec off k); try lia; simpl; [reflexivity|].
    destruct (Nat.ltb_spec (Z.to_nat k) (Z.to_nat off + length src));
      destruct (Z.ltb_spec k (off + Z.of_nat (length src))); try lia;
      [f_equal; lia | reflexivity].
Qed.

Lemma slice_of_overwrite (buf src : Buffer) (off : Z) :
  0 <= off -> off + Buf.length src <= Buf.length buf ->
  Buf.slice (firstn (Z.to_nat off) buf ++ src
             ++ skipn (Z.to_nat (off + Buf.length src)) buf)
            off (off + Buf.length src)
  = src.
Proof.
  intros Hoff Hfit.
  destruct (overwrite_spec buf src off Hoff Hfit) as [Hlen _].
  unfold Buf.slice, Buf.clamp. rewrite Hlen.
  pose proof (Buf_length_nonneg src).
  destruct (Z.ltb_spec off 0); [lia|].
  destruct (Z.ltb_spec (off + Buf.length src) 0); [lia|].
  rewrite !Z.min_l by lia.
  replace (off + Buf.length src - off) with (Buf.length src) by lia.
  assert (Hf : length (firstn (Z.to_nat off) buf) = Z.to_nat off)
    by (rewrite length_firstn; unfold Buf.length in *; lia).
  rewrite skipn_app, Hf, Nat.sub_diag, skipn_all2 by lia. simpl.
  unfold Buf.length. rewrite Nat2Z.id, firstn_app, Nat.sub_diag, firstn_all.
  simpl. apply app_nil_r.
Qed.

Lemma tiles_le (a b : Z) (p : list PlanEntry) : tiles a p b -> a <= b + 1.
Proof.
  revert a. induction p as [|e p IH]; simpl; intros a H; [lia|].
  destruct H as (Hs & Hle & Hrest). specialize (IH _ Hrest). lia.
Qed.

Lemma data_bytes (c : DiskChunk) :
  wf_chunk c ->
  exists dat,
    data c = Some dat /\
    Buf.length dat = chunk_length c /\
    forall j, 0 <= j < chunk_length c ->
      nth_error dat (Z.to_nat j) = byte_at c (start c + j).
Proof.
  unfold wf_chunk, chunk_length, byte_at.
  destruct c as [buffer o | o len]; simpl; intros Hwf.
  - exists buffer. split; [reflexivity|]. split; [lia|].
    intros j Hj.
    destruct (Z.leb_spec o (o + j)); [|lia].
    destruct (Z.leb_spec (o + j) (o + Buf.length buffer - 1)); [|lia].
    simpl. f_equal. lia.
  - unfold Buf.alloc. destruct (Z.ltb_spec (o + len - 1 - o + 1) 0); [lia|].
    eexists. split; [reflexivity|].
    split; [unfold Buf.length; rewrite repeat_length; lia|].
    intros j Hj.
    destruct (Z.leb_spec o (o + j)); [|lia].
    destruct (Z.leb_spec (o + j) (o + len - 1)); [|lia].
    simpl. apply nth_error_repeat. lia.
Qed.

Lemma in_raw_cons (e : PlanEntry) (plan : list PlanEntry) (p : Z) :
  in_raw (e :: plan) p
  = match e with
    | RawInterval first last => (first <=? p) && (p <=? last)
    | ChunkEntry _ => false
    end || in_raw plan p.
Proof. reflexivity. Qed.

Lemma cell_image_chunk (image : Z -> byte) (first n p : Z) :
  1 <= n ->
  cell [BufferDiskChunk (image_bytes image first n) first] p
  = if (first <=? p) && (p <=? first + n - 1)
    then Some (false, image p) else None.
Proof.
  intros Hn. rewrite cell_cons. unfold coversb, byte_at. simpl.
  rewrite image_bytes_length by lia.
  destruct ((first <=? p) && (p <=? first + n - 1)) eqn:Hp; [|reflexivity].
  apply andb_true_iff in Hp. rewrite !Z.leb_le in Hp.
  rewrite image_bytes_nth by lia. simpl. do 3 f_equal. lia.
Qed.

Lemma set_knownChunks_same (d : Disk) : set_knownChunks d (knownChunks d) = d.
Proof. destruct d; reflexivity. Qed.

Lemma set_knownChunks_twice (d : Disk) (k1 k2 : list DiskChunk) :
  set_knownChunks (set_knownChunks d k1) k2 = set_knownChunks d k2.
Proof. reflexivity. Qed.

Section ReadContents.

Context {B E : Type} {hooks : Hooks B E}.

Variables (inv : B -> Prop) (image want : Z -> byte) (offset last : Z).

Hypothesis Hserves : serves inv image offset last.

(** What one entry of a plan for the request at [offset] does when the
    executor has reached the start of the entry. *)
Lemma execEntry_gives (e : PlanEntry) (s : ExecState B) :
  entry_gives want image e ->
  entry_start e <= entry_end e ->
  offset <= entry_start e -> entry_end e <= last ->
  ex_offset s = entry_start e - offset ->
  last - offset + 1 <= Buf.length (ex_buffer s) ->
  inv (backend (ex_world s)) ->
  chain (knownChunks (ex_disk s)) ->
  exists s',
    execEntry s e = Fulfilled s' /\
    ex_offset s' = entry_end e + 1 - offset /\
    Buf.length (ex_buffer s') = Buf.length (ex_buffer s) /\
    (forall k, 0 <= k ->
       nth_error (ex_buffer s') (Z.to_nat k)
       = if (entry_start e - offset <=? k) && (k <=? entry_end e - offset)
         then Some (want (offset + k))
         else nth_error (ex_buffer s) (Z.to_nat k)) /\
    inv (backend (ex_world s')) /\
    calls (ex_world s') = calls (ex_world s) ++ plan_calls offset [e] /\
    chain (knownChunks (ex_disk s')) /\
    ex_disk s' = set_knownChunks (ex_disk s) (knownChunks (ex_disk s')) /\
    (forall p,
       cell (knownChunks (ex_disk s')) p
       = if recordReads (ex_disk s) && in_raw [e] p
         then Some (false, image p)
         else cell (knownChunks (ex_disk s)) p) /\
    (recordReads (ex_disk s) = false -> ex_disk s' = ex_disk s) /\
    (plan_calls offset [e] = [] -> ex_world s' = ex_world s).
Proof.
  intros Hg Hle Hlo Hhi Hoff Hfit Hinv Hchain.
  destruct e as [first last' | c]; simpl in Hg, Hle, Hlo, Hhi, Hoff.
  - (* a raw interval *)
    set (len := last' - first + 1).
    destruct (Hserves (ex_buffer s) (ex_offset s) len first
                (backend (ex_world s)) Hinv)
      as (n & b' & Hread & Hinv'); try (subst len; lia).
    assert (Hlen : Buf.length (image_bytes image first len) = len)
      by (apply image_bytes_length; subst len; lia).
    destruct (overwrite_spec (ex_buffer s) (image_bytes image first len)
                (ex_offset s)) as [Hl1 Hn1]; try (rewrite ?Hlen; subst len; lia).
    pose proof (slice_of_overwrite (ex_buffer s) (image_bytes image first len)
                  (ex_offset s)) as Hslice.
    rewrite Hlen in Hl1, Hn1, Hslice.
    specialize (Hslice ltac:(lia) ltac:(subst len; lia)).
    assert (Hbytes : forall k, 0 <= k ->
              nth_error
                (firstn (Z.to_nat (ex_offset s)) (ex_buffer s)
                 ++ image_bytes image first len
                 ++ skipn (Z.to_nat (ex_offset s + len)) (ex_buffer s))
                (Z.to_nat k)
              = if (first - offset <=? k) && (k <=? last' - offset)
                then Some (want (offset + k))
                else nth_error (ex_buffer s) (Z.to_nat k)).
    { intros k Hk. rewrite (Hn1 k Hk). rewrite Hoff.
      destruct (Z.leb_spec (first - offset) k);
        destruct (Z.ltb_spec k (first - offset + len));
        destruct (Z.leb_spec k (last' - offset));
        subst len; try lia; simpl; try reflexivity.
      replace (Z.to_nat (k - (first - offset)))
        with (Z.to_nat (k - (first - offset))) by reflexivity.
      rewrite image_bytes_nth by lia.
      rewrite Hg by lia. do 2 f_equal. lia. }
    unfold execEntry. fold len. rewrite Hread.
    destruct (recordReads (ex_disk s)) eqn:Hrr.
    + rewrite Hslice.
      destruct (insertChunk_cells
                  (BufferDiskChunk (image_bytes image first len) first) true
                  (knownChunks (ex_disk s)) Hchain)
        as (known' & Hins & Hchain' & Hcell).
      { unfold wf_chunk. simpl. rewrite Hlen. subst len. lia. }
      unfold _insertDiskChunk. rewrite Hins. simpl.
      eexists. split; [reflexivity|]. simpl.
      split; [subst len; lia|]. split; [exact Hl1|]. split; [exact Hbytes|].
      split; [exact Hinv'|].
      split; [rewrite Hoff; subst len; reflexivity|].
      split; [exact Hchain'|]. split; [reflexivity|].
      split; [|split; discriminate].
      intros p. rewrite (Hcell p), orb_false_r.
      rewrite cell_image_chunk by (subst len; lia).
      unfold coversb. simpl. rewrite Hlen.
      replace (first + len - 1) with last' by (subst len; lia).
      destruct ((first <=? p) && (p <=? last')); reflexivity.
    + eexists. split; [reflexivity|]. simpl.
      split; [subst len; lia|]. split; [exact Hl1|]. split; [exact Hbytes|].
      split; [exact Hinv'|].
      split; [rewrite Hoff; subst len; reflexivity|].
      split; [exact Hchain|].
      split; [symmetry; apply set_knownChunks_same|].
      split; [|split; [reflexivity|discriminate]].
      intros p. reflexivity.
  - (* a chunk *)
    destruct Hg as [Hwf Hg].
    destruct (data_bytes c Hwf) as (dat & Hdat & Hlen & Hnth).
    unfold chunk_length in Hlen, Hnth.
    rewrite (execEntry_chunk s c dat Hdat) by lia.
    destruct (overwrite_spec (ex_buffer s) dat (ex_offset s)) as [Hl1 Hn1];
      try lia.
    eexists. split; [reflexivity|]. simpl.
    split; [lia|]. split; [exact Hl1|]. split.
    { intros k Hk. rewrite (Hn1 k Hk). rewrite Hoff, Hlen.
      destruct (Z.leb_spec (start c - offset) k);
        destruct (Z.ltb_spec k (start c - offset + (end_ c - start c + 1)));
        destruct (Z.leb_spec k (end_ c - offset));
        try lia; simpl; try reflexivity.
      rewrite Hnth by lia. rewrite Hg by (unfold covers; lia).
      do 2 f_equal. lia. }
    split; [exact Hinv|]. split; [rewrite app_nil_r; reflexivity|].
    split; [exact Hchain|].
    split; [symmetry; apply set_knownChunks_same|].
    split; [|split; reflexivity].
    intros p. rewrite andb_false_r. reflexivity.
Qed.

(** A plan that tiles the rest of the request, run from where its first
    entry starts. *)
Lemma execPlan_gives (plan : list PlanEntry) :
  forall (from : Z) (s : ExecState B),
    tiles from plan last ->
    Forall (entry_gives want image) plan ->
    offset <= from ->
    ex_offset s = from - offset ->
    last - offset + 1 <= Buf.length (ex_buffer s) ->
    inv (backend (ex_world s)) ->
    chain (knownChunks (ex_disk s)) ->
    exists s',
      execPlan s plan = Fulfilled s' /\
      ex_offset s' = last + 1 - offset /\
      Buf.length (ex_buffer s') = Buf.length (ex_buffer s) /\
      (forall k, 0 <= k ->
         nth_error (ex_buffer s') (Z.to_nat k)
         = if (from - offset <=? k) && (k <=? last - offset)
           then Some (want (offset + k))
           else nth_error (ex_buffer s) (Z.to_nat k)) /\
      inv (backend (ex_world s')) /\
      calls (ex_world s') = calls (ex_world s) ++ plan_calls offset plan /\
      chain (knownChunks (ex_disk s')) /\
      ex_disk s' = set_knownChunks (ex_disk s) (knownChunks (ex_disk s')) /\
      (forall p,
         cell (knownChunks (ex_disk s')) p
         = if recordReads (ex_disk s) && in_raw plan p
           then Some (false, image p)
           else cell (knownChunks (ex_disk s)) p) /\
      (recordReads (ex_disk s) = false -> ex_disk s' = ex_disk s) /\
      (plan_calls offset plan = [] -> ex_world s' = ex_world s).
Proof.
  induction plan as [|e plan IH];
    intros from s Ht Hg Hlo Hoff Hfit Hinv Hchain.
  - simpl in Ht. exists s. split; [reflexivity|].
    split; [lia|]. split; [reflexivity|]. split.
    { intros k Hk.
      destruct (Z.leb_spec (from - offset) k);
        destruct (Z.leb_spec k (last - offset)); try lia; reflexivity. }
    split; [exact Hinv|]. split; [simpl; rewrite app_nil_r; reflexivity|].
    split; [exact Hchain|].
    split; [symmetry; apply set_knownChunks_same|].
    split; [|split; reflexivity].
    intros p. rewrite andb_false_r. reflexivity.
  - simpl in Ht. destruct Ht as (Hs & Hle & Hrest).
    inversion Hg as [|? ? Hge Hgrest]; subst.
    pose proof (tiles_le _ _ _ Hrest) as Hend.
    destruct (execEntry_gives e s Hge Hle) as
      (s1 & Hrun1 & Hoff1 & Hlen1 & Hbuf1 & Hinv1 & Hcalls1 & Hchain1 & Hdisk1
       & Hcell1 & Hsame1 & Hworld1); try assumption; try lia.
    assert (Hrr1 : recordReads (ex_disk s1) = recordReads (ex_disk s))
      by (rewrite Hdisk1; reflexivity).
    destruct (IH (entry_end e + 1) s1 Hrest Hgrest) as
      (s2 & Hrun2 & Hoff2 & Hlen2 & Hbuf2 & Hinv2 & Hcalls2 & Hchain2 & Hdisk2
       & Hcell2 & Hsame2 & Hworld2); try assumption; try lia.
    exists s2. cbn [execPlan]. rewrite Hrun1.
    split; [exact Hrun2|]. split; [exact Hoff2|]. split; [lia|]. split.
    { intros k Hk. rewrite (Hbuf2 k Hk), (Hbuf1 k Hk).
      destruct (Z.leb_spec (entry_end e + 1 - offset) k);
        destruct (Z.leb_spec k (last - offset));
        destruct (Z.leb_spec (entry_start e - offset) k);
        destruct (Z.leb_spec k (entry_end e - offset));
        try lia; reflexivity. }
    split; [exact Hinv2|].
    split.
    { rewrite Hcalls2, Hcalls1, <- app_assoc. f_equal.
      unfold plan_calls. simpl. rewrite app_nil_r. reflexivity. }
    split; [exact Hchain2|].
    split; [rewrite Hdisk2 at 1; rewrite Hdisk1; reflexivity|].
    split.
    { intros p. rewrite (Hcell2 p), (Hcell1 p), Hrr1, in_raw_cons.
      change (in_raw [e] p)
        with (match e with
              | RawInterval first last0 => (first <=? p) && (p <=? last0)
              | ChunkEntry _ => false
              end || false).
      rewrite orb_false_r.
      destruct (recordReads (ex_disk s)); [|reflexivity]. simpl.
      destruct (in_raw plan p); [rewrite orb_true_r; reflexivity|].
      rewrite orb_false_r. reflexivity. }
    split.
    { intros Hrr. rewrite Hsame2 by congruence. apply Hsame1. exact Hrr. }
    intros Hnone. change (e :: plan) with ([e] ++ plan) in Hnone.
    unfold plan_calls in Hnone. rewrite flat_map_app in Hnone.
    apply app_eq_nil in Hnone. destruct Hnone as [Hn1 Hn2].
    rewrite (Hworld2 Hn2). apply Hworld1. exact Hn1.
Qed.

End ReadContents.

(** ** The plan and what the store records *)

Lemma sorted_disjoint (plan : list PlanEntry) (e1 e2 : PlanEntry) :
  StronglySorted (fun a b => entry_end a < entry_start b) plan ->
  In e1 plan -> In e2 plan ->
  e1 = e2 \/ entry_end e1 < entry_start e2 \/ entry_end e2 < entry_start e1.
Proof.
  induction plan as [|e plan IH]; intros Hs H1 H2; [destruct H1|].
  inversion Hs as [|? ? Hs' Hall]; subst. rewrite Forall_forall in Hall.
  destruct H1 as [<-|H1]; destruct H2 as [<-|H2]; auto.
Qed.

Lemma tiles_entry (plan : list PlanEntry) (from to p : Z) :
  tiles from plan to -> from <= p <= to ->
  exists e, In e plan /\ entry_start e <= p <= entry_end e.
Proof.
  revert from. induction plan as [|e plan IH]; simpl; intros from Ht Hp; [lia|].
  destruct Ht as (Hs & Hle & Hrest).
  destruct (Z.le_gt_cases p (entry_end e)).
  - exists e. split; [auto|lia].
  - destruct (IH _ Hrest) as (e' & He' & Hp'); [lia|]. exists e'. auto.
Qed.

Lemma in_raw_true (plan : list PlanEntry) (p : Z) :
  in_raw plan p = true <->
  exists first last', In (RawInterval first last') plan /\ first <= p <= last'.
Proof.
  unfold in_raw. rewrite existsb_exists. split.
  - intros ([first last' | c] & Hin & Hp); [|discriminate].
    apply andb_true_iff in Hp. rewrite !Z.leb_le in Hp. eauto.
  - intros (first & last' & Hin & Hp). exists (RawInterval first last').
    split; [assumption|]. apply andb_true_iff. rewrite !Z.leb_le. assumption.
Qed.

Lemma readable_chain (d : Disk) :
  chain (knownChunks d) -> chain (readableChunks d).
Proof.
  intros H. unfold readableChunks.
  destruct (negb (discardIsZero d)); [apply chain_filter|]; assumption.
Qed.

(** The entries of a plan against the store it was made from. *)
Lemma plan_entries (d : Disk) (offset length : Z) :
  1 <= length -> chain (knownChunks d) ->
  let last' := offset + length - 1 in
  let plan := _createReadPlan d offset length in
  tiles offset plan last' /\
  (forall c', In (ChunkEntry c') plan ->
     wf_chunk c' /\
     forall p, covers c' p ->
       exists k b, cell (readableChunks d) p = Some (k, b) /\
                   byte_at c' p = Some b) /\
  (forall first l, In (RawInterval first l) plan ->
     offset <= first /\ first <= l /\ l <= last' /\
     forall p, first <= p <= l -> cell (readableChunks d) p = None).
Proof.
  intros Hlen Hchain last' plan.
  destruct (createReadPlan_spec d offset length Hlen Hchain) as [Ht Hp].
  fold (readableChunks d) in Hp. fold plan in Ht, Hp. fold last' in Ht, Hp.
  pose proof (readable_chain d Hchain) as Hrc.
  destruct (tiles_sorted _ _ _ Ht) as [Hbounds Hsorted].
  rewrite Forall_forall in Hbounds.
  assert (Hchunks : forall c', In (ChunkEntry c') plan ->
            exists c, In c (readableChunks d) /\
                      meets offset last' c = true /\ c' = clip offset last' c).
  { intros c' Hc'. apply in_plan_chunks in Hc'. rewrite Hp in Hc'.
    apply in_map_iff in Hc'. destruct Hc' as (c & <- & Hc).
    apply filter_In in Hc. exists c. tauto. }
  split; [exact Ht|]. split.
  - intros c' Hc'. destruct (Hchunks c' Hc') as (c & Hc & Hm & ->).
    destruct (clip_interval _ _ _ Hm) as [Hs He].
    pose proof Hm as Hm'. unfold meets in Hm'. rewrite Z.leb_le in Hm'.
    split; [unfold wf_chunk; lia|].
    intros p Hcov. unfold covers in Hcov.
    assert (Hcp : coversb c p = true) by (apply coversb_covers; unfold covers; lia).
    destruct (byte_at_covered c p Hcp) as [b Hb].
    exists (isDiscard c), b. split.
    + rewrite (cell_chain_in _ c p Hrc Hc Hcp), Hb. reflexivity.
    + unfold clip. rewrite byte_at_slice by lia. exact Hb.
  - intros first l Hin. specialize (Hbounds _ Hin). simpl in Hbounds.
    assert (Hfl : first <= l).
    { clear - Ht Hin. revert Ht. generalize offset.
      induction plan as [|e plan IH]; [destruct Hin|].
      simpl. intros from (Hs & Hle & Hrest). destruct Hin as [->|Hin].
      - exact Hle.
      - eapply IH; eauto. }
    split; [lia|]. split; [exact Hfl|]. split; [lia|].
    intros p Hpr.
    destruct (cell (readableChunks d) p) as [[k b]|] eqn:Hcell; [|reflexivity].
    exfalso. apply cell_Some_in in Hcell.
    destruct Hcell as (c & Hc & Hcp & _).
    apply coversb_covers in Hcp. unfold covers in Hcp.
    assert (Hm : meets offset last' c = true) by (apply Z.leb_le; lia).
    destruct (clip_interval _ _ _ Hm) as [Hs He].
    assert (Hentry : In (ChunkEntry (clip offset last' c)) plan).
    { apply in_plan_chunks. rewrite Hp. apply in_map, filter_In. auto. }
    destruct (sorted_disjoint plan _ _ Hsorted Hin Hentry) as [Heq|[Hd|Hd]];
      [discriminate | simpl in Hd; lia | simpl in Hd; lia].
Qed.

Lemma overlay_cell (d : Disk) (image : Z -> byte) (p : Z) (k : bool) (b : byte) :
  cell (readableChunks d) p = Some (k, b) -> overlay d image p = b.
Proof. unfold overlay. intros ->. reflexivity. Qed.

Lemma overlay_none (d : Disk) (image : Z -> byte) (p : Z) :
  cell (readableChunks d) p = None -> overlay d image p = image p.
Proof. unfold overlay. intros ->. reflexivity. Qed.

Lemma plan_gives (d : Disk) (image : Z -> byte) (offset length : Z) :
  1 <= length -> chain (knownChunks d) ->
  Forall (entry_gives (overlay d image) image) (_createReadPlan d offset length).
Proof.
  intros Hlen Hchain.
  destruct (plan_entries d offset length Hlen Hchain) as (_ & Hch & Hraw).
  apply Forall_forall. intros [first l | c'] Hin; simpl.
  - intros p Hp. apply overlay_none.
    destruct (Hraw first l Hin) as (_ & _ & _ & Hnone). auto.
  - destruct (Hch c' Hin) as [Hwf Hbytes]. split; [exact Hwf|].
    intros p Hp. destruct (Hbytes p Hp) as (k & b & Hcell & Hb).
    rewrite Hb, (overlay_cell d image p k b Hcell). reflexivity.
Qed.

(** X4.  On a store that satisfies its invariant, the raw intervals of the
    plan for a request of [length >= 1] bytes are exactly the positions of
    the request for which no readable chunk records anything: the backend
    is asked for every position the overlay does not know and for no
    other. *)
Theorem createReadPlan_reads_unknown_positions (d : Disk) (offset length p : Z) :
  1 <= length -> store_ok (knownChunks d) ->
  in_raw (_createReadPlan d offset length) p = true <->
  offset <= p <= offset + length - 1 /\ cell (readableChunks d) p = None.
Proof.
  intros Hlen Hok. apply store_ok_chain in Hok.
  destruct (plan_entries d offset length Hlen Hok) as (Ht & Hch & Hraw).
  rewrite in_raw_true. split.
  - intros (first & l & Hin & Hp).
    destruct (Hraw first l Hin) as (? & ? & ? & Hnone).
    split; [lia|auto].
  - intros [Hp Hnone].
    destruct (tiles_entry _ _ _ p Ht Hp) as ([first l | c'] & Hin & Hpe);
      simpl in Hpe; [eauto|].
    destruct (Hch c' Hin) as [_ Hbytes].
    destruct (Hbytes p Hpe) as (k & b & Hcell & _). congruence.
Qed.

Lemma createReadPlan_reads_unknown_positions_witness :
  let d := mkDisk true true false false
             [DiscardDiskChunk 2 3; BufferDiskChunk [x01; x02; x03; x04] 10]
             None in
  in_raw (_createReadPlan d 0 12) 3 = true <->
  0 <= 3 <= 0 + 12 - 1 /\ cell (readableChunks d) 3 = None.
Proof.
  intro d. apply createReadPlan_reads_unknown_positions.
  - lia.
  - apply store_ok_chain. split; repeat constructor;
      unfold wf_chunk, before; simpl; lia.
Defined.

Section ReadOverlay.

Context {B E : Type} {hooks : Hooks B E}.

Variables (inv : B -> Prop) (image : Z -> byte).

(** A read over a backend that serves the requested range. *)
Lemma read_overlay (d : Disk) (dest : Buffer)
  (bufferOffset length offset : Z) (w : World B) :
  chain (knownChunks d) ->
  1 <= length -> length <= Buf.length dest ->
  serves inv image offset (offset + length - 1) ->
  inv (backend w) ->
  let plan := _createReadPlan d offset length in
  exists s,
    read d dest bufferOffset length offset w = (ReadOk length (ex_buffer s), s) /\
    Buf.length (ex_buffer s) = Buf.length dest /\
    (forall k, 0 <= k ->
       nth_error (ex_buffer s) (Z.to_nat k)
       = if k <? length then Some (overlay d image (offset + k))
         else nth_error dest (Z.to_nat k)) /\
    inv (backend (ex_world s)) /\
    calls (ex_world s) = calls w ++ plan_calls offset plan /\
    chain (knownChunks (ex_disk s)) /\
    ex_disk s = set_knownChunks d (knownChunks (ex_disk s)) /\
    (forall p,
       cell (knownChunks (ex_disk s)) p
       = if recordReads d && in_raw plan p
         then Some (false, image p)
         else cell (knownChunks d) p) /\
    (recordReads d = false -> ex_disk s = d) /\
    (plan_calls offset plan = [] -> ex_world s = w).
Proof.
  intros Hchain Hlen Hfit Hserves Hinv plan.
  destruct (plan_entries d offset length Hlen Hchain) as (Ht & _).
  destruct (execPlan_gives inv image (overlay d image) offset
              (offset + length - 1) Hserves plan offset (mkExec dest 0 d w)
              Ht (plan_gives d image offset length Hlen Hchain))
    as (s & Hrun & Hoff & Hl & Hbuf & Hinv' & Hcalls & Hchain' & Hdisk
        & Hcell & Hsame & Hworld); simpl; try lia; try assumption.
  simpl in *. exists s. unfold read, _readAccordingToPlan. fold plan.
  rewrite Hrun. replace (ex_offset s) with length by lia.
  split; [reflexivity|]. split; [exact Hl|]. split.
  { intros k Hk. rewrite (Hbuf k Hk).
    destruct (Z.leb_spec (offset - offset) k); [|lia].
    destruct (Z.leb_spec k (offset + length - 1 - offset));
      destruct (Z.ltb_spec k length); try lia; reflexivity. }
  repeat (split; [assumption|]). assumption.
Qed.

(** X3.  On a store that satisfies its invariant and over a backend whose
    read hook serves the bytes of [image] for the requested range, a read
    of [length >= 1] bytes into a destination that can hold them reports
    [length] bytes read; byte [k] of the destination is then the byte of
    position [offset + k] as recorded by the readable chunk that contains
    it, and the byte of the backend where there is none; the destination
    keeps its length and its bytes from [length] on.  The store satisfies
    its invariant afterwards, and without [recordReads] the disk is
    unchanged. *)
Theorem read_returns_overlay (d : Disk) (dest : Buffer)
  (bufferOffset length offset : Z) (w : World B) :
  store_ok (knownChunks d) ->
  1 <= length -> length <= Buf.length dest ->
  serves inv image offset (offset + length - 1) ->
  inv (backend w) ->
  exists s,
    read d dest bufferOffset length offset w = (ReadOk length (ex_buffer s), s) /\
    Buf.length (ex_buffer s) = Buf.length dest /\
    (forall k, 0 <= k ->
       nth_error (ex_buffer s) (Z.to_nat k)
       = if k <? length then Some (overlay d image (offset + k))
         else nth_error dest (Z.to_nat k)) /\
    store_ok (knownChunks (ex_disk s)) /\
    (recordReads d = false -> ex_disk s = d).
Proof.
  intros Hok Hlen Hfit Hserves Hinv. apply store_ok_chain in Hok.
  destruct (read_overlay d dest bufferOffset length offset w Hok Hlen Hfit
              Hserves Hinv)
    as (s & Hread & Hl & Hbuf & _ & _ & Hchain & _ & _ & Hsame & _).
  exists s. split; [exact Hread|]. split; [exact Hl|]. split; [exact Hbuf|].
  split; [apply store_ok_chain; exact Hchain | exact Hsame].
Qed.

End ReadOverlay.

Lemma MemHooks_serves (m : MemBackend) (lo hi : Z) :
  hi < bad m -> serves (fun b => b = m) (image m) lo hi.
Proof.
  intros Hbad buffer bufferOffset length fileOffset b -> Hbo Hlen Hfit Hlo Hhi.
  exists length, m. split; [|reflexivity]. simpl.
  destruct (Z.ltb_spec (bad m) (fileOffset + length)); [lia|].
  assert (Hbytes : mem_bytes m fileOffset length
                   = image_bytes (image m) fileOffset length) by reflexivity.
  rewrite Hbytes.
  rewrite Buf_copy_prefix
    by (rewrite ?image_bytes_length; lia).
  rewrite (firstn_all2 (n := Z.to_nat length))
    by (unfold image_bytes; rewrite length_map, length_seq; lia).
  reflexivity.
Qed.

Lemma read_returns_overlay_witness :
  let m := mkMem (fun _ => x41) 100 None in
  let d := mkDisk true true false true
             [BufferDiskChunk [x01; x02] 10; DiscardDiskChunk 13 2] None in
  exists s,
    read d (repeat x00 8) 0 6 9 (mkWorld m [])
    = (ReadOk 6 (ex_buffer s), s) /\
    firstn 6 (ex_buffer s) = [x41; x01; x02; x41; x00; x00].
Proof.
  intros m d.
  destruct (@read_returns_overlay MemBackend unit MemHooks (fun b => b = m)
              (image m) d (repeat x00 8) 0 6 9 (mkWorld m []))
    as (s & Hread & _).
  - apply store_ok_chain. split; repeat constructor;
      unfold wf_chunk, before; simpl; lia.
  - lia.
  - unfold Buf.length; simpl; lia.
  - apply MemHooks_serves. simpl. lia.
  - reflexivity.
  - exists s. split; [exact Hread|].
    assert (Hs : s = snd (read d (repeat x00 8) 0 6 9 (mkWorld m [])))
      by (rewrite Hread; reflexivity).
    rewrite Hs. reflexivity.
Defined.

(** ** Reads after writes and discards *)

Lemma cell_None_iff (l : list DiskChunk) (p : Z) :
  cell l p = None <-> forall x, In x l -> coversb x p = false.
Proof.
  split; [|apply cell_none].
  induction l as [|x l IH]; intros H y Hy; [destruct Hy|].
  rewrite cell_cons in H. destruct (coversb x p) eqn:Hx.
  - destruct (byte_at_covered x p Hx) as [b Hb]. rewrite Hb in H. discriminate.
  - destruct Hy as [<-|Hy]; auto.
Qed.

(** What read planning sees of a store: the data, and the discards when
    they read as zero. *)
Lemma cell_readable (d : Disk) (p : Z) :
  chain (knownChunks d) ->
  cell (readableChunks d) p
  = match cell (knownChunks d) p with
    | Some (k, b) => if discardIsZero d || negb k then Some (k, b) else None
    | None => None
    end.
Proof.
  intros Hchain. unfold readableChunks.
  destruct (discardIsZero d); simpl.
  { destruct (cell (knownChunks d) p) as [[k b]|]; reflexivity. }
  destruct (cell (knownChunks d) p) as [[k b]|] eqn:Hcell.
  - apply cell_Some_in in Hcell. destruct Hcell as (c & Hc & Hcp & Hk & Hb).
    destruct k; simpl.
    + apply cell_none. intros x Hx. apply filter_In in Hx.
      destruct Hx as [Hx Hnd]. destruct (coversb x p) eqn:Hxp; [|reflexivity].
      pose proof (cell_chain_in _ x p Hchain Hx Hxp) as H1.
      pose proof (cell_chain_in _ c p Hchain Hc Hcp) as H2.
      rewrite H1 in H2. rewrite Hb, Hk in H2.
      destruct (byte_at_covered x p Hxp) as [b' Hb']. rewrite Hb' in H2.
      apply negb_true_iff in Hnd. rewrite Hnd in H2. discriminate.
    + rewrite (cell_chain_in _ c p (chain_filter _ _ Hchain)); try assumption.
      * rewrite Hb, Hk. reflexivity.
      * apply filter_In. rewrite Hk. auto.
  - apply cell_none. intros x Hx. apply filter_In in Hx.
    apply (proj1 (cell_None_iff _ _) Hcell). tauto.
Qed.

Lemma overlay_same (d d' : Disk) (image : Z -> byte) (p : Z) :
  chain (knownChunks d) -> chain (knownChunks d') ->
  discardIsZero d' = discardIsZero d ->
  cell (knownChunks d') p = cell (knownChunks d) p ->
  overlay d' image p = overlay d image p.
Proof.
  intros Hc Hc' Hdz Hcell. unfold overlay.
  rewrite (cell_readable d p Hc), (cell_readable d' p Hc'), Hdz, Hcell.
  reflexivity.
Qed.

Lemma overlay_recorded (d : Disk) (image : Z -> byte) (p : Z) (k : bool)
  (b : byte) :
  chain (knownChunks d) ->
  cell (knownChunks d) p = Some (k, b) ->
  overlay d image p = if discardIsZero d || negb k then b else image p.
Proof.
  intros Hc Hcell. unfold overlay.
  rewrite (cell_readable d p Hc), Hcell.
  destruct (discardIsZero d || negb k); reflexivity.
Qed.

Lemma discarded_cell (d : Disk) (p : Z) :
  chain (knownChunks d) ->
  (exists c, In c (getDiscardedChunks d) /\ covers c p) <->
  exists b, cell (knownChunks d) p = Some (true, b).
Proof.
  intros Hchain. unfold getDiscardedChunks. split.
  - intros (c & Hc & Hp). apply filter_In in Hc. destruct Hc as [Hc Hd].
    apply coversb_covers in Hp.
    destruct (byte_at_covered c p Hp) as [b Hb]. exists b.
    rewrite (cell_chain_in _ c p Hchain Hc Hp), Hb, Hd. reflexivity.
  - intros [b Hcell]. apply cell_Some_in in Hcell.
    destruct Hcell as (c & Hc & Hcp & Hk & _).
    exists c. split; [apply filter_In; auto | apply coversb_covers; assumption].
Qed.

Lemma cell_discard_chunk (offset length p : Z) :
  cell [DiscardDiskChunk offset length] p
  = if (offset <=? p) && (p <=? offset + length - 1)
    then Some (true, x00) else None.
Proof.
  rewrite cell_cons. unfold coversb, byte_at. simpl.
  destruct ((offset <=? p) && (p <=? offset + length - 1)); reflexivity.
Qed.

(** X8.  On a store that satisfies its invariant, [discard(offset, length)]
    with [length >= 1] returns and keeps the invariant, and the positions
    that [getDiscardedChunks] reports afterwards are exactly those of
    [offset .. offset+length-1] together with those it reported before. *)
Theorem discard_adds_exactly_its_range (d : Disk) (offset length : Z) :
  store_ok (knownChunks d) -> 1 <= length ->
  exists d',
    discard d offset length = Some d' /\
    store_ok (knownChunks d') /\
    forall p,
      (exists c, In c (getDiscardedChunks d') /\ covers c p) <->
      offset <= p <= offset + length - 1 \/
      (exists c, In c (getDiscardedChunks d) /\ covers c p).
Proof.
  intros Hok Hlen. apply store_ok_chain in Hok.
  destruct (insertChunk_cells (DiscardDiskChunk offset length) true
              (knownChunks d) Hok)
    as (known' & Hins & Hchain & Hcell); [unfold wf_chunk; simpl; lia|].
  unfold discard, _insertDiskChunk. rewrite Hins.
  eexists. split; [reflexivity|]. simpl.
  split; [apply store_ok_chain; exact Hchain|].
  intros p.
  rewrite (discarded_cell (set_knownChunks d known') p Hchain).
  rewrite (discarded_cell d p Hok). simpl.
  rewrite (Hcell p), cell_discard_chunk. unfold coversb. simpl.
  destruct (Z.leb_spec offset p) as [H1|H1];
    destruct (Z.leb_spec p (offset + length - 1)) as [H2|H2];
    simpl; split; intros Hx; eauto; try lia;
    try (destruct Hx as [Hx|Hx]; [lia|exact Hx]).
Qed.

Lemma discard_adds_exactly_its_range_witness :
  let d := mkDisk true true false true [DiscardDiskChunk 0 4] None in
  exists d',
    discard d 10 5 = Some d' /\
    ((exists c, In c (getDiscardedChunks d') /\ covers c 12) <->
     10 <= 12 <= 10 + 5 - 1 \/
     (exists c, In c (getDiscardedChunks d) /\ covers c 12)).
Proof.
  intro d.
  destruct (discard_adds_exactly_its_range d 10 5) as (d' & Hrun & _ & Hp).
  - apply store_ok_chain. split; repeat constructor. unfold wf_chunk; simpl; lia.
  - lia.
  - exists d'. split; [exact Hrun | apply Hp].
Defined.

Lemma no_raw_calls (offset : Z) (plan : list PlanEntry) :
  (forall first l, ~ In (RawInterval first l) plan) ->
  plan_calls offset plan = [].
Proof.
  induction plan as [|e plan IH]; intros H; [reflexivity|].
  destruct e as [first l | c].
  - exfalso. apply (H first l). simpl. auto.
  - simpl. apply IH. intros first l Hin. apply (H first l). simpl. auto.
Qed.

Lemma write_chunk_interval (d : Disk) (buffer : Buffer)
  (bufferOffset length fileOffset : Z) :
  1 <= length ->
  (recordWrites d = true ->
   0 <= bufferOffset /\ bufferOffset + length <= Buf.length buffer) ->
  let chunk := if recordWrites d
               then BufferDiskChunk
                      (Buf.slice buffer bufferOffset (bufferOffset + length))
                      fileOffset
               else DiscardDiskChunk fileOffset length in
  wf_chunk chunk /\
  (forall p, coversb chunk p
             = (fileOffset <=? p) && (p <=? fileOffset + length - 1)) /\
  (recordWrites d = true -> isDiscard chunk = false).
Proof.
  intros Hlen Hbuf chunk. subst chunk. unfold wf_chunk, coversb.
  destruct (recordWrites d); simpl.
  - destruct (Hbuf eq_refl). rewrite Buf_slice_length by lia.
    replace (fileOffset + (bufferOffset + length - bufferOffset) - 1)
      with (fileOffset + length - 1) by lia.
    repeat split; lia.
  - repeat split; try lia; discriminate.
Qed.

Section WriteBookkeeping.

Context {B E : Type} {hooks : Hooks B E}.

(** X9.  On a store that satisfies its invariant, a write of
    [length >= 1] bytes (taken from inside the source buffer when writes
    are recorded) changes the discards only over the written positions:
    [getDiscardedChunks] reports afterwards exactly the positions it
    reported before that lie outside of the written range. *)
Theorem write_keeps_other_discards (d : Disk) (buffer : Buffer)
  (bufferOffset length fileOffset : Z) (w : World B) :
  store_ok (knownChunks d) -> 1 <= length ->
  (recordWrites d = true ->
   0 <= bufferOffset /\ bufferOffset + length <= Buf.length buffer) ->
  exists cb d' w',
    write d buffer bufferOffset length fileOffset w = Some (cb, d', w') /\
    forall p,
      (exists c, In c (getDiscardedChunks d') /\ covers c p) <->
      ~ (fileOffset <= p <= fileOffset + length - 1) /\
      (exists c, In c (getDiscardedChunks d) /\ covers c p).
Proof.
  intros Hok Hlen Hbuf. apply store_ok_chain in Hok.
  destruct (write_chunk_interval d buffer bufferOffset length fileOffset
              Hlen Hbuf) as (Hwf & Hcov & Hkind).
  destruct (insertChunk_cells _ (recordWrites d) (knownChunks d) Hok Hwf)
    as (known' & Hins & Hchain & Hcell).
  destruct (write_store d buffer bufferOffset length fileOffset w known' Hins)
    as (cb & w' & Hw & _).
  exists cb, (set_knownChunks d known'), w'. split; [exact Hw|].
  intros p.
  rewrite (discarded_cell (set_knownChunks d known') p Hchain).
  rewrite (discarded_cell d p Hok). simpl.
  rewrite (Hcell p), (Hcov p).
  destruct (Z.leb_spec fileOffset p) as [H1|H1];
    destruct (Z.leb_spec p (fileOffset + length - 1)) as [H2|H2];
    simpl; try (split; [intros Hx; split; [lia|exact Hx] | tauto]).
  split; [|lia]. intros [b Hb]. exfalso.
  destruct (recordWrites d) eqn:Hrw; [|discriminate].
  rewrite cell_cons, (Hkind eq_refl) in Hb.
  destruct (coversb _ p); [|discriminate].
  destruct (byte_at _ p); discriminate.
Qed.

End WriteBookkeeping.

Section ReadsAfterUpdates.

Context {B E : Type} {hooks : Hooks B E}.

Variables (inv : B -> Prop) (image : Z -> byte).

(** X5.  On a disk that records writes and whose store satisfies its
    invariant, after a write of [N >= 1] bytes at [O] every read of
    [length >= 1] bytes over a backend that serves the range gives, for
    each position, the written byte where the position lies in
    [O .. O+N-1] and the byte a read before the write would have given
    everywhere else. *)
Theorem read_after_write (d : Disk) (buffer dest : Buffer)
  (bufferOffset N O readOffset length offset : Z) (w : World B) :
  recordWrites d = true ->
  store_ok (knownChunks d) ->
  1 <= N -> 0 <= bufferOffset -> bufferOffset + N <= Buf.length buffer ->
  1 <= length -> length <= Buf.length dest ->
  serves inv image offset (offset + length - 1) ->
  let written := Buf.slice buffer bufferOffset (bufferOffset + N) in
  exists cb d1 w1,
    write d buffer bufferOffset N O w = Some (cb, d1, w1) /\
    (inv (backend w1) ->
     exists s,
       read d1 dest readOffset length offset w1
       = (ReadOk length (ex_buffer s), s) /\
       forall k, 0 <= k < length ->
         nth_error (ex_buffer s) (Z.to_nat k)
         = if (O <=? offset + k) && (offset + k <? O + N)
           then nth_error written (Z.to_nat (offset + k - O))
           else Some (overlay d image (offset + k))).
Proof.
  intros Hrw Hok HN Hbo Hbuf Hlen Hfit Hserves written.
  apply store_ok_chain in Hok.
  assert (Hlw : Buf.length written = N)
    by (subst written; rewrite Buf_slice_length; lia).
  set (c := BufferDiskChunk written O).
  assert (Hwf : wf_chunk c) by (unfold wf_chunk; simpl; lia).
  destruct (insertChunk_cells c true (knownChunks d) Hok Hwf)
    as (known' & Hins & Hchain & Hcell).
  destruct (write_store d buffer bufferOffset N O w known')
    as (cb & w1 & Hw & _); [rewrite Hrw; exact Hins|].
  exists cb, (set_knownChunks d known'), w1. split; [exact Hw|].
  intros Hinv.
  destruct (read_overlay inv image (set_knownChunks d known') dest readOffset
              length offset w1 Hchain Hlen Hfit Hserves Hinv)
    as (s & Hread & _ & Hbytes & _).
  exists s. split; [exact Hread|].
  intros k Hk. rewrite (Hbytes k) by lia.
  destruct (Z.ltb_spec k length); [|lia].
  set (p := offset + k). specialize (Hcell p).
  assert (Hcov : coversb c p = (O <=? p) && (p <? O + N)).
  { unfold coversb. simpl. rewrite Hlw.
    destruct (Z.leb_spec O p); destruct (Z.leb_spec p (O + N - 1));
      destruct (Z.ltb_spec p (O + N)); try lia; reflexivity. }
  rewrite <- Hcov. destruct (coversb c p) eqn:Hcp.
  - rewrite cell_cons, Hcp in Hcell.
    destruct (byte_at_covered c p Hcp) as [b Hb]. rewrite Hb in Hcell.
    simpl in Hcell.
    rewrite (overlay_recorded (set_knownChunks d known') image p false b
               Hchain Hcell).
    rewrite orb_true_r. unfold byte_at in Hb. fold (coversb c p) in Hb.
    rewrite Hcp in Hb. simpl in Hb. rewrite Hb. reflexivity.
  - f_equal. apply (overlay_same d (set_knownChunks d known')); auto.
Qed.

(** X6.  On a store that satisfies its invariant, after
    [discard(O, N)] with [N >= 1] every read of [length >= 1] bytes over a
    backend that serves the range gives, for a position in [O .. O+N-1],
    zero when discards read as zero and the byte of the backend when they
    do not, whatever the store recorded there before, and for every other
    position the byte a read before the discard would have given. *)
Theorem read_after_discard (d : Disk) (dest : Buffer)
  (N O readOffset length offset : Z) (w : World B) :
  store_ok (knownChunks d) ->
  1 <= N -> 1 <= length -> length <= Buf.length dest ->
  serves inv image offset (offset + length - 1) ->
  inv (backend w) ->
  exists d1 s,
    discard d O N = Some d1 /\
    read d1 dest readOffset length offset w = (ReadOk length (ex_buffer s), s) /\
    forall k, 0 <= k < length ->
      nth_error (ex_buffer s) (Z.to_nat k)
      = Some (if (O <=? offset + k) && (offset + k <=? O + N - 1)
              then (if discardIsZero d then x00 else image (offset + k))
              else overlay d image (offset + k)).
Proof.
  intros Hok HN Hlen Hfit Hserves Hinv. apply store_ok_chain in Hok.
  destruct (insertChunk_cells (DiscardDiskChunk O N) true (knownChunks d) Hok)
    as (known' & Hins & Hchain & Hcell); [unfold wf_chunk; simpl; lia|].
  destruct (read_overlay inv image (set_knownChunks d known') dest readOffset
              length offset w Hchain Hlen Hfit Hserves Hinv)
    as (s & Hread & _ & Hbytes & _).
  exists (set_knownChunks d known'), s.
  split; [unfold discard, _insertDiskChunk; rewrite Hins; reflexivity|].
  split; [exact Hread|].
  intros k Hk. rewrite (Hbytes k) by lia.
  destruct (Z.ltb_spec k length); [|lia]. f_equal.
  set (p := offset + k). specialize (Hcell p).
  rewrite cell_discard_chunk in Hcell. unfold coversb in Hcell.
  simpl in Hcell.
  destruct ((O <=? p) && (p <=? O + N - 1)).
  - rewrite (overlay_recorded (set_knownChunks d known') image p true x00
               Hchain Hcell). simpl.
    rewrite orb_false_r. reflexivity.
  - apply (overlay_same d (set_knownChunks d known')); auto.
Qed.

End ReadsAfterUpdates.

(** ** Recorded reads *)

Section RecordedReads.

Context {B E : Type} {hooks : Hooks B E}.

Variables (inv : B -> Prop) (image : Z -> byte).

(** After a recorded read, every position of the request is recorded by a
    readable chunk, with the byte the read returned. *)
Lemma recorded_read_covers (d : Disk) (offset length : Z)
  (known1 : list DiskChunk) :
  recordReads d = true -> chain (knownChunks d) -> 1 <= length ->
  chain known1 ->
  (forall p,
     cell known1 p
     = if recordReads d && in_raw (_createReadPlan d offset length) p
       then Some (false, image p)
       else cell (knownChunks d) p) ->
  forall p, offset <= p <= offset + length - 1 ->
    (exists k b, cell (readableChunks (set_knownChunks d known1)) p = Some (k, b))
    /\ overlay (set_knownChunks d known1) image p = overlay d image p.
Proof.
  intros Hrr Hchain Hlen Hchain1 Hcell1 p Hp.
  destruct (plan_entries d offset length Hlen Hchain) as (Ht & Hch & Hraw).
  specialize (Hcell1 p). rewrite Hrr in Hcell1. simpl in Hcell1.
  pose proof (cell_readable (set_knownChunks d known1) p Hchain1) as Hr1.
  simpl in Hr1.
  destruct (in_raw (_createReadPlan d offset length) p) eqn:Hin.
  - rewrite Hcell1, orb_true_r in Hr1. split; [eauto|].
    rewrite (overlay_cell _ image p _ _ Hr1).
    apply in_raw_true in Hin. destruct Hin as (first & l & Hin & Hpl).
    destruct (Hraw first l Hin) as (_ & _ & _ & Hnone).
    rewrite (overlay_none d image p (Hnone p Hpl)). reflexivity.
  - destruct (tiles_entry _ _ _ p Ht Hp) as ([first l | c'] & He & Hpe);
      simpl in Hpe.
    + assert (Htrue : in_raw (_createReadPlan d offset length) p = true)
        by (apply in_raw_true; eauto).
      congruence.
    + destruct (Hch c' He) as [_ Hbytes].
      destruct (Hbytes p Hpe) as (k & b & Hcell & _).
      pose proof (cell_readable d p Hchain) as Hr. rewrite Hcell in Hr.
      rewrite Hcell1 in Hr1. rewrite <- Hr in Hr1.
      split; [eauto|].
      rewrite (overlay_cell _ image p _ _ Hr1).
      rewrite (overlay_cell d image p _ _ Hcell). reflexivity.
Qed.

(** X7.  With [recordReads], on a store that satisfies its invariant and
    over a backend that serves the requested range, a read records what it
    fetched: the same read made again succeeds without a single hook call,
    leaving the world as the first read left it, and returns the same
    bytes. *)
Theorem recorded_read_is_not_repeated (d : Disk) (dest dest2 : Buffer)
  (bufferOffset bufferOffset2 length offset : Z) (w : World B) :
  recordReads d = true ->
  store_ok (knownChunks d) ->
  1 <= length -> length <= Buf.length dest -> length <= Buf.length dest2 ->
  serves inv image offset (offset + length - 1) ->
  inv (backend w) ->
  exists s1 s2,
    read d dest bufferOffset length offset w
    = (ReadOk length (ex_buffer s1), s1) /\
    read (ex_disk s1) dest2 bufferOffset2 length offset (ex_world s1)
    = (ReadOk length (ex_buffer s2), s2) /\
    ex_world s2 = ex_world s1 /\
    forall k, 0 <= k < length ->
      nth_error (ex_buffer s2) (Z.to_nat k)
      = nth_error (ex_buffer s1) (Z.to_nat k).
Proof.
  intros Hrr Hok Hlen Hfit Hfit2 Hserves Hinv. apply store_ok_chain in Hok.
  destruct (read_overlay inv image d dest bufferOffset length offset w
              Hok Hlen Hfit Hserves Hinv)
    as (s1 & Hread1 & _ & Hbytes1 & Hinv1 & _ & Hchain1 & Hdisk1 & Hcell1 & _).
  pose proof (recorded_read_covers d offset length (knownChunks (ex_disk s1))
                Hrr Hok Hlen Hchain1 Hcell1) as Hcov.
  rewrite <- Hdisk1 in Hcov.
  destruct (read_overlay inv image (ex_disk s1) dest2 bufferOffset2 length
              offset (ex_world s1) Hchain1 Hlen Hfit2 Hserves Hinv1)
    as (s2 & Hread2 & _ & Hbytes2 & _ & _ & _ & _ & _ & _ & Hworld2).
  exists s1, s2. split; [exact Hread1|]. split; [exact Hread2|]. split.
  - apply Hworld2. apply no_raw_calls. intros first l Hin.
    destruct (plan_entries (ex_disk s1) offset length Hlen Hchain1)
      as (_ & _ & Hraw).
    destruct (Hraw first l Hin) as (H1 & H2 & H3 & Hnone).
    destruct (Hcov first ltac:(lia)) as [(k & b & Hsome) _].
    rewrite (Hnone first ltac:(lia)) in Hsome. discriminate.
  - intros k Hk. rewrite (Hbytes2 k), (Hbytes1 k) by lia.
    destruct (Z.ltb_spec k length); [|lia]. f_equal.
    apply Hcov. lia.
Qed.

End RecordedReads.

(** ** The theorems on reads at concrete disks *)

Lemma recorded_read_is_not_repeated_witness :
  let m := mkMem (fun _ => x41) 100 None in
  let d := mkDisk true true true false
             [BufferDiskChunk [x01; x02] 10; DiscardDiskChunk 13 2] None in
  exists s1 s2,
    read d (repeat x00 8) 0 6 9 (mkWorld m []) = (ReadOk 6 (ex_buffer s1), s1) /\
    read (ex_disk s1) (repeat x00 6) 0 6 9 (ex_world s1)
    = (ReadOk 6 (ex_buffer s2), s2) /\
    ex_world s2 = ex_world s1.
Proof.
  intros m d.
  destruct (@recorded_read_is_not_repeated MemBackend unit MemHooks
              (fun b => b = m) (image m) d (repeat x00 8) (repeat x00 6)
              0 0 6 9 (mkWorld m []))
    as (s1 & s2 & H1 & H2 & Hw & _).
  - reflexivity.
  - apply store_ok_chain. split; repeat constructor;
      unfold wf_chunk, before; simpl; lia.
  - lia.
  - unfold Buf.length; simpl; lia.
  - unfold Buf.length; simpl; lia.
  - apply MemHooks_serves. simpl. lia.
  - reflexivity.
  - exists s1, s2. auto.
Defined.

Lemma write_keeps_other_discards_witness :
  let m := mkMem (fun _ => x41) 100 None in
  let d := mkDisk true false false true [DiscardDiskChunk 5 10] None in
  exists cb d' w',
    write d [x59; x59] 0 2 6 (mkWorld m []) = Some (cb, d', w') /\
    ((exists c, In c (getDiscardedChunks d') /\ covers c 9) <->
     ~ (6 <= 9 <= 6 + 2 - 1) /\
     (exists c, In c (getDiscardedChunks d) /\ covers c 9)).
Proof.
  intros m d.
  destruct (@write_keeps_other_discards MemBackend unit MemHooks d
              [x59; x59] 0 2 6 (mkWorld m []))
    as (cb & d' & w' & Hw & Hp).
  - apply store_ok_chain. split; repeat constructor. unfold wf_chunk; simpl; lia.
  - lia.
  - discriminate.
  - exists cb, d', w'. split; [exact Hw | apply Hp].
Defined.

Lemma read_after_write_witness :
  let m := mkMem (fun _ => x41) 100 None in
  let d := mkDisk true true false true
             [BufferDiskChunk [x01; x02; x03; x04] 10] None in
  exists cb d1 w1 s,
    write d [x59; x59] 0 2 11 (mkWorld m []) = Some (cb, d1, w1) /\
    read d1 (repeat x00 6) 0 6 9 w1 = (ReadOk 6 (ex_buffer s), s) /\
    nth_error (ex_buffer s) 2 = Some x59 /\
    nth_error (ex_buffer s) 4 = Some x04.
Proof.
  intros m d.
  destruct (@read_after_write MemBackend unit MemHooks (fun b => b = m)
              (image m) d [x59; x59] (repeat x00 6) 0 2 11 0 6 9
              (mkWorld m []))
    as (cb & d1 & w1 & Hw & Hr).
  - reflexivity.
  - apply store_ok_chain. split; repeat constructor. unfold wf_chunk; simpl; lia.
  - lia.
  - lia.
  - unfold Buf.length; simpl; lia.
  - lia.
  - unfold Buf.length; simpl; lia.
  - apply MemHooks_serves. simpl. lia.
  - assert (Hw1 : w1 = mkWorld m []).
    { assert (H : Some (cb, d1, w1)
                  = write d [x59; x59] 0 2 11 (mkWorld m []))
        by (symmetry; exact Hw).
      vm_compute in H. injection H as _ _ ->. reflexivity. }
    destruct (Hr ltac:(rewrite Hw1; reflexivity)) as (s & Hread & Hbytes).
    exists cb, d1, w1, s. split; [exact Hw|]. split; [exact Hread|].
    split.
    + change (nth_error (ex_buffer s) 2) with (nth_error (ex_buffer s) (Z.to_nat 2)).
      rewrite (Hbytes 2 ltac:(lia)). reflexivity.
    + change (nth_error (ex_buffer s) 4) with (nth_error (ex_buffer s) (Z.to_nat 4)).
      rewrite (Hbytes 4 ltac:(lia)). reflexivity.
Defined.

Lemma read_after_discard_witness :
  let m := mkMem (fun _ => x41) 100 None in
  let d := mkDisk true true false false
             [BufferDiskChunk [x01; x02; x03; x04] 10] None in
  exists d1 s,
    discard d 11 2 = Some d1 /\
    read d1 (repeat x00 6) 0 6 9 (mkWorld m []) = (ReadOk 6 (ex_buffer s), s) /\
    nth_error (ex_buffer s) 1 = Some x01 /\
    nth_error (ex_buffer s) 2 = Some x41.
Proof.
  intros m d.
  destruct (@read_after_discard MemBackend unit MemHooks (fun b => b = m)
              (image m) d (repeat x00 6) 2 11 0 6 9 (mkWorld m []))
    as (d1 & s & Hd & Hread & Hbytes).
  - apply store_ok_chain. split; repeat constructor. unfold wf_chunk; simpl; lia.
  - lia.
  - lia.
  - unfold Buf.length; simpl; lia.
  - apply MemHooks_serves. simpl. lia.
  - reflexivity.
  - exists d1, s. split; [exact Hd|]. split; [exact Hread|]. split.
    + change (nth_error (ex_buffer s) 1) with (nth_error (ex_buffer s) (Z.to_nat 1)).
      rewrite (Hbytes 1 ltac:(lia)). reflexivity.
    + change (nth_error (ex_buffer s) 2) with (nth_error (ex_buffer s) (Z.to_nat 2)).
      rewrite (Hbytes 2 ltac:(lia)). reflexivity.
Defined.

(** ** Streams *)

Lemma map_seq_shift {A : Type} (g : nat -> A) (n m : nat) :
  forall a, map g (seq (a + n) m) = map (fun k => g (k + n)%nat) (seq a m).
Proof.
  induction m as [|m IH]; intros a; [reflexivity|].
  simpl. f_equal. apply (IH (S a)).
Qed.

Lemma image_bytes_app (f : Z -> byte) (first n m : Z) :
  0 <= n -> 0 <= m ->
  image_bytes f first (n + m)
  = image_bytes f first n ++ image_bytes f (first + n) m.
Proof.
  intros Hn Hm. unfold image_bytes.
  rewrite Z2Nat.inj_add, seq_app, map_app by lia. f_equal.
  rewrite (map_seq_shift _ (Z.to_nat n) (Z.to_nat m) 0).
  apply map_ext. intros k. f_equal. lia.
Qed.

Lemma image_bytes_ext (f g : Z -> byte) (first n : Z) :
  (forall p, f p = g p) -> image_bytes f first n = image_bytes g first n.
Proof. intros H. apply map_ext. intros k. apply H. Qed.

Lemma image_bytes_none (f : Z -> byte) (first n : Z) :
  n <= 0 -> image_bytes f first n = [].
Proof.
  intros H. unfold image_bytes. replace (Z.to_nat n) with 0%nat by lia.
  reflexivity.
Qed.

Section StreamProperties.

Context {B E : Type} {hooks : Hooks B E}.

Variables (inv : B -> Prop) (image : Z -> byte).

Lemma serves_sub (lo hi lo' hi' : Z) :
  serves inv image lo hi -> lo <= lo' -> hi' <= hi ->
  serves inv image lo' hi'.
Proof.
  intros H Hlo Hhi buffer bufferOffset length fileOffset b Hb H1 H2 H3 H4 H5.
  apply H; try assumption; lia.
Qed.

(** A read into a buffer of exactly the requested length. *)
Lemma read_step (d : Disk) (dest : Buffer) (length offset : Z) (w : World B) :
  chain (knownChunks d) ->
  1 <= length -> Buf.length dest = length ->
  serves inv image offset (offset + length - 1) ->
  inv (backend w) ->
  exists s,
    read d dest 0 length offset w
    = (ReadOk length (image_bytes (overlay d image) offset length), s) /\
    chain (knownChunks (ex_disk s)) /\
    inv (backend (ex_world s)) /\
    forall p, overlay (ex_disk s) image p = overlay d image p.
Proof.
  intros Hchain Hlen Hdest Hserves Hinv.
  destruct (read_overlay inv image d dest 0 length offset w Hchain Hlen
              ltac:(lia) Hserves Hinv)
    as (s & Hread & Hl & Hbytes & Hinv' & _ & Hchain' & Hdisk & Hcell
        & Hsame & _).
  exists s.
  assert (Hbuf : ex_buffer s = image_bytes (overlay d image) offset length).
  { apply nth_error_ext. intros n.
    specialize (Hbytes (Z.of_nat n) ltac:(lia)). rewrite Nat2Z.id in Hbytes.
    rewrite Hbytes. destruct (Z.ltb_spec (Z.of_nat n) length).
    - rewrite image_bytes_nth by lia. reflexivity.
    - transitivity (@None byte); [|symmetry]; apply nth_error_None.
      + unfold Buf.length in Hdest. lia.
      + pose proof (image_bytes_length (overlay d image) offset length).
        unfold Buf.length in *. lia. }
  rewrite <- Hbuf. split; [exact Hread|]. split; [exact Hchain'|].
  split; [exact Hinv'|].
  intros p. destruct (recordReads d) eqn:Hrr; [|rewrite Hsame; reflexivity].
  destruct (Z_le_dec offset p) as [H1|H1];
    [destruct (Z_le_dec p (offset + length - 1)) as [H2|H2]|].
  - rewrite Hdisk.
    apply (recorded_read_covers image d offset length
             (knownChunks (ex_disk s)) Hrr Hchain Hlen Hchain').
    + rewrite Hrr. exact Hcell.
    + lia.
  - apply overlay_same; try assumption; [rewrite Hdisk; reflexivity|].
    rewrite (Hcell p).
    destruct (in_raw (_createReadPlan d offset length) p) eqn:Hin;
      [|rewrite andb_false_r; reflexivity].
    apply in_raw_true in Hin. destruct Hin as (first & l & Hin & Hp).
    destruct (plan_entries d offset length Hlen Hchain) as (_ & _ & Hraw).
    destruct (Hraw first l Hin) as (? & ? & ? & _). lia.
  - apply overlay_same; try assumption; [rewrite Hdisk; reflexivity|].
    rewrite (Hcell p).
    destruct (in_raw (_createReadPlan d offset length) p) eqn:Hin;
      [|rewrite andb_false_r; reflexivity].
    apply in_raw_true in Hin. destruct Hin as (first & l & Hin & Hp).
    destruct (plan_entries d offset length Hlen Hchain) as (_ & _ & Hraw).
    destruct (Hraw first l Hin) as (? & ? & ? & _). lia.
Qed.

Variable allocUnsafe : Z -> Buffer.

Hypothesis Halloc : forall n, 0 <= n -> Buf.length (allocUnsafe n) = n.

(** Pumping a stream whose window the backend serves. *)
Lemma pump_delivers (fuel : nat) :
  forall (self : DiskStream.t) (d : Disk) (w : World B),
    chain (knownChunks d) ->
    1 <= DiskStream.highWaterMark self ->
    serves inv image (DiskStream.position self) (DiskStream.capacity self - 1) ->
    inv (backend w) ->
    (Z.to_nat (DiskStream.capacity self - DiskStream.position self) < fuel)%nat ->
    exists bufs d' w',
      DiskStream.pump allocUnsafe fuel self d w
      = (bufs, DiskStream.Ended,
         DiskStream.mk (DiskStream.capacity self)
           (DiskStream.highWaterMark self)
           (Z.max (DiskStream.position self) (DiskStream.capacity self)),
         d', w') /\
      concat bufs
      = image_bytes (overlay d image) (DiskStream.position self)
          (DiskStream.capacity self - DiskStream.position self) /\
      Forall (fun b => 1 <= Buf.length b <= DiskStream.highWaterMark self) bufs /\
      chain (knownChunks d') /\
      inv (backend w') /\
      forall p, overlay d' image p = overlay d image p.
Proof.
  induction fuel as [|fuel IH]; intros self d w Hchain Hhwm Hserves Hinv Hfuel;
    [lia|].
  destruct self as [cap hwm pos]. simpl in *.
  unfold DiskStream._read. simpl.
  destruct (Z.leb_spec (Z.min hwm (cap - pos)) 0) as [Hend|Hmore].
  - exists [], d, w. rewrite Z.max_l by lia.
    split; [reflexivity|].
    split; [rewrite image_bytes_none by lia; reflexivity|].
    split; [constructor|]. auto.
  - set (len := Z.min hwm (cap - pos)) in *.
    destruct (read_step d (allocUnsafe len) len pos w Hchain)
      as (s & Hread & Hchain1 & Hinv1 & Hov1); try lia.
    { apply Halloc. lia. }
    { apply (serves_sub pos (cap - 1)); [assumption|lia|lia]. }
    { assumption. }
    rewrite Hread.
    destruct (IH (DiskStream.mk cap hwm (pos + len)) (ex_disk s) (ex_world s))
      as (bufs & d' & w' & Hpump & Hconcat & Hall & Hchain' & Hinv' & Hov');
      simpl; try assumption; try lia.
    { apply (serves_sub pos (cap - 1)); [assumption|lia|lia]. }
    rewrite Hpump. simpl in Hconcat.
    exists (image_bytes (overlay d image) pos len :: bufs), d', w'.
    assert (Hmax : Z.max (pos + len) cap = Z.max pos cap)
      by (unfold len; lia).
    cbn [DiskStream.capacity DiskStream.highWaterMark DiskStream.position].
    rewrite Hmax. split; [reflexivity|].
    split.
    { rewrite concat_cons, Hconcat.
      rewrite (image_bytes_ext _ (overlay d image) _ _ Hov1).
      rewrite <- image_bytes_app by lia. f_equal. lia. }
    split.
    { constructor; [|assumption].
      rewrite image_bytes_length by lia. lia. }
    split; [assumption|]. split; [assumption|].
    intros p. rewrite Hov'. apply Hov1.
Qed.

Lemma getCapacity_store (d d0 : Disk) (w w0 : World B) (res : JsError E + Z) :
  getCapacity d w = (res, d0, w0) ->
  knownChunks d0 = knownChunks d /\ discardIsZero d0 = discardIsZero d.
Proof.
  unfold getCapacity. destruct (capacity d).
  - intros [= _ <- _]. auto.
  - destruct (_getCapacity (backend w)) as [[err|c] b]; intros [= _ <- _]; auto.
Qed.

Lemma overlay_fields (d d0 : Disk) (p : Z) :
  knownChunks d0 = knownChunks d -> discardIsZero d0 = discardIsZero d ->
  overlay d0 image p = overlay d image p.
Proof.
  intros Hk Hz. unfold overlay, readableChunks. rewrite Hk, Hz. reflexivity.
Qed.

(** [getStream] followed by the consumption of its stream. *)
Lemma getStream_pump (d d0 : Disk) (w w0 : World B)
  (position length highWaterMark : option Z) (c : Z) (fuel : nat) :
  getCapacity d w = (inr c, d0, w0) ->
  chain (knownChunks d) ->
  let pos := match position with Some p => p | None => 0 end in
  let end' := match length with Some l => Z.min (pos + l) c | None => c end in
  let hwm := Z.max (match highWaterMark with
                    | Some h => h
                    | None => DEFAULT_HIGH_WATER_MARK
                    end) MIN_HIGH_WATER_MARK in
  serves inv image pos (end' - 1) ->
  inv (backend w0) ->
  (Z.to_nat (end' - pos) < fuel)%nat ->
  exists bufs d' w',
    getStream d position length highWaterMark w
    = (inr (DiskStream.mk end' hwm pos), d0, w0) /\
    DiskStream.pump allocUnsafe fuel (DiskStream.mk end' hwm pos) d0 w0
    = (bufs, DiskStream.Ended, DiskStream.mk end' hwm (Z.max pos end'), d', w')
    /\
    concat bufs = image_bytes (overlay d image) pos (end' - pos) /\
    Forall (fun b => 1 <= Buf.length b <= hwm) bufs /\
    chain (knownChunks d').
Proof.
  intros Hcap Hchain pos end' hwm Hserves Hinv Hfuel.
  destruct (getCapacity_store _ _ _ _ _ Hcap) as [Hk Hz].
  destruct (pump_delivers fuel (DiskStream.mk end' hwm pos) d0 w0)
    as (bufs & d' & w' & Hpump & Hconcat & Hall & Hchain' & _ & _);
    simpl; try assumption.
  { rewrite Hk. assumption. }
  { subst hwm. unfold MIN_HIGH_WATER_MARK. lia. }
  exists bufs, d', w'. simpl in *.
  split; [unfold getStream; rewrite Hcap; reflexivity|].
  split; [exact Hpump|]. split; [|auto].
  rewrite Hconcat. apply image_bytes_ext. intros p.
  apply overlay_fields; assumption.
Qed.

(** X10.  Consuming a [DiskStream] whose high-water mark is at least 1,
    on a store that satisfies its invariant and over a backend that serves
    the window [position .. capacity-1]: within
    [capacity - position + 1] calls of [_read] the stream ends, the
    buffers it pushed, each of 1 to [highWaterMark] bytes, put together
    are the bytes of the window as a read gives them, and the position has
    reached the capacity (or stayed where it was when it was already
    there).  The store satisfies its invariant afterwards. *)
Theorem stream_delivers_its_window (self : DiskStream.t) (d : Disk)
  (w : World B) (fuel : nat) :
  store_ok (knownChunks d) ->
  1 <= DiskStream.highWaterMark self ->
  serves inv image (DiskStream.position self) (DiskStream.capacity self - 1) ->
  inv (backend w) ->
  (Z.to_nat (DiskStream.capacity self - DiskStream.position self) < fuel)%nat ->
  exists bufs d' w',
    DiskStream.pump allocUnsafe fuel self d w
    = (bufs, DiskStream.Ended,
       DiskStream.mk (DiskStream.capacity self) (DiskStream.highWaterMark self)
         (Z.max (DiskStream.position self) (DiskStream.capacity self)),
       d', w') /\
    concat bufs
    = image_bytes (overlay d image) (DiskStream.position self)
        (DiskStream.capacity self - DiskStream.position self) /\
    Forall (fun b => 1 <= Buf.length b <= DiskStream.highWaterMark self) bufs /\
    store_ok (knownChunks d').
Proof.
  intros Hok Hhwm Hserves Hinv Hfuel. apply store_ok_chain in Hok.
  destruct (pump_delivers fuel self d w Hok Hhwm Hserves Hinv Hfuel)
    as (bufs & d' & w' & Hpump & Hconcat & Hall & Hchain' & _ & _).
  exists bufs, d', w'. split; [exact Hpump|]. split; [exact Hconcat|].
  split; [exact Hall|]. apply store_ok_chain. exact Hchain'.
Qed.

(** X11.  [getStream(position, length, highWaterMark)] gives the error of
    a failed capacity query to its callback and makes no stream.  When the
    query answers [c], the stream starts at [position] (0 when left out),
    ends at [c], or at [position + length] when a length is given and that
    is less, and has a high-water mark of at least 16; consumed on a store
    that satisfies its invariant over a backend that serves this range, it
    ends after pushing exactly the bytes of the range as a read gives
    them: it never reads beyond the capacity or the requested length. *)
Theorem getStream_delivers_requested_range (d d0 : Disk) (w w0 : World B)
  (position length highWaterMark : option Z) :
  (forall err,
      getCapacity d w = (inl err, d0, w0) ->
      getStream d position length highWaterMark w = (inl err, d0, w0)) /\
  (forall (c : Z) (fuel : nat),
      getCapacity d w = (inr c, d0, w0) ->
      store_ok (knownChunks d) ->
      let pos := match position with Some p => p | None => 0 end in
      let end' := match length with Some l => Z.min (pos + l) c | None => c end in
      serves inv image pos (end' - 1) ->
      inv (backend w0) ->
      (Z.to_nat (end' - pos) < fuel)%nat ->
      exists self bufs ending d' w',
        getStream d position length highWaterMark w = (inr self, d0, w0) /\
        DiskStream.position self = pos /\
        DiskStream.capacity self = end' /\
        MIN_HIGH_WATER_MARK <= DiskStream.highWaterMark self /\
        DiskStream.pump allocUnsafe fuel self d0 w0
        = (bufs, DiskStream.Ended, ending, d', w') /\
        concat bufs = image_bytes (overlay d image) pos (end' - pos)).
Proof.
  split.
  - intros err Hcap. unfold getStream. rewrite Hcap. reflexivity.
  - intros c fuel Hcap Hok pos end' Hserves Hinv Hfuel.
    apply store_ok_chain in Hok.
    destruct (getStream_pump d d0 w w0 position length highWaterMark c fuel
                Hcap Hok Hserves Hinv Hfuel)
      as (bufs & d' & w' & Hget & Hpump & Hconcat & _).
    eexists. exists bufs. eexists. exists d', w'.
    split; [exact Hget|]. simpl.
    split; [reflexivity|]. split; [reflexivity|]. split; [lia|].
    split; [exact Hpump | exact Hconcat].
Qed.

(** X12.  [DiskWrapper.getStream(highWaterMark)] hands its argument to
    [Disk.getStream] in the place of the position: when the capacity query
    answers [c], the stream it gives starts at position [h] for the
    argument [h], with the default high-water mark 16384, and consumed as
    above it pushes the bytes of [h .. c-1]. *)
Theorem DiskWrapper_getStream_argument_is_the_position (d d0 : Disk)
  (w w0 : World B) (h c : Z) (fuel : nat) :
  getCapacity d w = (inr c, d0, w0) ->
  store_ok (knownChunks d) ->
  serves inv image h (c - 1) ->
  inv (backend w0) ->
  (Z.to_nat (c - h) < fuel)%nat ->
  exists self bufs ending d' w',
    DiskWrapper_getStream d (Some h) w = (inr self, d0, w0) /\
    DiskStream.position self = h /\
    DiskStream.highWaterMark self = DEFAULT_HIGH_WATER_MARK /\
    DiskStream.pump allocUnsafe fuel self d0 w0
    = (bufs, DiskStream.Ended, ending, d', w') /\
    concat bufs = image_bytes (overlay d image) h (c - h).
Proof.
  intros Hcap Hok Hserves Hinv Hfuel. apply store_ok_chain in Hok.
  destruct (getStream_pump d d0 w w0 (Some h) None None c fuel
              Hcap Hok Hserves Hinv Hfuel)
    as (bufs & d' & w' & Hget & Hpump & Hconcat & _).
  eexists. exists bufs. eexists. exists d', w'.
  split; [exact Hget|]. simpl.
  split; [reflexivity|]. split; [reflexivity|].
  split; [exact Hpump | exact Hconcat].
Qed.

End StreamProperties.

Lemma repeat_alloc (n : Z) :
  0 <= n -> Buf.length (repeat x00 (Z.to_nat n)) = n.
Proof. intros. unfold Buf.length. rewrite repeat_length. lia. Qed.

Lemma stream_delivers_its_window_witness :
  let m := mkMem (fun _ => x41) 100 (Some 64) in
  let d := mkDisk true true true true
             [BufferDiskChunk [x01; x02] 10; DiscardDiskChunk 20 5] None in
  exists bufs ending d' (w' : World MemBackend),
    DiskStream.pump (fun n => repeat x00 (Z.to_nat n)) 50
      (DiskStream.new 40 0 0) d (mkWorld m [])
    = (bufs, DiskStream.Ended, ending, d', w') /\
    concat bufs = image_bytes (overlay d (image m)) 0 40 /\
    store_ok (knownChunks d').
Proof.
  intros m d.
  destruct (@stream_delivers_its_window MemBackend unit MemHooks
              (fun b => b = m) (image m) (fun n => repeat x00 (Z.to_nat n))
              repeat_alloc (DiskStream.new 40 0 0) d (mkWorld m []) 50)
    as (bufs & d' & w' & Hpump & Hconcat & _ & Hok).
  - apply store_ok_chain. split; repeat constructor;
      unfold wf_chunk, before; simpl; lia.
  - simpl. unfold MIN_HIGH_WATER_MARK. lia.
  - apply MemHooks_serves. simpl. lia.
  - reflexivity.
  - simpl. lia.
  - exists bufs. eexists. exists d', w'. split; [exact Hpump|]. auto.
Defined.

Lemma getStream_delivers_requested_range_witness :
  let m := mkMem (fun _ => x41) 100 (Some 64) in
  let d := mkDisk true true false true
             [BufferDiskChunk [x01; x02] 10] None in
  exists self bufs ending d' w',
    getStream d (Some 8) (Some 100) None (mkWorld m [])
    = (inr self, set_capacity d 64, mkWorld m [CallGetCapacity]) /\
    DiskStream.capacity self = 64 /\
    DiskStream.pump (fun n => repeat x00 (Z.to_nat n)) 60 self
      (set_capacity d 64) (mkWorld m [CallGetCapacity])
    = (bufs, DiskStream.Ended, ending, d', w') /\
    concat bufs = image_bytes (overlay d (image m)) 8 56.
Proof.
  intros m d.
  destruct (proj2 (@getStream_delivers_requested_range MemBackend unit
                     MemHooks (fun b => b = m) (image m)
                     (fun n => repeat x00 (Z.to_nat n)) repeat_alloc
                     d (set_capacity d 64) (mkWorld m [])
                     (mkWorld m [CallGetCapacity]) (Some 8) (Some 100) None)
              64 60%nat eq_refl)
    as (self & bufs & ending & d' & w' & Hget & _ & Hcap & _ & Hpump & Hconcat).
  - apply store_ok_chain. split; repeat constructor. unfold wf_chunk; simpl; lia.
  - apply MemHooks_serves. simpl. lia.
  - reflexivity.
  - simpl. lia.
  - exists self, bufs, ending, d', w'. auto.
Defined.

Lemma DiskWrapper_getStream_argument_is_the_position_witness :
  let m := mkMem (fun _ => x41) 100 (Some 64) in
  let d := newDisk true true false true in
  exists self,
    DiskWrapper_getStream d (Some 32) (mkWorld m [])
    = (inr self, set_capacity d 64, mkWorld m [CallGetCapacity]) /\
    DiskStream.position self = 32 /\
    DiskStream.highWaterMark self = 16384.
Proof.
  intros m d.
  destruct (@DiskWrapper_getStream_argument_is_the_position MemBackend unit
              MemHooks (fun b => b = m) (image m)
              (fun n => repeat x00 (Z.to_nat n)) repeat_alloc
              d (set_capacity d 64) (mkWorld m [])
              (mkWorld m [CallGetCapacity]) 32 64 40%nat eq_refl)
    as (self & bufs & ending & d' & w' & Hget & Hpos & Hhwm & _).
  - apply store_ok_chain. split; constructor.
  - apply MemHooks_serves. simpl. lia.
  - reflexivity.
  - simpl. lia.
  - exists self. auto.
Defined.

(** ** Hook calls and the store *)

Lemma insertChunk_In (c : DiskChunk) (known known' : list DiskChunk) :
  insertChunk c true known = Some known' -> In c known'.
Proof.
  unfold insertChunk.
  destruct (insertLoop (S (length known)) c known 0 0) as [[k insertAt]|];
    [|discriminate].
  intros [= <-]. destruct (splice_insert_any k [c] insertAt) as [n ->].
  apply in_or_app. right. simpl. auto.
Qed.

(** X16.  [discard] does not check its length: with [length <= 0] it still
    returns and records a discard chunk, whose end lies before its start,
    so that the store no longer satisfies its invariant. *)
Theorem discard_does_not_check_its_length (d : Disk) (offset length : Z) :
  length <= 0 ->
  exists d',
    discard d offset length = Some d' /\
    In (DiscardDiskChunk offset length) (knownChunks d') /\
    end_ (DiscardDiskChunk offset length) < start (DiscardDiskChunk offset length)
    /\ ~ store_ok (knownChunks d').
Proof.
  intros Hlen. unfold discard, _insertDiskChunk.
  destruct (insertChunk_total (DiscardDiskChunk offset length) true
              (knownChunks d)) as [known' Hins].
  rewrite Hins. eexists. split; [reflexivity|]. simpl.
  pose proof (insertChunk_In _ _ _ Hins) as Hin.
  split; [exact Hin|]. split; [lia|].
  intros (Hwf & _). rewrite Forall_forall in Hwf.
  specialize (Hwf _ Hin). unfold wf_chunk in Hwf. simpl in Hwf. lia.
Qed.

Lemma discard_does_not_check_its_length_witness :
  exists d',
    discard (newDisk true true false true) 5 0 = Some d' /\
    In (DiscardDiskChunk 5 0) (knownChunks d') /\
    ~ store_ok (knownChunks d').
Proof.
  destruct (discard_does_not_check_its_length (newDisk true true false true)
              5 0 ltac:(lia)) as (d' & Hd & Hin & _ & Hbad).
  exists d'. auto.
Defined.

Section HookCalls.

Context {B E : Type} {hooks : Hooks B E}.

(** X13.  [write] updates the store and then, on a read-only disk,
    reports [length] bytes written without calling any hook, and on a
    writable disk calls the write hook once, with the arguments it was
    given, and reports the answer of the hook.  It returns for every disk,
    also when the store does not satisfy its invariant. *)
Theorem write_calls_the_hook_only_when_writable (d : Disk) (buffer : Buffer)
  (bufferOffset length fileOffset : Z) (w : World B) :
  exists d',
    _insertDiskChunk d
      (if recordWrites d
       then BufferDiskChunk
              (Buf.slice buffer bufferOffset (bufferOffset + length)) fileOffset
       else DiscardDiskChunk fileOffset length)
      (recordWrites d) = Some d' /\
    (readOnly d = true ->
     write d buffer bufferOffset length fileOffset w = Some (inr length, d', w))
    /\
    (readOnly d = false ->
     forall res b',
       _write buffer bufferOffset length fileOffset (backend w) = (res, b') ->
       write d buffer bufferOffset length fileOffset w
       = Some (match res with
               | inl err => inl (HookError err)
               | inr n => inr n
               end, d',
               mkWorld b' (calls w ++ [CallWrite bufferOffset length fileOffset]))).
Proof.
  unfold write, _insertDiskChunk.
  destruct (recordWrites d);
    match goal with
    | |- context [insertChunk ?c ?i (knownChunks d)] =>
        destruct (insertChunk_total c i (knownChunks d)) as [known' Hins]
    end;
    rewrite Hins; simpl; eexists; (split; [reflexivity|]);
    (split; [intros ->; reflexivity|]);
    intros -> res b' ->; destruct res; reflexivity.
Qed.

Lemma execEntry_frame (s : ExecState B) (e : PlanEntry) :
  match execEntry s e with
  | Fulfilled s' | Rejected _ s' =>
      ex_disk s' = set_knownChunks (ex_disk s) (knownChunks (ex_disk s')) /\
      (recordReads (ex_disk s) = false -> ex_disk s' = ex_disk s) /\
      exists reads,
        calls (ex_world s') = calls (ex_world s) ++ reads /\
        Forall is_read_call reads
  end.
Proof.
  assert (Hnil : exists reads,
             calls (ex_world s) = calls (ex_world s) ++ reads /\
             Forall is_read_call reads)
    by (exists []; rewrite app_nil_r; split; [reflexivity|constructor]).
  pose proof (eq_sym (set_knownChunks_same (ex_disk s))) as Hsame.
  destruct e as [first last' | c]; unfold execEntry.
  - destruct (_read (ex_buffer s) (ex_offset s) (last' - first + 1) first
                (backend (ex_world s))) as [[[err|n] buf'] b'].
    + simpl. split; [exact Hsame|]. split; [reflexivity|].
      eexists. split; [reflexivity|]. repeat constructor.
    + destruct (recordReads (ex_disk s)) eqn:Hrr.
      * unfold _insertDiskChunk.
        destruct (insertChunk _ true (knownChunks (ex_disk s))); simpl;
          (split; [first [reflexivity | exact Hsame]|]);
          (split; [discriminate|]);
          (eexists; split; [reflexivity|]; repeat constructor).
      * simpl. split; [exact Hsame|]. split; [reflexivity|].
        eexists. split; [reflexivity|]. repeat constructor.
  - destruct (data c) as [dat|]; [|simpl; auto].
    destruct (Buf.copy dat (ex_buffer s) (ex_offset s) 0 _); simpl; auto.
Qed.

Lemma execPlan_frame (plan : list PlanEntry) :
  forall s : ExecState B,
    match execPlan s plan with
    | Fulfilled s' | Rejected _ s' =>
        ex_disk s' = set_knownChunks (ex_disk s) (knownChunks (ex_disk s')) /\
        (recordReads (ex_disk s) = false -> ex_disk s' = ex_disk s) /\
        exists reads,
          calls (ex_world s') = calls (ex_world s) ++ reads /\
          Forall is_read_call reads
    end.
Proof.
  induction plan as [|e plan IH]; intros s.
  - simpl. split; [symmetry; apply set_knownChunks_same|].
    split; [reflexivity|]. exists []. rewrite app_nil_r.
    split; [reflexivity|constructor].
  - cbn [execPlan]. pose proof (execEntry_frame s e) as He.
    destruct (execEntry s e) as [s1|err s1]; [|exact He].
    destruct He as (Hd1 & Hs1 & reads1 & Hc1 & Hr1).
    specialize (IH s1).
    destruct (execPlan s1 plan) as [s2|err s2];
      destruct IH as (Hd2 & Hs2 & reads2 & Hc2 & Hr2);
      (split; [rewrite Hd2 at 1; rewrite Hd1; reflexivity|]);
      (split; [intros Hrr; rewrite Hs2, Hs1;
               [reflexivity | exact Hrr | rewrite Hs1; exact Hrr]|]);
      (exists (reads1 ++ reads2);
       split; [rewrite Hc2, Hc1, app_assoc; reflexivity
              | apply Forall_app; auto]).
Qed.

(** X14.  Whatever the hooks do and whether it succeeds or fails, a read
    changes nothing of the disk but its store, and not even the store
    without [recordReads]; and the only hook it calls is the read hook. *)
Theorem read_only_touches_the_store (d : Disk) (buffer : Buffer)
  (bufferOffset length fileOffset : Z) (w : World B) :
  let s := snd (read d buffer bufferOffset length fileOffset w) in
  ex_disk s = set_knownChunks d (knownChunks (ex_disk s)) /\
  (recordReads d = false -> ex_disk s = d) /\
  exists reads,
    calls (ex_world s) = calls w ++ reads /\ Forall is_read_call reads.
Proof.
  unfold read, _readAccordingToPlan.
  pose proof (execPlan_frame (_createReadPlan d fileOffset length)
                (mkExec buffer 0 d w)) as H.
  destruct (execPlan (mkExec buffer 0 d w) (_createReadPlan d fileOffset length));
    exact H.
Qed.

(** X15.  Starting from a store that satisfies its invariant (the empty
    store of a new disk does), every sequence of writes and discards of at
    least one byte each, the writes taking their bytes from inside their
    buffers, runs through and leaves a store that satisfies the invariant,
    whatever the write hook answers. *)
Theorem updates_keep_the_invariant (us : list Update) :
  forall (d : Disk) (w : World B),
    Forall update_ok us ->
    store_ok (knownChunks d) ->
    exists d' w',
      apply_updates us d w = Some (d', w') /\ store_ok (knownChunks d').
Proof.
  induction us as [|u us IH]; intros d w Hus Hok.
  - exists d, w. auto.
  - inversion Hus as [|? ? Hu Hrest]; subst.
    destruct u as [buffer bufferOffset length fileOffset | offset length];
      simpl in Hu; cbn [apply_updates].
    + destruct Hu as (Hlen & Hbo & Hfit).
      destruct (write_chunk_interval d buffer bufferOffset length fileOffset
                  Hlen (fun _ => conj Hbo Hfit)) as (Hwf & _).
      destruct (insertChunk_chain _ (recordWrites d) (knownChunks d) Hwf
                  (proj1 (store_ok_chain _) Hok))
        as (known' & Hins & Hchain).
      destruct (write_store d buffer bufferOffset length fileOffset w known'
                  Hins) as (cb & w' & Hw & _).
      rewrite Hw. apply IH; [assumption|].
      apply store_ok_chain. exact Hchain.
    + destruct (insertChunk_chain (DiscardDiskChunk offset length) true
                  (knownChunks d))
        as (known' & Hins & Hchain);
        [unfold wf_chunk; simpl; lia | apply store_ok_chain; exact Hok |].
      unfold discard, _insertDiskChunk. rewrite Hins. simpl.
      apply IH; [assumption|]. apply store_ok_chain. exact Hchain.
Qed.

End HookCalls.

Lemma updates_keep_the_invariant_witness :
  let m := mkMem (fun _ => x41) 100 None in
  exists d' (w' : World MemBackend),
    apply_updates
      [DoDiscard 5 10; DoWrite [x59; x59] 0 2 6; DoDiscard 0 7]
      (newDisk false true false true) (mkWorld m [])
    = Some (d', w') /\
    store_ok (knownChunks d').
Proof.
  intro m.
  apply (@updates_keep_the_invariant MemBackend unit MemHooks).
  - repeat constructor; simpl; unfold Buf.length; simpl; lia.
  - repeat constructor.
Defined.
